(** * rufs: the block-fetch cache engine of [fetch.go]

    A shallow embedding of [Fetcher], [pfPeer], [pfHandle] and [pfStream]
    from [fetch.go].  Go's [int] and [int64] are 64-bit two's-complement
    integers, modelled as [Z] with the wrap-around written out; slices are
    lists whose indexing panics out of range; a [nil] slice, channel or
    error is [None].  The handle mutex delimits the atomic sections of the
    model: the locked part of [Read] and the bookkeeping of a fetch
    goroutine are the steps of the interleaving semantics. *)

From Stdlib Require Import ZArith Lia Ascii String.
From Stdlib.Strings Require Import Byte.
From stdpp Require Import base list strings gmap.

Local Open Scope Z_scope.

(** ** Go runtime: machine integers, panics, slices *)

Module Go.

Definition two63 : Z := 9223372036854775808.
Definition two64 : Z := 18446744073709551616.
Definition MaxInt64 : Z := 9223372036854775807.
Definition MinInt64 : Z := -9223372036854775808.

(** Conversion to [int64] (and to the 64-bit [int]): two's complement. *)
Definition int64 (z : Z) : Z := (z + two63) mod two64 - two63.

Definition add64 (a b : Z) : Z := int64 (a + b).
Definition sub64 (a b : Z) : Z := int64 (a - b).
Definition mul64 (a b : Z) : Z := int64 (a * b).

(** Run-time panics of the operations [fetch.go] uses, and the state of a
    goroutine that waits on a channel nobody will ever close. *)
Inductive fault : Set :=
| IndexOutOfRange
| SliceBoundsOutOfRange
| IntegerDivideByZero
| MakesliceLenOutOfRange
| MakesliceCapOutOfRange
| CloseOfNilChannel
| CloseOfClosedChannel
| BlockedForever.

Inductive res (A : Type) : Type :=
| Ret (a : A)
| Panic (p : fault).
Arguments Ret {A} a.
Arguments Panic {A} p.

#[global] Instance res_ret : MRet res := @Ret.
#[global] Instance res_bind : MBind res := λ A B f m,
  match m with Ret a => f a | Panic p => Panic p end.

(** [a / b] and [a % b] on int64: truncated towards zero. *)
Definition div64 (a b : Z) : res Z :=
  if b =? 0 then Panic IntegerDivideByZero else Ret (int64 (a ÷ b)).
Definition rem64 (a b : Z) : res Z :=
  if b =? 0 then Panic IntegerDivideByZero else Ret (Z.rem a b).

(** [s[i]] and [s[i] = x]. *)
Definition index {A} (s : list A) (i : Z) : res A :=
  if (0 <=? i) && (i <? Z.of_nat (length s)) then
    match s !! Z.to_nat i with
    | Some x => Ret x
    | None => Panic IndexOutOfRange
    end
  else Panic IndexOutOfRange.

Definition store {A} (s : list A) (i : Z) (x : A) : res (list A) :=
  if (0 <=? i) && (i <? Z.of_nat (length s)) then Ret (<[Z.to_nat i := x]> s)
  else Panic IndexOutOfRange.

(** [len(s)] *)
Definition len {A} (s : list A) : Z := Z.of_nat (length s).

(** [make([]T, n)] of a slice whose elements are [zero]. *)
Definition make {A} (zero : A) (n : Z) : res (list A) :=
  if n <? 0 then Panic MakesliceLenOutOfRange
  else Ret (replicate (Z.to_nat n) zero).

(** [make([]T, 0, n)] *)
Definition make_cap {A} (n : Z) : res (list A) :=
  if n <? 0 then Panic MakesliceCapOutOfRange else Ret [].

(** [s[lo:]] and [s[:hi]]. *)
Definition slice_from {A} (s : list A) (lo : Z) : res (list A) :=
  if (0 <=? lo) && (lo <=? len s) then Ret (drop (Z.to_nat lo) s)
  else Panic SliceBoundsOutOfRange.
Definition slice_to {A} (s : list A) (hi : Z) : res (list A) :=
  if (0 <=? hi) && (hi <=? len s) then Ret (take (Z.to_nat hi) s)
  else Panic SliceBoundsOutOfRange.

(** [strings.Split(s, sep)] for a one-character separator. *)
Fixpoint Split (s : string) (sep : ascii) : list string :=
  match s with
  | EmptyString => [EmptyString]
  | String c s' =>
      if Ascii.eqb c sep then EmptyString :: Split s' sep
      else match Split s' sep with
           | [] => [String c EmptyString]
           | w :: ws => String c w :: ws
           end
  end.

End Go.
Import Go.

(** ** Data model *)

Abbreviation bytes := (list Byte.byte) (only parsing).

(** A Go [error] value; [nil] is [None]. *)
Definition error := string.
Definition ErrInterrupted : error := "ErrInterrupted"%string.
Definition EOF : error := "EOF"%string.

(** A [chan void] is a reference: the index of its cell in the channel
    store of the run-time state, whose content says whether it is closed. *)
Abbreviation chan := nat (only parsing).

(** The connection of a [pfPeer]: its address and the number of probes
    sent over it so far. *)
Record RUFSClient := {
  c_addr : string;
  c_pings : nat;
}.

(** The collaborators outside [fetch.go]: the transport factory and the
    remote ends.  [NewRUFSClient addr name] is the error of dialing [addr]
    with the TLS configuration made for [name]; [Ping c] the error of a
    liveness probe on the connection in state [c]; [Elapsed c] the time
    measured around the second probe; [RemoteRead c hash offset size] the
    [Data] of the reply to a block read, or its error. *)
Record Network := {
  NewRUFSClient : string → string → option error;
  Ping : RUFSClient → option error;
  Elapsed : RUFSClient → Z;
  RemoteRead : RUFSClient → string → Z → Z → option bytes + error;
}.

Record pfPeer := {
  ident : string;
  client : RUFSClient;
  latency : option Z;
}.

(** [Fetcher]: the peer registry and the block size ([server] and the
    local cache settings are not used by the data path). *)
Record Fetcher := {
  f_peers : gmap string pfPeer;
  f_blockSize : Z;
}.

(** [pfHandle]; its [fetcher] pointer is the [w_fetcher] of the state it
    lives in, its [cacheMtx] the atomicity of the steps. *)
Record pfHandle := {
  h_hash : string;
  h_size : Z;
  h_peers : list string;
  h_cache : list (option bytes);
  h_active : list (option chan);
  h_lastErr : option error;
}.

(** A goroutine spawned by [fetch] that has not done its bookkeeping yet:
    the [offset] and the block index [b] captured by its closure. *)
Record goroutine := {
  g_offset : Z;
  g_block : Z;
}.

(** The run-time state around one handle: the fetcher it points to, the
    [prefetch_blocks] flag, the channels made so far ([true]: closed) and
    the fetch goroutines in flight. *)
Record world := {
  w_fetcher : Fetcher;
  w_handle : pfHandle;
  prefetchBlocks : Z;
  w_chans : list bool;
  w_running : list goroutine;
}.

Definition set_cache (c : list (option bytes)) (h : pfHandle) : pfHandle :=
  {| h_hash := h_hash h; h_size := h_size h; h_peers := h_peers h;
     h_cache := c; h_active := h_active h; h_lastErr := h_lastErr h |}.
Definition set_active (a : list (option chan)) (h : pfHandle) : pfHandle :=
  {| h_hash := h_hash h; h_size := h_size h; h_peers := h_peers h;
     h_cache := h_cache h; h_active := a; h_lastErr := h_lastErr h |}.
Definition set_lastErr (e : option error) (h : pfHandle) : pfHandle :=
  {| h_hash := h_hash h; h_size := h_size h; h_peers := h_peers h;
     h_cache := h_cache h; h_active := h_active h; h_lastErr := e |}.
Definition set_handle (h : pfHandle) (w : world) : world :=
  {| w_fetcher := w_fetcher w; w_handle := h; prefetchBlocks := prefetchBlocks w;
     w_chans := w_chans w; w_running := w_running w |}.
Definition set_fetcher (f : Fetcher) (w : world) : world :=
  {| w_fetcher := f; w_handle := w_handle w; prefetchBlocks := prefetchBlocks w;
     w_chans := w_chans w; w_running := w_running w |}.
Definition set_chans (cs : list bool) (w : world) : world :=
  {| w_fetcher := w_fetcher w; w_handle := w_handle w; prefetchBlocks := prefetchBlocks w;
     w_chans := cs; w_running := w_running w |}.
Definition set_running (gs : list goroutine) (w : world) : world :=
  {| w_fetcher := w_fetcher w; w_handle := w_handle w; prefetchBlocks := prefetchBlocks w;
     w_chans := w_chans w; w_running := gs |}.

Definition blockSize (w : world) : Z := f_blockSize (w_fetcher w).
Definition cache (w : world) : list (option bytes) := h_cache (w_handle w).
Definition active (w : world) : list (option chan) := h_active (w_handle w).
Definition lastErr (w : world) : option error := h_lastErr (w_handle w).
Definition size (w : world) : Z := h_size (w_handle w).

(** ** Peers *)

(** [GetFetcher]: [blockSize: 1 << *fetchBlockSizePower]. *)
Definition GetFetcher_blockSize (fetchBlockSizePower : Z) : Z :=
  if fetchBlockSizePower <? 64 then int64 (Z.shiftl 1 fetchBlockSizePower) else 0.

(** [pfPeer.MeasureLatency]: the peer after the call and the error
    returned. *)
Definition MeasureLatency (net : Network) (r : pfPeer) : pfPeer * option error :=
  let c0 := client r in
  let c1 := {| c_addr := c_addr c0; c_pings := S (c_pings c0) |} in
  match Ping net c0 with
  | Some err => ({| ident := ident r; client := c1; latency := None |}, Some err)
  | None =>
      let c2 := {| c_addr := c_addr c0; c_pings := S (S (c_pings c0)) |} in
      match Ping net c1 with
      | Some err => ({| ident := ident r; client := c2; latency := None |}, Some err)
      | None => ({| ident := ident r; client := c2; latency := Some (Elapsed net c1) |}, None)
      end
  end.

(** [Fetcher.NewPeer]: the result of [MeasureLatency] is dropped. *)
Definition NewPeer (net : Network) (id : string) : res (option pfPeer * option error) :=
  let ex := Split id "@"%char in
  ex0 ← index ex 0;
  ex1 ← index ex 1;
  match NewRUFSClient net ex1 ex0 with
  | Some err => Ret (None, Some err)
  | None =>
      let r := {| ident := id; client := {| c_addr := ex1; c_pings := 0 |}; latency := None |} in
      let r' := fst (MeasureLatency net r) in
      Ret (Some r', None)
  end.

(** ** Handles *)

(** The [for _, p := range peers] loop of [NewHandle], on the registry and
    the [found] flag. *)
Fixpoint NewHandle_peers (net : Network) (ps : list string)
    (reg : gmap string pfPeer) (found : bool) : res (gmap string pfPeer * bool) :=
  match ps with
  | [] => Ret (reg, found)
  | p :: ps' =>
      match reg !! p with
      | Some _ => NewHandle_peers net ps' reg true
      | None =>
          '(r, err) ← NewPeer net p;
          match err, r with
          | None, Some r => NewHandle_peers net ps' (<[p := r]> reg) true
          | _, _ => NewHandle_peers net ps' reg found
          end
      end
  end.

Definition ErrNoPeer : error := "didn't find peer with file"%string.

(** [Fetcher.NewHandle]: the fetcher afterwards, and the handle or the
    error. *)
Definition NewHandle (net : Network) (f : Fetcher) (hash : string) (sz : Z)
    (peers : list string) : res (Fetcher * (pfHandle + error)) :=
  q ← div64 sz (int64 (f_blockSize f));
  let blocks := add64 q 1 in
  c ← make (None : option bytes) blocks;
  a ← make (None : option chan) blocks;
  let h := {| h_hash := hash; h_size := sz; h_peers := peers;
              h_cache := c; h_active := a; h_lastErr := None |} in
  '(reg, found) ← NewHandle_peers net peers (f_peers f) false;
  let f' := {| f_peers := reg; f_blockSize := f_blockSize f |} in
  if (found : bool) then Ret (f', inl h) else Ret (f', inr ErrNoPeer).

(** The state in which a handle starts: no channel, no goroutine. *)
Definition new_world (f : Fetcher) (h : pfHandle) (k : Z) : world :=
  {| w_fetcher := f; w_handle := h; prefetchBlocks := k;
     w_chans := []; w_running := [] |}.

(** ** Block fetch *)

Definition ErrNoPeerFetch : error := "Couldn't find peer with file"%string.

(** The loop of [realFetch] over [h.peers], with the current [retErr]. *)
Fixpoint realFetch_peers (net : Network) (reg : gmap string pfPeer) (hash : string)
    (offset bs : Z) (ps : list string) (retErr : error) : option bytes * option error :=
  match ps with
  | [] => (None, Some retErr)
  | p :: ps' =>
      match reg !! p with
      | None => realFetch_peers net reg hash offset bs ps' retErr
      | Some r =>
          match RemoteRead net (client r) hash offset bs with
          | inr err => realFetch_peers net reg hash offset bs ps' err
          | inl data => (data, None)
          end
      end
  end.

Definition realFetch (net : Network) (w : world) (offset : Z) : option bytes * option error :=
  realFetch_peers net (f_peers (w_fetcher w)) (h_hash (w_handle w)) offset
    (blockSize w) (h_peers (w_handle w)) ErrNoPeerFetch.

(** [pfHandle.fetch], the part that runs in the caller (under the mutex):
    make the marker and spawn the goroutine. *)
Definition fetch (offset : Z) (w : world) : res world :=
  let bs := int64 (blockSize w) in
  b ← div64 offset bs;
  let c : chan := length (w_chans w) in
  a ← store (active w) b (Some c);
  Ret (set_running (w_running w ++ [{| g_offset := offset; g_block := b |}])
        (set_chans (w_chans w ++ [false])
          (set_handle (set_active a (w_handle w)) w))).

(** [close(c)] *)
Definition close (c : option chan) (w : world) : res world :=
  match c with
  | None => Panic CloseOfNilChannel
  | Some c =>
      match w_chans w !! c with
      | Some false => Ret (set_chans (<[c := true]> (w_chans w)) w)
      | _ => Panic CloseOfClosedChannel
      end
  end.

(** The body of the goroutine of [fetch]: the network read, then the
    bookkeeping under the mutex. *)
Definition fetch_done (net : Network) (g : goroutine) (w : world) : res world :=
  let '(buf, err) := realFetch net w (g_offset g) in
  w1 ← match err with
       | Some e => Ret (set_handle (set_lastErr (Some e) (w_handle w)) w)
       | None =>
           c ← store (cache w) (g_block g) buf;
           Ret (set_handle (set_cache c (w_handle w)) w)
       end;
  m ← index (active w1) (g_block g);
  close m w1.

(** The [i]-th goroutine in flight runs to its end. *)
Definition run_goroutine (net : Network) (i : nat) (w : world) : res world :=
  match w_running w !! i with
  | None => Ret w
  | Some g => fetch_done net g (set_running (delete i (w_running w)) w)
  end.

(** ** Read *)

(** The loop [for b := offset/bs64; hi > b; b++] that collects [b*bs64];
    [hi] is the bound [(offset+int64(size+bs)-1)/bs64], which does not
    change during the loop, and [fuel] the number of iterations left. *)
Fixpoint Read_blocks_from (fuel : nat) (hi b bs64 : Z) : list Z :=
  match fuel with
  | O => []
  | S fuel' =>
      if hi >? b then mul64 b bs64 :: Read_blocks_from fuel' hi (add64 b 1) bs64
      else []
  end.

Definition Read_blocks (offset sz bs : Z) : res (list Z) :=
  let bs64 := int64 bs in
  lo ← div64 offset bs64;
  hi ← div64 (sub64 (add64 offset (int64 (add64 sz bs))) 1) bs64;
  Ret (Read_blocks_from (Z.to_nat (hi - lo)) hi lo bs64).

(** The loop over the needed blocks: launch the missing fetches, collect
    the markers to wait for. *)
Fixpoint Read_launch (bs64 : Z) (blocks : list Z) (w : world)
    (unfetched : list (option chan)) : res (world * list (option chan)) :=
  match blocks with
  | [] => Ret (w, unfetched)
  | o :: rest =>
      b ← div64 o bs64;
      cb ← index (cache w) b;
      match cb with
      | Some _ => Read_launch bs64 rest w unfetched
      | None =>
          ab ← index (active w) b;
          w' ← match ab with
               | None => fetch o w
               | Some _ => Ret w
               end;
          m ← index (active w') b;
          Read_launch bs64 rest w' (unfetched ++ [m])
      end
  end.

(** The purge of the block behind the first needed one. *)
Definition Read_purge (bs64 : Z) (blocks : list Z) (w : world) : res world :=
  o ← index blocks 0;
  q ← div64 o bs64;
  let b := sub64 q 1 in
  if b >? 0 then
    cb ← index (cache w) b;
    match cb with
    | Some _ =>
        c ← store (cache w) b None;
        a ← store (active w) b None;
        Ret (set_handle (set_active a (set_cache c (w_handle w))) w)
    | None => Ret w
    end
  else Ret w.

(** [b := blocks[len(blocks)-1]/bs64 + 1 + int64(i)] *)
Definition Read_prefetch_block (bs64 : Z) (blocks : list Z) (i : Z) : res Z :=
  o ← index blocks (sub64 (len blocks) 1);
  q ← div64 o bs64;
  Ret (add64 (add64 q 1) (int64 i)).

(** The prefetch loop [for i := uint(0); *prefetchBlocks > i; i++], with
    [fuel] iterations left. *)
Fixpoint Read_prefetch (fuel : nat) (i : Z) (bs64 : Z) (blocks : list Z) (w : world)
    : res world :=
  match fuel with
  | O => Ret w
  | S fuel' =>
      b ← Read_prefetch_block bs64 blocks i;
      w' ← (if mul64 b bs64 <? size w then
              cb ← index (cache w) b;
              match cb with
              | Some _ => Ret w
              | None =>
                  ab ← index (active w) b;
                  match ab with
                  | Some _ => Ret w
                  | None => fetch (mul64 b bs64) w
                  end
              end
            else Ret w);
      Read_prefetch fuel' (i + 1) bs64 blocks w'
  end.

(** The first critical section of [Read]: everything from the block list
    to the first [Unlock]. *)
Definition Read_locked (offset sz : Z) (w : world)
    : res (world * list Z * list (option chan)) :=
  let bs := blockSize w in
  let bs64 := int64 bs in
  blocks ← Read_blocks offset sz bs;
  '(w1, unfetched) ← Read_launch bs64 blocks w [];
  w2 ← Read_purge bs64 blocks w1;
  w3 ← Read_prefetch (Z.to_nat (prefetchBlocks w)) 0 bs64 blocks w2;
  Ret (w3, blocks, unfetched).

(** How the rest of the program behaves while a [Read] waits: whether its
    context is already cancelled, and whether [select] takes the context
    case when both cases are ready. *)
Record schedule := {
  ctx_done : bool;
  ctx_first : bool;
}.

Definition is_closed (w : world) (c : option chan) : bool :=
  match c with
  | Some c => match w_chans w !! c with Some true => true | _ => false end
  | None => false
  end.

(** The goroutine in flight that will close [c]. *)
Definition owner (w : world) (c : chan) : option (nat * goroutine) :=
  list_find (λ g, 0 ≤ g_block g ∧ active w !! Z.to_nat (g_block g) = Some (Some c))
    (w_running w).

(** One [select]: [None] when the context case is taken.  A marker that is
    still open is closed by letting the goroutine that owns it run. *)
Definition await (net : Network) (sch : schedule) (c : option chan) (w : world)
    : res (option world) :=
  if ctx_done sch then
    if is_closed w c && negb (ctx_first sch) then Ret (Some w) else Ret None
  else if is_closed w c then Ret (Some w)
  else match c with
       | None => Panic BlockedForever
       | Some c' =>
           match owner w c' with
           | Some (i, _) => w' ← run_goroutine net i w; Ret (Some w')
           | None => Panic BlockedForever
           end
       end.

(** The loop [for _, c := range unfetched]; the flag is [true] when the
    wait was interrupted. *)
Fixpoint Read_wait (net : Network) (sch : schedule) (unfetched : list (option chan))
    (w : world) : res (world * bool) :=
  match unfetched with
  | [] => Ret (w, false)
  | c :: rest =>
      r ← await net sch c w;
      match r with
      | None => Ret (w, true)
      | Some w' => Read_wait net sch rest w'
      end
  end.

(** The second critical section: the buffers of the needed blocks, or
    [h.lastErr] at the first one that is missing. *)
Fixpoint Read_gather (bs64 : Z) (blocks : list Z) (w : world) (bufs : list bytes)
    : res (list bytes + option error) :=
  match blocks with
  | [] => Ret (inl bufs)
  | o :: rest =>
      b ← div64 o bs64;
      cb ← index (cache w) b;
      match cb with
      | None => Ret (inr (lastErr w))
      | Some buf => Read_gather bs64 rest w (bufs ++ [buf])
      end
  end.

(** The cut point [int((bo + int64(size)) % bs64)]. *)
Definition Read_cut (offset sz bs64 o0 : Z) : res Z :=
  let bo := sub64 offset o0 in
  r ← rem64 (add64 bo (int64 sz)) bs64;
  Ret (int64 r).

(** [if cut > 0 { l := len(bufs)-1; if len(bufs[l]) > cut { bufs[l] = bufs[l][:cut] } }] *)
Definition Read_trim_tail (cut : Z) (bufs : list bytes) : res (list bytes) :=
  if cut >? 0 then
    let l := sub64 (len bufs) 1 in
    last ← index bufs l;
    if len last >? cut then
      t ← slice_to last cut;
      store bufs l t
    else Ret bufs
  else Ret bufs.

(** [if bo > 0 { bufs[0] = bufs[0][bo:] }] *)
Definition Read_trim_head (bo : Z) (bufs : list bytes) : res (list bytes) :=
  if bo >? 0 then
    first ← index bufs 0;
    t ← slice_from first bo;
    store bufs 0 t
  else Ret bufs.

(** [ret]: the only buffer itself, or the buffers appended to
    [make([]byte, 0, size)]. *)
Definition Read_join (sz : Z) (bufs : list bytes) : res bytes :=
  if len bufs =? 1 then index bufs 0
  else
    ret ← make_cap sz;
    Ret (foldl (λ (ret : bytes) (b : bytes), ret ++ b) ret bufs).

(** The end of [Read]: trim and join the buffers. *)
Definition Read_assemble (offset sz bs64 : Z) (blocks : list Z) (bufs : list bytes)
    : res bytes :=
  o0 ← index blocks 0;
  let bo := sub64 offset o0 in
  cut ← Read_cut offset sz bs64 o0;
  bufs1 ← Read_trim_tail cut bufs;
  bufs2 ← Read_trim_head bo bufs1;
  Read_join sz bufs2.

(** [pfHandle.Read] when the goroutines it waits for run during its wait
    and nothing else interleaves.  A [nil] slice is returned as []. *)
Definition Read (net : Network) (sch : schedule) (offset sz : Z) (w : world)
    : res (bytes * option error * world) :=
  if offset >=? size w then Ret ([], None, w)
  else
    let bs64 := int64 (blockSize w) in
    '(w1, blocks, unfetched) ← Read_locked offset sz w;
    '(w2, interrupted) ← Read_wait net sch unfetched w1;
    if (interrupted : bool) then Ret ([], Some ErrInterrupted, w2)
    else
      g ← Read_gather bs64 blocks w2 [];
      match g with
      | inr e => Ret ([], e, w2)
      | inl bufs =>
          ret ← Read_assemble offset sz bs64 blocks bufs;
          Ret (ret, None, w2)
      end.

(** ** Streams *)

(** [pfStream]: the cursor and the schedule of its own context; the handle
    is the one of the state. *)
Record pfStream := {
  s_offset : Z;
  s_ctx : schedule;
}.

Definition Stream (offset : Z) : pfStream :=
  {| s_offset := offset; s_ctx := {| ctx_done := false; ctx_first := false |} |}.

(** [copy(p, data)] *)
Definition copy (p data : bytes) : bytes :=
  take (length p) data ++ drop (length data) p.

(** [pfStream.Read(p)]: the buffer afterwards, [n], [err], the stream and
    the state. *)
Definition Stream_Read (net : Network) (s : pfStream) (p : bytes) (w : world)
    : res (bytes * Z * option error * pfStream * world) :=
  '(data, err, w') ← Read net (s_ctx s) (s_offset s) (len p) w;
  match err with
  | Some e => Ret (p, 0, Some e, s, w')
  | None =>
      let n := len data in
      let s' := {| s_offset := add64 (s_offset s) (int64 n); s_ctx := s_ctx s |} in
      Ret (copy p data, n, if n <? len p then Some EOF else None, s', w')
  end.

(** [pfStream.Close]: cancels the context. *)
Definition Stream_Close (s : pfStream) : pfStream :=
  {| s_offset := s_offset s; s_ctx := {| ctx_done := true; ctx_first := ctx_first (s_ctx s) |} |}.

(** ** The interleaving semantics *)

(** The atomic steps of the program around one handle: the first critical
    section of a [Read] that passed the end-of-content test, the end of a
    fetch goroutine (with the network as it is at that moment), and another
    [NewHandle] on the same fetcher, which may add peers to the registry. *)
Inductive step : world → world → Prop :=
| step_Read offset sz w w' blocks unfetched :
    MinInt64 ≤ offset ≤ MaxInt64 →
    MinInt64 ≤ sz ≤ MaxInt64 →
    offset < size w →
    Read_locked offset sz w = Ret (w', blocks, unfetched) →
    step w w'
| step_fetch_done net i w w' :
    (i < length (w_running w))%nat →
    run_goroutine net i w = Ret w' →
    step w w'
| step_NewHandle net hash sz peers w f' out :
    NewHandle net (w_fetcher w) hash sz peers = Ret (f', out) →
    step w (set_fetcher f' w).

(** The states a handle made by [NewHandle] can be in. *)
Inductive reachable : world → Prop :=
| reachable_new net f hash sz peers f' h k p :
    0 ≤ p < 63 →
    f_blockSize f = GetFetcher_blockSize p →
    0 ≤ sz ≤ MaxInt64 →
    NewHandle net f hash sz peers = Ret (f', inl h) →
    reachable (new_world f' h k)
| reachable_step w w' :
    reachable w → step w w' → reachable w'.

(** Only goroutines end between [w] and [w'], each with a network that
    satisfies [N]. *)
Inductive fetches_end (N : Network → Prop) : world → world → Prop :=
| fetches_end_refl w : fetches_end N w w
| fetches_end_step net i w w1 w' :
    N net →
    (i < length (w_running w))%nat →
    run_goroutine net i w = Ret w1 →
    fetches_end N w1 w' →
    fetches_end N w w'.

(** No assumption on the network. *)
Definition any_network (net : Network) : Prop := True.

(** The slot of block [b] is empty and has no marker. *)
Definition slot_free (w : world) (b : Z) : Prop :=
  0 ≤ b ∧ cache w !! Z.to_nat b = Some None ∧ active w !! Z.to_nat b = Some None.

(** Block [b] is cached. *)
Definition cached (w : world) (b : Z) : bool :=
  match index (cache w) b with
  | Ret (Some _) => true
  | _ => false
  end.

(** Block [b] has a marker, open or closed. *)
Definition marked (w : world) (b : Z) : bool :=
  match index (active w) b with
  | Ret (Some _) => true
  | _ => false
  end.

(** The goroutines of [gs] that fetch block [b]. *)
Definition for_block (b : Z) (gs : list goroutine) : list goroutine :=
  filter (λ g, g_block g = b) gs.

(** The goroutines in flight for block [b]. *)
Definition in_flight (w : world) (b : Z) : list goroutine :=
  for_block b (w_running w).

(** The number of fetches launched so far: each one made a channel. *)
Definition fetch_count (w : world) : nat := length (w_chans w).

(** The state after [fetch] has made the marker of [g] and spawned it. *)
Definition launch (g : goroutine) (w : world) : world :=
  set_running (w_running w ++ [g])
    (set_chans (w_chans w ++ [false])
      (set_handle
        (set_active (<[Z.to_nat (g_block g) := Some (length (w_chans w))]> (active w))
           (w_handle w)) w)).

(** [gs] are launched one after the other from [w], each for a block whose
    slot is free when its turn comes, and lead to [w']. *)
Inductive launches : world → list goroutine → world → Prop :=
| launches_nil w : launches w [] w
| launches_cons w g gs w' :
    slot_free w (g_block g) →
    g_offset g = g_block g * blockSize w →
    launches (launch g w) gs w' →
    launches w (g :: gs) w'.

(** The markers [ms] of the blocks [bl], all present in [w]. *)
Definition markers_of (w : world) (bl : list Z) (ms : list (option chan)) : Prop :=
  Forall2 (λ b m, ∃ c : chan, m = Some c ∧ active w !! Z.to_nat b = Some (Some c)) bl ms.

(** The slot of block [b] exists and is empty. *)
Definition uncached (w : world) (b : Z) : bool :=
  match cache w !! Z.to_nat b with
  | Some None => true
  | _ => false
  end.

(** The state after the purge of block [b]. *)
Definition purge (b : nat) (w : world) : world :=
  set_handle
    (set_active (<[b := None]> (active w))
       (set_cache (<[b := None]> (cache w)) (w_handle w))) w.

(** The state after the bookkeeping of a goroutine for block [b] whose
    network read returned [r] and whose marker is [c]. *)
Definition finish (b : Z) (r : option bytes * option error) (c : chan) (w : world) : world :=
  set_chans (<[c := true]> (w_chans w))
    match r.2 with
    | Some e => set_handle (set_lastErr (Some e) (w_handle w)) w
    | None => set_handle (set_cache (<[Z.to_nat b := r.1]> (cache w)) (w_handle w)) w
    end.

(** The invariant of the handle and its goroutines. *)
Record handle_ok (w : world) : Prop := {
  ok_blockSize : 0 < blockSize w ≤ MaxInt64;
  ok_size : 0 ≤ size w ≤ MaxInt64;
  ok_cache : len (cache w) = size w / blockSize w + 1;
  ok_active : len (active w) = size w / blockSize w + 1;
  ok_alloc : ∀ b c, active w !! b = Some (Some c) → (c < length (w_chans w))%nat;
  ok_inj : ∀ b1 b2 c,
    active w !! b1 = Some (Some c) → active w !! b2 = Some (Some c) → b1 = b2;
  ok_running : ∀ g, g ∈ w_running w →
    0 ≤ g_block g ∧ g_offset g = g_block g * blockSize w ∧
    cache w !! Z.to_nat (g_block g) = Some None ∧
    ∃ c, active w !! Z.to_nat (g_block g) = Some (Some c) ∧ w_chans w !! c = Some false;
  ok_nodup : NoDup (g_block <$> w_running w);
  ok_open : ∀ b c,
    active w !! b = Some (Some c) → w_chans w !! c = Some false →
    ∃ g, g ∈ w_running w ∧ g_block g = Z.of_nat b;
  ok_slots : size w / blockSize w < MaxInt64;
}.

(** ** Fetchable content *)

(** What a fetch depends on besides the offset: the registry, the hash,
    the candidate peers and the content size. *)
Definition config (w : world) : Fetcher * string * list string * Z :=
  (w_fetcher w, h_hash (w_handle w), h_peers (w_handle w), size w).

(** The peers serve the content: the fetch of every block that starts
    inside the content returns the bytes of that block, a full block or
    what is left of the content. *)
Definition serves (net : Network) (w : world) : Prop :=
  ∀ b, 0 ≤ b → b * blockSize w < size w →
    ∃ buf, realFetch net w (b * blockSize w) = (Some buf, None) ∧
           len buf = Z.min (blockSize w) (size w - b * blockSize w).

(** The cached blocks of the content have the length of their block. *)
Definition cache_ok (w : world) : Prop :=
  ∀ b buf, Z.of_nat b * blockSize w < size w → cache w !! b = Some (Some buf) →
    len buf = Z.min (blockSize w) (size w - Z.of_nat b * blockSize w).

(** No block of the content is left empty behind a closed marker. *)
Definition none_failed (w : world) : Prop :=
  ∀ b c, Z.of_nat b * blockSize w < size w → cache w !! b = Some None →
    active w !! b = Some (Some c) → w_chans w !! c = Some false.

(** ** What the specification says, as definitions *)

(** [ceil(a/b)] for positive [b]. *)
Definition ceil_div (a b : Z) : Z := (a + b - 1) / b.

(** [n] rounded up to the next multiple of [b]. *)
Definition round_up (n b : Z) : Z := ceil_div n b * b.

(** The connection [NewPeer] opens for [addr], before any probe. *)
Definition fresh_client (addr : string) : RUFSClient :=
  {| c_addr := addr; c_pings := 0 |}.
Definition fresh_peer (id addr : string) : pfPeer :=
  {| ident := id; client := fresh_client addr; latency := None |}.

(** One of the two probes of [MeasureLatency] on a fresh connection fails:
    the first, or the second after a good first one. *)
Definition probe_fails (net : Network) (addr : string) : Prop :=
  is_Some (Ping net (fresh_client addr)) ∨
  is_Some (Ping net {| c_addr := addr; c_pings := 1 |}).

(** The claim of the specification on peer creation: a failed probe is
    reported to the caller of [NewPeer]. *)
Definition NewPeer_reports_probe_failure (net : Network) (id addr : string) : Prop :=
  probe_fails net addr → ∃ r e, NewPeer net id = Ret (r, Some e).

(** The claim of the specification on the arrays of a new handle:
    [ceil(size/blockSize)+1] slots each. *)
Definition NewHandle_ceil_slots (net : Network) (f : Fetcher) (hash : string)
    (sz : Z) (peers : list string) : Prop :=
  ∀ f' h, NewHandle net f hash sz peers = Ret (f', inl h) →
    len (h_cache h) = ceil_div sz (f_blockSize f) + 1 ∧
    len (h_active h) = ceil_div sz (f_blockSize f) + 1.

(** The claim of the specification on failed fetches: when the goroutine
    [i] ends with an error, the error is recorded, the slot of its block is
    free again, and the next [Read] that needs the block launches a fetch
    for it. *)
Definition failed_fetch_is_retried (net : Network) (w : world) (i : nat) : Prop :=
  ∀ g e w1,
    w_running w !! i = Some g →
    (realFetch net w (g_offset g)).2 = Some e →
    run_goroutine net i w = Ret w1 →
    lastErr w1 = Some e ∧ slot_free w1 (g_block g) ∧
    ∀ offset sz w2 blocks unfetched,
      Read_locked offset sz w1 = Ret (w2, blocks, unfetched) →
      g_offset g ∈ blocks →
      in_flight w2 (g_block g) ≠ [].

(** ** Notions used by the further properties *)

(** The character [c] occurs in [s]. *)
Fixpoint occurs (c : ascii) (s : string) : bool :=
  match s with
  | EmptyString => false
  | String c' s' => Ascii.eqb c' c || occurs c s'
  end.

(** The peer [p] is in the registry and answers the read of the block at
    [offset] with [data]. *)
Definition answers (net : Network) (w : world) (offset : Z) (p : string)
    (data : option bytes) : Prop :=
  ∃ r, f_peers (w_fetcher w) !! p = Some r ∧
       RemoteRead net (client r) (h_hash (w_handle w)) offset (blockSize w) = inl data.

(** The error with which the peer [p] refuses that read, if it is in the
    registry and refuses. *)
Definition refusal (net : Network) (w : world) (offset : Z) (p : string) : option error :=
  r ← f_peers (w_fetcher w) !! p;
  match RemoteRead net (client r) (h_hash (w_handle w)) offset (blockSize w) with
  | inr e => Some e
  | inl _ => None
  end.

(** The bytes of block [b] of a file [content] cut in blocks of [bs]
    bytes: a full block, or what is left of the file. *)
Definition block_of (content : bytes) (bs b : Z) : bytes :=
  take (Z.to_nat bs) (drop (Z.to_nat (b * bs)) content).

(** The bytes [[offset, offset+n)] of [content], as far as it goes. *)
Definition range_of (content : bytes) (offset n : Z) : bytes :=
  take (Z.to_nat n) (drop (Z.to_nat offset) content).

(** The peers serve the file [content]: the fetch of every block that
    starts inside the content returns the bytes of that block. *)
Definition serves_content (net : Network) (w : world) (content : bytes) : Prop :=
  len content = size w ∧
  ∀ b, 0 ≤ b → b * blockSize w < size w →
    realFetch net w (b * blockSize w) = (Some (block_of content (blockSize w) b), None).

(** The cached blocks of the content hold its bytes. *)
Definition cache_holds (w : world) (content : bytes) : Prop :=
  ∀ b buf, Z.of_nat b * blockSize w < size w → cache w !! b = Some (Some buf) →
    buf = block_of content (blockSize w) (Z.of_nat b).

(** ** Concrete networks and handles *)

Module Examples.

(** A peer that accepts connections but answers nothing. *)
Definition net_deaf : Network :=
  {| NewRUFSClient := λ _ _, None;
     Ping := λ _, Some "unreachable"%string;
     Elapsed := λ _, 0;
     RemoteRead := λ _ _ _ _, inr "unreachable"%string |}.

(** A peer that serves a file of [sz] bytes the way [RUFSService.Read]
    does: the bytes from [offset] on, at most [n] of them. *)
Definition net_serving (sz : Z) : Network :=
  {| NewRUFSClient := λ _ _, None;
     Ping := λ _, None;
     Elapsed := λ _, 42;
     RemoteRead := λ _ _ offset n,
       inl (Some (replicate (Z.to_nat (Z.min n (sz - offset))) x2a)) |}.

Definition quis : string := "quis@host:1667".

(** A fetcher with no peer yet and blocks of 4096 bytes. *)
Definition fetcher0 : Fetcher := {| f_peers := ∅; f_blockSize := 4096 |}.

(** The state after [NewHandle] for a file of [sz] bytes held by [quis],
    with [k] blocks of prefetch. *)
Definition open (net : Network) (sz k : Z) : res world :=
  '(f, r) ← NewHandle net fetcher0 "cafe" sz [quis];
  match r with
  | inl h => Ret (new_world f h k)
  | inr _ => Panic BlockedForever
  end.

Definition sequential : schedule := {| ctx_done := false; ctx_first := false |}.

(** The same state as a value (a handle without slots if [NewHandle]
    fails). *)
Definition opened (net : Network) (sz k : Z) : world :=
  match open net sz k with
  | Ret w => w
  | Panic _ =>
      new_world fetcher0
        {| h_hash := "cafe"; h_size := sz; h_peers := [quis];
           h_cache := []; h_active := []; h_lastErr := None |} k
  end.

(** The state in the middle of [Read(0, 10)] on a file of 20000 bytes with
    two blocks of prefetch: three fetches are in flight. *)
Definition reading : world :=
  match Read_locked 0 10 (opened (net_serving 20000) 20000 2) with
  | Ret (w, _, _) => w
  | Panic _ => opened (net_serving 20000) 20000 2
  end.

(** The state in the middle of [Read(0, 10)] on a file of 5000 bytes whose
    only peer answers nothing: the fetch of block 0 is in flight. *)
Definition failing : world :=
  match Read_locked 0 10 (opened net_deaf 5000 0) with
  | Ret (w, _, _) => w
  | Panic _ => opened net_deaf 5000 0
  end.

(** The state after [Read(0, 4096)] on a file of 20000 bytes, without
    prefetch: block 0 is cached. *)
Definition after_block_0 : world :=
  match Read (net_serving 20000) sequential 0 4096 (opened (net_serving 20000) 20000 0) with
  | Ret (_, _, w) => w
  | Panic _ => opened (net_serving 20000) 20000 0
  end.

(** A caller's buffer of [n] bytes. *)
Definition buffer (n : nat) : bytes := replicate n x00.

(** A network on which only host:1667 can be dialed; the peer there
    serves a file of [sz] bytes. *)
Definition net_partial (sz : Z) : Network :=
  {| NewRUFSClient := λ addr _,
       if String.eqb addr "host:1667" then None else Some "connection refused"%string;
     Ping := λ _, None;
     Elapsed := λ _, 42;
     RemoteRead := λ _ _ offset n,
       inl (Some (replicate (Z.to_nat (Z.min n (sz - offset))) x2a)) |}.

Definition gone : string := "gone@nowhere:1".

(** The state after [NewHandle] for a file of [sz] bytes said to be held
    by [gone] and by [quis] (a handle without slots if [NewHandle]
    fails). *)
Definition opened2 (net : Network) (sz k : Z) : world :=
  match NewHandle net fetcher0 "cafe" sz [gone; quis] with
  | Ret (f, inl h) => new_world f h k
  | _ =>
      new_world fetcher0
        {| h_hash := "cafe"; h_size := sz; h_peers := [gone; quis];
           h_cache := []; h_active := []; h_lastErr := None |} k
  end.

(** The state after [Read(4096, 4096)] on a file of 20000 bytes, without
    prefetch: block 1 is cached. *)
Definition after_block_1 : world :=
  match Read (net_serving 20000) sequential 4096 4096
          (opened (net_serving 20000) 20000 0) with
  | Ret (_, _, w) => w
  | Panic _ => opened (net_serving 20000) 20000 0
  end.

(** A peer that answers every block read with no data and no error. *)
Definition net_empty : Network :=
  {| NewRUFSClient := λ _ _, None;
     Ping := λ _, None;
     Elapsed := λ _, 42;
     RemoteRead := λ _ _ _ _, inl None |}.

(** The state in the middle of [Read(0, 10)] on a file of 5000 bytes whose
    only peer answers with no data: the fetch of block 0 is in flight. *)
Definition starving : world :=
  match Read_locked 0 10 (opened net_empty 5000 0) with
  | Ret (w, _, _) => w
  | Panic _ => opened net_empty 5000 0
  end.

(** The state after [Read(0, 10)] on a handle for 5000 bytes whose peer
    holds only 100 bytes of the file: block 0 is cached with 100 bytes. *)
Definition truncated : world :=
  match Read (net_serving 100) sequential 0 10
          (opened (net_serving 100) 5000 0) with
  | Ret (_, _, w) => w
  | Panic _ => opened (net_serving 100) 5000 0
  end.

(** A peer that holds the file [content] and serves it the way
    [RUFSService.Read] reads a file: the bytes from [offset] on, at most
    [n] of them. *)
Definition net_file (content : bytes) : Network :=
  {| NewRUFSClient := λ _ _, None;
     Ping := λ _, None;
     Elapsed := λ _, 42;
     RemoteRead := λ _ _ offset n,
       inl (Some (take (Z.to_nat n) (drop (Z.to_nat offset) content))) |}.

(** A file of 5000 bytes whose byte [i] is [i mod 251]. *)
Definition sample : bytes :=
  (λ i, default x00 (Byte.of_nat (i mod 251))) <$> seq 0 5000.

(** The state after the failed fetch of [failing] has ended: the error is
    recorded. *)
Definition failed : world :=
  match run_goroutine net_deaf 0 failing with
  | Ret w => w
  | Panic _ => failing
  end.

(** The state after a [Read(4096, 10)] on [failed] whose fetch of block 1
    is served by a peer that answers. *)
Definition recovered : world :=
  match Read_locked 4096 10 failed with
  | Ret (w, _, _) =>
      match run_goroutine (net_serving 5000) 0 w with
      | Ret w' => w'
      | Panic _ => failed
      end
  | Panic _ => failed
  end.

End Examples.

(** ** Basic facts about the Go operations *)

Lemma int64_id z : MinInt64 ≤ z ≤ MaxInt64 → int64 z = z.
Proof.
  unfold int64, MinInt64, MaxInt64, two63, two64. intros Hz.
  rewrite Z.mod_small; lia.
Qed.

Lemma int64_range z : MinInt64 ≤ int64 z ≤ MaxInt64.
Proof.
  unfold int64, MinInt64, MaxInt64, two63, two64.
  pose proof (Z.mod_pos_bound (z + 9223372036854775808) 18446744073709551616).
  lia.
Qed.

Lemma bind_Ret_inv {A B} (m : res A) (f : A → res B) (y : B) :
  m ≫= f = Ret y → ∃ a, m = Ret a ∧ f a = Ret y.
Proof. destruct m as [a|p]; simpl; [eauto | discriminate]. Qed.

Lemma bind_Ret {A B} (m : res A) (f : A → res B) (a : A) :
  m = Ret a → m ≫= f = f a.
Proof. by intros ->. Qed.

Lemma bind_Panic {A B} (m : res A) (f : A → res B) (p : fault) :
  m = Panic p → m ≫= f = Panic p.
Proof. by intros ->. Qed.

Lemma div64_Ret a b : b ≠ 0 → div64 a b = Ret (int64 (a ÷ b)).
Proof. intros Hb. unfold div64. by destruct (Z.eqb_spec b 0). Qed.

Lemma div64_inv a b q : div64 a b = Ret q → b ≠ 0 ∧ q = int64 (a ÷ b).
Proof.
  unfold div64. destruct (Z.eqb_spec b 0); [discriminate|].
  intros [= <-]. done.
Qed.

Lemma index_Ret {A} (s : list A) i x :
  index s i = Ret x ↔ 0 ≤ i ∧ s !! Z.to_nat i = Some x.
Proof.
  unfold index. split.
  - destruct (Z.leb_spec 0 i); simpl; [|discriminate].
    destruct (i <? _); [|discriminate].
    destruct (s !! Z.to_nat i) eqn:E; [|discriminate]. intros [= ->]. done.
  - intros [Hi Hx]. pose proof (lookup_lt_Some _ _ _ Hx) as Hlt.
    destruct (Z.leb_spec 0 i); [|lia]. destruct (Z.ltb_spec i (Z.of_nat (length s))); [|lia].
    simpl. by rewrite Hx.
Qed.

Lemma index_Panic {A} (s : list A) i :
  (i < 0 ∨ len s ≤ i) → index s i = Panic IndexOutOfRange.
Proof.
  unfold index, len. intros Hi.
  destruct (Z.leb_spec 0 i), (Z.ltb_spec i (Z.of_nat (length s))); simpl; try done; lia.
Qed.

Lemma store_Ret {A} (s : list A) i x s' :
  store s i x = Ret s' ↔ (0 ≤ i < len s) ∧ s' = <[Z.to_nat i := x]> s.
Proof.
  unfold store, len. split.
  - destruct (Z.leb_spec 0 i), (Z.ltb_spec i (Z.of_nat (length s))); simpl;
      try discriminate. intros [= <-]. split; [lia | done].
  - intros [Hi ->].
    destruct (Z.leb_spec 0 i), (Z.ltb_spec i (Z.of_nat (length s))); simpl; try done; lia.
Qed.

Lemma make_Ret {A} (zero : A) n s :
  make zero n = Ret s → 0 ≤ n ∧ s = replicate (Z.to_nat n) zero.
Proof.
  unfold make. destruct (Z.ltb_spec n 0); [discriminate|]. intros [= <-]. done.
Qed.

(** Inversion of a successful run, one bind at a time. *)
Tactic Notation "inv_bind" hyp(H) "as" simple_intropattern(a) ident(E) :=
  apply bind_Ret_inv in H as (a & E & H).

(** ** Peer creation *)

Lemma MeasureLatency_probe_fails net id addr :
  probe_fails net addr →
  latency (fst (MeasureLatency net (fresh_peer id addr))) = None ∧
  is_Some (snd (MeasureLatency net (fresh_peer id addr))).
Proof.
  unfold probe_fails, MeasureLatency, fresh_peer, fresh_client. simpl.
  intros [[e He] | [e He]].
  - rewrite He. simpl. eauto.
  - destruct (Ping net {| c_addr := addr; c_pings := 0 |}) as [e0|]; simpl; [eauto|].
    rewrite He. simpl. eauto.
Qed.

Lemma NewPeer_connected net id name addr rest :
  Split id "@"%char = name :: addr :: rest →
  NewRUFSClient net addr name = None →
  NewPeer net id = Ret (Some (fst (MeasureLatency net (fresh_peer id addr))), None).
Proof.
  intros Hs Hc. unfold NewPeer. rewrite Hs.
  rewrite (bind_Ret _ _ name); [|by apply index_Ret].
  rewrite (bind_Ret _ _ addr); [|by apply index_Ret].
  by rewrite Hc.
Qed.

(** The registry only grows in the peer loop of [NewHandle]. *)
Lemma NewHandle_peers_mono net ps : ∀ reg found reg' found' p v,
  NewHandle_peers net ps reg found = Ret (reg', found') →
  reg !! p = Some v → reg' !! p = Some v.
Proof.
  induction ps as [|q ps IH]; simpl; intros reg found reg' found' p v H Hp.
  - by injection H as <- <-.
  - destruct (reg !! q) eqn:Eq; [by eapply IH|].
    inv_bind H as [r err] E.
    destruct err as [e|]; [by eapply IH|].
    destruct r as [r|]; [|by eapply IH].
    eapply IH; [done|]. rewrite lookup_insert_ne; [done|]. intros ->. congruence.
Qed.

Lemma NewHandle_peers_registers net ps : ∀ reg found reg' found' p r,
  NewHandle_peers net ps reg found = Ret (reg', found') →
  p ∈ ps → reg !! p = None →
  NewPeer net p = Ret (Some r, None) →
  reg' !! p = Some r.
Proof.
  induction ps as [|q ps IH]; simpl; intros reg found reg' found' p r H Hin Hp Hnew.
  - by apply elem_of_nil in Hin.
  - destruct (decide (p = q)) as [<-|Hne].
    + rewrite Hp, Hnew in H. simpl in H.
      eapply NewHandle_peers_mono; [done|]. by rewrite lookup_insert_eq.
    + apply elem_of_cons in Hin as [?|Hin]; [done|].
      destruct (reg !! q) eqn:Eq; [by eapply IH|].
      inv_bind H as [r' err] E.
      destruct err as [e|]; [by eapply IH|].
      destruct r' as [r'|]; [|by eapply IH].
      eapply IH; [done..| |done]. by rewrite lookup_insert_ne.
Qed.

Lemma NewHandle_peers_true net ps : ∀ reg reg' found',
  NewHandle_peers net ps reg true = Ret (reg', found') → found' = true.
Proof.
  induction ps as [|q ps IH]; simpl; intros reg reg' found' H.
  - by injection H as <- <-.
  - destruct (reg !! q) eqn:Eq; [by eapply IH|].
    inv_bind H as [r err] E.
    destruct err as [e|]; [by eapply IH|].
    destruct r as [r|]; by eapply IH.
Qed.

Lemma NewHandle_peers_found net ps : ∀ reg found reg' found' p r,
  NewHandle_peers net ps reg found = Ret (reg', found') →
  p ∈ ps → NewPeer net p = Ret (Some r, None) → found' = true.
Proof.
  induction ps as [|q ps IH]; simpl; intros reg found reg' found' p r H Hin Hnew.
  - by apply elem_of_nil in Hin.
  - destruct (reg !! q) eqn:Eq; [by eapply NewHandle_peers_true|].
    destruct (decide (p = q)) as [<-|Hne].
    + rewrite Hnew in H. simpl in H. by eapply NewHandle_peers_true.
    + apply elem_of_cons in Hin as [?|Hin]; [done|].
      inv_bind H as [r' err] E.
      destruct err as [e|]; [by eapply IH|].
      destruct r' as [r'|]; [by eapply NewHandle_peers_true | by eapply IH].
Qed.

(** With the peer of [Examples.net_deaf] both probes fail, and [NewPeer]
    still returns the link and no error. *)
Lemma NewPeer_reports_probe_failure_refuted :
  ¬ NewPeer_reports_probe_failure Examples.net_deaf Examples.quis "host:1667".
Proof.
  intros H. destruct H as (r & e & H).
  - left. by eexists.
  - vm_compute in H. discriminate.
Qed.

(** C7, as the code has it: when one of the two probes fails,
    [MeasureLatency] leaves the latency unset and returns the error, but
    [NewPeer] drops that error: it returns the link with a nil error, and
    [NewHandle] therefore stores the link in the registry (and counts the
    peer as found). *)
Theorem NewPeer_drops_probe_failure net id name addr rest :
  Split id "@"%char = name :: addr :: rest →
  NewRUFSClient net addr name = None →
  probe_fails net addr →
  ∃ r, is_Some (snd (MeasureLatency net (fresh_peer id addr))) ∧
       NewPeer net id = Ret (Some r, None) ∧ latency r = None ∧
       ∀ f hash sz peers f' out,
         id ∈ peers → f_peers f !! id = None →
         NewHandle net f hash sz peers = Ret (f', out) →
         f_peers f' !! id = Some r ∧ ∃ h, out = inl h.
Proof.
  intros Hs Hc Hp.
  destruct (MeasureLatency_probe_fails net id addr Hp) as [Hl He].
  exists (fst (MeasureLatency net (fresh_peer id addr))).
  pose proof (NewPeer_connected net id name addr rest Hs Hc) as Hnew.
  split_and!; try done.
  intros f hash sz peers f' out Hin Hreg H. unfold NewHandle in H.
  inv_bind H as q Eq. inv_bind H as c Ec. inv_bind H as a Ea.
  inv_bind H as [reg found] Ep.
  assert (found = true) as -> by (by eapply NewHandle_peers_found).
  injection H as <- <-. simpl. split; [|by eexists].
  by eapply NewHandle_peers_registers.
Qed.

Lemma NewPeer_drops_probe_failure_witness :
  ∃ r, is_Some (snd (MeasureLatency Examples.net_deaf
                       (fresh_peer Examples.quis "host:1667"))) ∧
       NewPeer Examples.net_deaf Examples.quis = Ret (Some r, None) ∧
       latency r = None ∧
       ∀ f hash sz peers f' out,
         Examples.quis ∈ peers → f_peers f !! Examples.quis = None →
         NewHandle Examples.net_deaf f hash sz peers = Ret (f', out) →
         f_peers f' !! Examples.quis = Some r ∧ ∃ h, out = inl h.
Proof.
  apply (NewPeer_drops_probe_failure Examples.net_deaf Examples.quis
           "quis" "host:1667" []).
  - reflexivity.
  - reflexivity.
  - left. by eexists.
Defined.

(** ** Handle creation *)

Lemma ceil_div_exact a b : 0 < b → a mod b = 0 → ceil_div a b = a / b.
Proof.
  intros Hb Hm. unfold ceil_div. symmetry.
  apply Z.div_unique with (r := b - 1); [lia|].
  pose proof (Z.div_mod a b). lia.
Qed.

Lemma ceil_div_inexact a b : 0 < b → a mod b ≠ 0 → ceil_div a b = a / b + 1.
Proof.
  intros Hb Hm. unfold ceil_div. symmetry.
  pose proof (Z.mod_pos_bound a b Hb).
  apply Z.div_unique with (r := a mod b - 1); [lia|].
  pose proof (Z.div_mod a b). lia.
Qed.

Lemma quot_nonneg a b : 0 ≤ a → 0 < b → a ÷ b = a / b.
Proof. intros. apply Z.quot_div_nonneg; lia. Qed.

Lemma div_le_self a b : 0 ≤ a → 0 < b → 0 ≤ a / b ≤ a.
Proof.
  intros Ha Hb. split; [apply Z.div_pos; lia|].
  apply Z.div_le_upper_bound; nia.
Qed.

(** A file of 5000 bytes in blocks of 4096 gets 2 slots, not
    [ceil(5000/4096)+1 = 3]. *)
Lemma NewHandle_ceil_slots_refuted :
  ¬ NewHandle_ceil_slots (Examples.net_serving 5000) Examples.fetcher0 "cafe" 5000
      [Examples.quis].
Proof.
  intros H.
  destruct (NewHandle (Examples.net_serving 5000) Examples.fetcher0 "cafe" 5000
              [Examples.quis]) as [[f' [h|e]]|p] eqn:E; try (vm_compute in E; discriminate).
  destruct (H f' h E) as [Hc _].
  vm_compute in E. injection E as <- <-. vm_compute in Hc. discriminate.
Qed.

(** C6, as the code has it: for a content size [0 <= size] and a positive
    block size, [NewHandle] gives the cache array and the in-flight array
    [floor(size/blockSize)+1] slots each.  That is [ceil(size/blockSize)+1],
    one slot more than the content needs, exactly when [size] is a
    multiple of the block size; otherwise it is [ceil(size/blockSize)],
    with no spare slot. *)
Theorem NewHandle_floor_slots net f hash sz peers f' h :
  0 < f_blockSize f ≤ MaxInt64 → 0 ≤ sz < MaxInt64 →
  NewHandle net f hash sz peers = Ret (f', inl h) →
  len (h_cache h) = sz / f_blockSize f + 1 ∧
  len (h_active h) = sz / f_blockSize f + 1 ∧
  (sz mod f_blockSize f = 0 → sz / f_blockSize f + 1 = ceil_div sz (f_blockSize f) + 1) ∧
  (sz mod f_blockSize f ≠ 0 → sz / f_blockSize f + 1 = ceil_div sz (f_blockSize f)).
Proof.
  intros Hbs Hsz H. unfold NewHandle in H.
  rewrite (int64_id (f_blockSize f)) in H by (unfold MinInt64; lia).
  inv_bind H as q E. apply div64_inv in E as [_ ->].
  rewrite quot_nonneg in H by lia.
  pose proof (div_le_self sz (f_blockSize f)) as Hq.
  rewrite (int64_id (sz / _)) in H by (unfold MinInt64, MaxInt64 in *; lia).
  unfold add64 in H. rewrite int64_id in H by (unfold MinInt64, MaxInt64 in *; lia).
  inv_bind H as c Ec. inv_bind H as a Ea. inv_bind H as [reg found] Ep.
  apply make_Ret in Ec as [? ->]. apply make_Ret in Ea as [? ->].
  destruct found; [|discriminate]. injection H as <- <-. simpl.
  unfold len. rewrite !length_replicate, Z2Nat.id by lia.
  split_and!; try done.
  - intros Hm. by rewrite ceil_div_exact by lia.
  - intros Hm. by rewrite ceil_div_inexact by lia.
Qed.

Lemma NewHandle_floor_slots_witness :
  ∃ f' h, NewHandle (Examples.net_serving 8192) Examples.fetcher0 "cafe" 8192 [Examples.quis]
          = Ret (f', inl h) ∧ len (h_cache h) = 3 ∧ len (h_active h) = 3.
Proof.
  destruct (NewHandle (Examples.net_serving 8192) Examples.fetcher0 "cafe" 8192
              [Examples.quis]) as [[f' [h|e]]|p] eqn:E; try (vm_compute in E; discriminate).
  exists f', h. split; [done|].
  assert (0 < f_blockSize Examples.fetcher0 ≤ MaxInt64) as Hbs
    by (unfold MaxInt64; simpl; lia).
  assert (0 ≤ 8192 < MaxInt64) as Hsz by (unfold MaxInt64; lia).
  destruct (NewHandle_floor_slots (Examples.net_serving 8192) Examples.fetcher0
              "cafe" 8192 [Examples.quis] f' h Hbs Hsz E) as (Hc & Ha & _).
  split; [exact Hc | exact Ha].
Defined.

(** ** Streams *)

(** C10: when the handle's [Read] returns an error, the stream's [Read]
    returns 0 bytes and that error, and leaves the caller's buffer and the
    stream, cursor included, as they were: the next read of the stream asks
    for the same range. *)
Theorem Stream_Read_error net s p w data e w' :
  Read net (s_ctx s) (s_offset s) (len p) w = Ret (data, Some e, w') →
  Stream_Read net s p w = Ret (p, 0, Some e, s, w').
Proof. intros H. unfold Stream_Read. by rewrite H. Qed.

Lemma Stream_Read_error_witness :
  ∃ w',
    Read Examples.net_deaf Examples.sequential 0 10 (Examples.opened Examples.net_deaf 5000 0)
      = Ret ([], Some "unreachable"%string, w') ∧
    Stream_Read Examples.net_deaf (Stream 0) (Examples.buffer 10)
      (Examples.opened Examples.net_deaf 5000 0)
      = Ret (Examples.buffer 10, 0, Some "unreachable"%string, Stream 0, w').
Proof.
  destruct (Read Examples.net_deaf Examples.sequential 0 10
              (Examples.opened Examples.net_deaf 5000 0)) as [[[d [e|]] w']|] eqn:E;
    try (vm_compute in E; discriminate).
  exists w'.
  assert (d = [] ∧ e = "unreachable"%string) as [-> ->].
  { vm_compute in E. by injection E as <- <- _. }
  split; [done|].
  by apply (Stream_Read_error Examples.net_deaf (Stream 0) (Examples.buffer 10)
              (Examples.opened Examples.net_deaf 5000 0) [] "unreachable"%string w').
Defined.

(** ** Trimming *)

Lemma Read_blocks_head offset sz bs blocks o0 :
  Read_blocks offset sz bs = Ret blocks → index blocks 0 = Ret o0 →
  int64 bs ≠ 0 ∧ o0 = mul64 (int64 (offset ÷ int64 bs)) (int64 bs).
Proof.
  unfold Read_blocks. intros H Hi.
  inv_bind H as lo Elo. inv_bind H as hi Ehi. injection H as <-.
  apply div64_inv in Elo as [Hbs ->]. split; [done|].
  apply index_Ret in Hi as [_ Hi]. change (Z.to_nat 0) with 0%nat in Hi.
  destruct (Z.to_nat (hi - _)) as [|fuel]; simpl in Hi; [done|].
  destruct (hi >? _); simpl in Hi; [|done]. by injection Hi as <-.
Qed.

Lemma first_block_bounds offset bs :
  0 < bs ≤ MaxInt64 → 0 ≤ offset ≤ MaxInt64 →
  mul64 (int64 (offset ÷ int64 bs)) (int64 bs) = offset / bs * bs ∧
  0 ≤ offset / bs * bs ∧
  0 ≤ offset - offset / bs * bs < bs.
Proof.
  intros Hbs Ho.
  rewrite (int64_id bs) by (unfold MinInt64; lia).
  rewrite quot_nonneg by lia.
  pose proof (div_le_self offset bs) as Hq.
  pose proof (Z.div_mod offset bs) as Hdm. pose proof (Z.mod_pos_bound offset bs) as Hm.
  rewrite (int64_id (offset / bs)) by (unfold MinInt64, MaxInt64 in *; lia).
  unfold mul64. rewrite int64_id by (unfold MinInt64, MaxInt64 in *; nia).
  split_and!; [done | nia | nia | nia].
Qed.

(** C9: for a read whose end [offset + size] is a multiple of the block
    size, the cut point is 0, the tail is left as it is and only the head
    is trimmed; and whenever the tail trimming changes the buffers, the cut
    point is strictly positive and strictly below the length of the last
    buffer, which is cut to that length. *)
Theorem Read_boundary_untrimmed offset sz bs blocks o0 bufs :
  0 < bs ≤ MaxInt64 → 0 ≤ offset → 0 ≤ sz → offset + sz ≤ MaxInt64 →
  (offset + sz) mod bs = 0 →
  Read_blocks offset sz bs = Ret blocks → index blocks 0 = Ret o0 →
  Read_cut offset sz (int64 bs) o0 = Ret 0 ∧
  Read_trim_tail 0 bufs = Ret bufs ∧
  Read_assemble offset sz (int64 bs) blocks bufs
    = Read_trim_head (sub64 offset o0) bufs ≫= Read_join sz ∧
  ∀ cut bufs', Read_trim_tail cut bufs = Ret bufs' → bufs' ≠ bufs →
    0 < cut ∧ ∃ last, index bufs (sub64 (len bufs) 1) = Ret last ∧
                      cut < len last ∧
                      store bufs (sub64 (len bufs) 1) (take (Z.to_nat cut) last) = Ret bufs'.
Proof.
  intros Hbs Ho Hsz Hend Hmod Hb Hi.
  destruct (Read_blocks_head _ _ _ _ _ Hb Hi) as [Hbs0 ->].
  destruct (first_block_bounds offset bs) as (Hmul & Hq & Hbo); [lia..|].
  assert (Read_cut offset sz (int64 bs) (mul64 (int64 (offset ÷ int64 bs)) (int64 bs)) = Ret 0)
    as Hcut.
  { unfold Read_cut, rem64. rewrite Hmul.
    rewrite (int64_id bs) in * by (unfold MinInt64; lia).
    destruct (Z.eqb_spec bs 0); [lia|]. simpl.
    unfold sub64, add64.
    rewrite (int64_id (offset - _)) by (unfold MinInt64, MaxInt64 in *; lia).
    rewrite (int64_id sz) by (unfold MinInt64, MaxInt64 in *; lia).
    rewrite (int64_id (_ + _)) by (unfold MinInt64, MaxInt64 in *; lia).
    rewrite Z.rem_mod_nonneg by lia.
    replace (offset - offset / bs * bs + sz) with (offset + sz + (- (offset / bs)) * bs) by lia.
    rewrite Z.mod_add by lia. rewrite Hmod. done. }
  split_and!; [done|done| |].
  - unfold Read_assemble. rewrite Hi. simpl. rewrite Hcut. simpl. done.
  - intros cut bufs' Ht Hne. unfold Read_trim_tail in Ht.
    destruct (Z.gtb_spec cut 0); [|by injection Ht as <-].
    split; [lia|].
    inv_bind Ht as last El. exists last. split; [done|].
    destruct (Z.gtb_spec (len last) cut); [|by injection Ht as <-].
    split; [lia|].
    inv_bind Ht as t Et. unfold slice_to in Et.
    destruct (_ && _); [|done]. by injection Et as <-.
Qed.

Lemma Read_boundary_untrimmed_witness :
  Read_cut 0 4096 (int64 4096) 0 = Ret 0 ∧
  Read_trim_tail 0 [Examples.buffer 4096] = Ret [Examples.buffer 4096] ∧
  Read_assemble 0 4096 (int64 4096) [0] [Examples.buffer 4096]
    = Read_trim_head (sub64 0 0) [Examples.buffer 4096] ≫= Read_join 4096 ∧
  ∀ cut bufs', Read_trim_tail cut [Examples.buffer 4096] = Ret bufs' →
    bufs' ≠ [Examples.buffer 4096] →
    0 < cut ∧ ∃ last, index [Examples.buffer 4096] (sub64 (len [Examples.buffer 4096]) 1)
                        = Ret last ∧
                      cut < len last ∧
                      store [Examples.buffer 4096] (sub64 (len [Examples.buffer 4096]) 1)
                        (take (Z.to_nat cut) last) = Ret bufs'.
Proof.
  apply (Read_boundary_untrimmed 0 4096 4096 [0] 0 [Examples.buffer 4096]).
  - unfold MaxInt64. lia.
  - lia.
  - lia.
  - unfold MaxInt64. lia.
  - reflexivity.
  - reflexivity.
  - reflexivity.
Defined.

(** ** Launching fetches *)

Ltac i64 := unfold MinInt64, MaxInt64 in *; lia.

Lemma index_lookup {A} (s : list A) (b : nat) x :
  s !! b = Some x → index s (Z.of_nat b) = Ret x.
Proof. intros H. apply index_Ret. rewrite Nat2Z.id. split; [lia | done]. Qed.

Lemma fetch_Ret o w w' :
  fetch o w = Ret w' →
  ∃ b, div64 o (int64 (blockSize w)) = Ret b ∧ 0 ≤ b < len (active w) ∧
       w' = launch {| g_offset := o; g_block := b |} w.
Proof.
  unfold fetch. intros H. inv_bind H as b Eb. inv_bind H as a Ea.
  apply store_Ret in Ea as [Hb ->]. injection H as <-. by exists b.
Qed.

Lemma fetch_free o w b :
  div64 o (int64 (blockSize w)) = Ret b → 0 ≤ b < len (active w) →
  fetch o w = Ret (launch {| g_offset := o; g_block := b |} w).
Proof.
  intros Hd Hb. unfold fetch. rewrite Hd. simpl.
  rewrite (bind_Ret _ _ (<[Z.to_nat b := Some (length (w_chans w))]> (active w))); [done|].
  by apply store_Ret.
Qed.


Lemma launches_frame w gs w' :
  launches w gs w' →
  w_fetcher w' = w_fetcher w ∧ cache w' = cache w ∧ lastErr w' = lastErr w ∧
  size w' = size w ∧ prefetchBlocks w' = prefetchBlocks w ∧
  h_hash (w_handle w') = h_hash (w_handle w) ∧
  h_peers (w_handle w') = h_peers (w_handle w) ∧
  w_running w' = w_running w ++ gs ∧
  w_chans w' = w_chans w ++ replicate (length gs) false ∧
  length (active w') = length (active w).
Proof.
  induction 1 as [w0 | w0 g gs0 w0' Hfree Hoff L0 IH]; simpl.
  - rewrite !app_nil_r. done.
  - destruct IH as (-> & -> & -> & -> & -> & -> & -> & -> & -> & ->).
    unfold launch; simpl. rewrite <- !app_assoc. simpl.
    unfold active; simpl. rewrite length_insert. done.
Qed.

Lemma launches_blockSize w gs w' : launches w gs w' → blockSize w' = blockSize w.
Proof. intros L. unfold blockSize. by destruct (launches_frame _ _ _ L) as (-> & _). Qed.

Lemma launches_app w gs1 w1 gs2 w2 :
  launches w gs1 w1 → launches w1 gs2 w2 → launches w (gs1 ++ gs2) w2.
Proof.
  induction 1 as [w0 | w0 g gs0 w0' Hfree Hoff L0 IH]; [done|].
  intros L2. simpl. constructor; auto.
Qed.

(** A marker, once there, stays. *)
Lemma launches_marker_stays w gs w' b c :
  launches w gs w' → active w !! b = Some (Some c) → active w' !! b = Some (Some c).
Proof.
  induction 1 as [w0 | w0 g gs0 w0' Hfree Hoff L0 IH]; [done|].
  intros Hb. apply IH. unfold launch, active; simpl.
  destruct Hfree as (_ & _ & Ha).
  rewrite list_lookup_insert_ne; [done|]. intros <-. unfold active in *. congruence.
Qed.

(** Slots of blocks that are not launched keep their marker. *)
Lemma launches_active_other w gs w' b :
  launches w gs w' →
  (∀ g, g ∈ gs → Z.to_nat (g_block g) ≠ b) → active w' !! b = active w !! b.
Proof.
  induction 1 as [w0 | w0 g gs0 w0' Hfree Hoff L0 IH]; [done|].
  intros Hb. rewrite IH.
  - unfold launch, active; simpl. rewrite list_lookup_insert_ne; [done|].
    apply Hb. by left.
  - intros g' Hg'. apply Hb. by right.
Qed.

(** Each launched block was free at the start. *)
Lemma launches_start_free w gs w' g :
  launches w gs w' → g ∈ gs → slot_free w (g_block g).
Proof.
  induction 1 as [w0 | w0 g0 gs0 w0' Hfree Hoff L0 IH]; intros Hg.
  - by apply elem_of_nil in Hg.
  - apply elem_of_cons in Hg as [-> | Hg]; [done|].
    destruct (IH Hg) as (H0 & Hc & Ha). split_and!; [done..|].
    unfold launch, active in Ha; simpl in Ha.
    destruct (decide (Z.to_nat (g_block g0) = Z.to_nat (g_block g))) as [E|E].
    + destruct Hfree as (_ & _ & Hf). unfold active in Hf. by rewrite <- E.
    + by rewrite list_lookup_insert_ne in Ha.
Qed.

Lemma launches_offset w gs w' g :
  launches w gs w' → g ∈ gs → g_offset g = g_block g * blockSize w.
Proof.
  induction 1 as [w0 | w0 g0 gs0 w0' Hfree Hoff L0 IH]; intros Hg.
  - by apply elem_of_nil in Hg.
  - apply elem_of_cons in Hg as [-> | Hg]; [done|]. by rewrite IH.
Qed.

(** Each launched block has a fresh, open marker at the end. *)
Lemma launches_marker w gs w' g :
  launches w gs w' → g ∈ gs →
  ∃ c : chan, active w' !! Z.to_nat (g_block g) = Some (Some c) ∧
              (length (w_chans w) ≤ c)%nat ∧ w_chans w' !! c = Some false.
Proof.
  induction 1 as [w0 | w0 g0 gs0 w0' Hfree Hoff L0 IH]; intros Hg.
  - by apply elem_of_nil in Hg.
  - apply elem_of_cons in Hg as [-> | Hg].
    + exists (length (w_chans w0)). split_and!; [|done|].
      * apply (launches_marker_stays _ _ _ _ _ L0).
        unfold launch, active; simpl. apply list_lookup_insert_eq.
        destruct Hfree as (_ & _ & Ha). by apply lookup_lt_Some in Ha.
      * destruct (launches_frame _ _ _ L0) as (_ & _ & _ & _ & _ & _ & _ & _ & -> & _).
        unfold launch; simpl. rewrite <- app_assoc. simpl.
        by rewrite lookup_app_r, Nat.sub_diag.
    + destruct (IH Hg) as (c & ? & Hc & ?). exists c. split_and!; [done| |done].
      unfold launch in Hc; simpl in Hc. rewrite length_app in Hc. simpl in Hc. lia.
Qed.

(** The blocks launched together are distinct. *)
Lemma launches_NoDup w gs w' :
  launches w gs w' → NoDup (Z.to_nat ∘ g_block <$> gs).
Proof.
  induction 1 as [w0 | w0 g0 gs0 w0' Hfree Hoff L0 IH]; simpl; constructor; [|done].
  intros Hin. apply list_elem_of_fmap in Hin as (g & Eg & Hg). simpl in Eg.
  destruct (launches_start_free _ _ _ _ L0 Hg) as (_ & _ & Ha).
  unfold launch, active in Ha; simpl in Ha. rewrite <- Eg in Ha.
  rewrite list_lookup_insert_eq in Ha; [done|].
  destruct Hfree as (_ & _ & Hf). by apply lookup_lt_Some in Hf.
Qed.

(** ** The invariant *)

Lemma launch_ok g w :
  handle_ok w → slot_free w (g_block g) → g_offset g = g_block g * blockSize w →
  handle_ok (launch g w).
Proof.
  intros [Hbs Hsz Hc Ha Halloc Hinj Hrun Hnd Hopen Hslots] (Hb0 & Hfc & Hfa) Hoff.
  pose proof (lookup_lt_Some _ _ _ Hfa) as Hlt.
  assert (∀ g', g' ∈ w_running w → g_block g' ≠ g_block g) as Hne.
  { intros g' Hg' E. destruct (Hrun g' Hg') as (_ & _ & _ & c & Hm & _).
    rewrite E in Hm. congruence. }
  split; try done.
  - unfold launch, active, len; simpl. rewrite length_insert. exact Ha.
  - intros b c. unfold launch, active; simpl. rewrite length_app; simpl.
    destruct (decide (Z.to_nat (g_block g) = b)) as [<-|E].
    + rewrite list_lookup_insert_eq by done. intros [= <-]. lia.
    + rewrite list_lookup_insert_ne by done. intros H. apply Halloc in H. lia.
  - intros b1 b2 c. unfold launch, active; simpl.
    destruct (decide (Z.to_nat (g_block g) = b1)) as [<-|E1],
             (decide (Z.to_nat (g_block g) = b2)) as [<-|E2]; try done.
    + rewrite list_lookup_insert_eq, list_lookup_insert_ne by done.
      intros [= <-] H. apply Halloc in H. lia.
    + rewrite list_lookup_insert_eq, list_lookup_insert_ne by done.
      intros H [= <-]. apply Halloc in H. lia.
    + rewrite !list_lookup_insert_ne by done. apply Hinj.
  - intros g'. unfold launch; simpl. intros Hg'.
    apply elem_of_app in Hg' as [Hg' | Hg'].
    + destruct (Hrun g' Hg') as (H0 & Ho & Hcg & c & Hm & Hch).
      split_and!; try done. exists c. unfold active; simpl. split.
      * rewrite list_lookup_insert_ne; [done|].
        intros E. apply (Hne g' Hg'). lia.
      * by apply lookup_app_l_Some.
    + apply list_elem_of_singleton in Hg' as ->. split_and!; try done.
      exists (length (w_chans w)). unfold active; simpl. split.
      * by apply list_lookup_insert_eq.
      * by rewrite lookup_app_r, Nat.sub_diag.
  - unfold launch; simpl. rewrite fmap_app. apply NoDup_app. split_and!; [done| |].
    + intros b Hb Hb'. apply list_elem_of_singleton in Hb' as ->.
      apply list_elem_of_fmap in Hb as (g' & E & Hg'). by apply (Hne g' Hg').
    + apply NoDup_singleton.
  - intros b c. unfold launch, active; simpl.
    destruct (decide (Z.to_nat (g_block g) = b)) as [<-|E].
    + intros _ _. exists g. split; [|lia]. apply elem_of_app. right. by left.
    + rewrite list_lookup_insert_ne by done. intros Hm Hch.
      pose proof (Halloc _ _ Hm). rewrite lookup_app_l in Hch by done.
      destruct (Hopen _ _ Hm Hch) as (g' & Hg' & Eg'). exists g'. split; [|done].
      apply elem_of_app. by left.
Qed.

Lemma launches_ok w gs w' : launches w gs w' → handle_ok w → handle_ok w'.
Proof.
  induction 1 as [w0 | w0 g gs0 w0' Hfree Hoff L0 IH]; [done|].
  intros Hok. apply IH. by apply launch_ok.
Qed.

(** ** The block list *)

Lemma quot_bounds a b :
  0 < b →
  (0 ≤ a → 0 ≤ a ÷ b ∧ a - b < a ÷ b * b ≤ a) ∧
  (a ≤ 0 → a ÷ b ≤ 0 ∧ a ≤ a ÷ b * b < a + b).
Proof.
  intros Hb. split; intros Ha.
  - rewrite Z.quot_div_nonneg by lia.
    pose proof (Z.div_mod a b). pose proof (Z.mod_pos_bound a b).
    pose proof (Z.div_pos a b). nia.
  - assert (a ÷ b = - (- a / b)) as ->.
    { rewrite <- Z.quot_div_nonneg by lia. rewrite Z.quot_opp_l by lia. lia. }
    pose proof (Z.div_mod (- a) b). pose proof (Z.mod_pos_bound (- a) b).
    pose proof (Z.div_pos (- a) b). nia.
Qed.

Lemma quot_int64 a b :
  0 < b → MinInt64 ≤ a ≤ MaxInt64 → int64 (a ÷ b) = a ÷ b.
Proof.
  intros Hb Ha. apply int64_id.
  destruct (quot_bounds a b Hb) as [Hp Hn].
  unfold MinInt64, MaxInt64 in *.
  destruct (Z.le_ge_cases 0 a) as [H|H]; [destruct (Hp H) | destruct (Hn H)]; nia.
Qed.

Lemma Read_blocks_from_seqZ bs : ∀ fuel hi b,
  fuel = Z.to_nat (hi - b) → hi ≤ MaxInt64 → MinInt64 ≤ b →
  Read_blocks_from fuel hi b bs = (λ x, mul64 x bs) <$> seqZ b (hi - b).
Proof.
  induction fuel as [|fuel IH]; intros hi b Hf Hhi Hb; simpl.
  - by rewrite seqZ_nil by lia.
  - destruct (Z.gtb_spec hi b); [|lia].
    rewrite seqZ_cons by lia. simpl. f_equal.
    unfold add64. rewrite int64_id by i64.
    rewrite IH by lia. f_equal. f_equal; lia.
Qed.

(** The needed blocks are the block-aligned offsets from the block of
    [offset] up to a bound [hi], none of which overflows. *)
Lemma Read_blocks_spec offset sz bs blocks :
  0 < bs ≤ MaxInt64 → MinInt64 ≤ offset ≤ MaxInt64 →
  Read_blocks offset sz bs = Ret blocks →
  ∃ hi, hi = sub64 (add64 offset (int64 (add64 sz bs))) 1 ÷ bs ∧
        blocks = (λ b, b * bs) <$> seqZ (offset ÷ bs) (hi - offset ÷ bs) ∧
        ∀ b, offset ÷ bs ≤ b < hi → MinInt64 ≤ b * bs ≤ MaxInt64.
Proof.
  intros Hbs Ho H. unfold Read_blocks in H.
  rewrite (int64_id bs) in H by i64.
  inv_bind H as lo Elo. inv_bind H as hi Ehi. injection H as <-.
  apply div64_inv in Elo as [_ ->]. apply div64_inv in Ehi as [_ ->].
  set (S := sub64 _ 1). pose proof (int64_range (add64 offset (int64 (add64 sz bs)) - 1)) as HS.
  fold (sub64 (add64 offset (int64 (add64 sz bs))) 1) in HS. fold S in HS.
  rewrite !quot_int64 by (first [done | lia]).
  assert (∀ b, offset ÷ bs ≤ b < S ÷ bs → MinInt64 ≤ b * bs ≤ MaxInt64) as Hb.
  { intros b Hb.
    destruct (quot_bounds offset bs) as [Hop Hon]; [lia|].
    destruct (quot_bounds S bs) as [HSp HSn]; [lia|].
    destruct (Z.le_ge_cases 0 b) as [H0|H0].
    - destruct (Z.le_ge_cases 0 S) as [H1|H1]; [|destruct (HSn H1); lia].
      destruct (HSp H1). unfold MinInt64, MaxInt64 in *. nia.
    - destruct (Z.le_ge_cases 0 offset) as [H1|H1].
      + destruct (Hop H1). unfold MinInt64, MaxInt64 in *. nia.
      + destruct (Hon H1). unfold MinInt64, MaxInt64 in *. nia. }
  exists (S ÷ bs). split_and!; [done| |done].
  rewrite Read_blocks_from_seqZ; [|done| |].
  - apply list_fmap_ext. intros i b Hi. apply lookup_seqZ in Hi as [-> Hi].
    unfold mul64. apply int64_id, Hb. lia.
  - pose proof (quot_int64 S bs ltac:(lia) HS) as E.
    pose proof (int64_range (S ÷ bs)). rewrite E in *. lia.
  - pose proof (quot_int64 offset bs ltac:(lia) Ho) as E.
    pose proof (int64_range (offset ÷ bs)). rewrite E in *. lia.
Qed.

(** ** The first critical section of [Read] *)

Lemma div64_block b bs :
  0 < bs ≤ MaxInt64 → MinInt64 ≤ b * bs ≤ MaxInt64 →
  div64 (b * bs) (int64 bs) = Ret b.
Proof.
  intros Hbs Hb. rewrite (int64_id bs) by i64. rewrite div64_Ret by lia.
  rewrite Z.quot_mul by lia. rewrite int64_id; [done|].
  unfold MinInt64, MaxInt64 in *. nia.
Qed.

Lemma markers_of_launches w gs w' bl ms :
  launches w gs w' → markers_of w bl ms → markers_of w' bl ms.
Proof.
  intros L H. eapply Forall2_impl; [exact H|]. intros b m (c & -> & Hc).
  exists c. split; [done|].
  by eapply launches_marker_stays.
Qed.

Lemma uncached_true w b : cache w !! Z.to_nat b = Some None → uncached w b.
Proof. intros H. unfold uncached. by rewrite H. Qed.

Lemma uncached_false w b buf : cache w !! Z.to_nat b = Some (Some buf) → ¬ uncached w b.
Proof. intros H. unfold uncached. rewrite H. by intros []. Qed.

Lemma Read_launch_spec bs bl : ∀ w u w' u',
  handle_ok w → bs = blockSize w →
  (∀ b, b ∈ bl → MinInt64 ≤ b * bs ≤ MaxInt64) →
  Read_launch (int64 bs) ((λ b, b * bs) <$> bl) w u = Ret (w', u') →
  ∃ gs ms, launches w gs w' ∧ u' = u ++ ms ∧
    (∀ g, g ∈ gs → g_block g ∈ bl) ∧
    (∀ b, b ∈ bl → 0 ≤ b < len (cache w)) ∧
    markers_of w' (filter (uncached w) bl) ms.
Proof.
  induction bl as [|b bl IH]; intros w u w' u' Hok Hbs Hbl H; simpl in H.
  - injection H as <- <-. exists [], []. rewrite app_nil_r.
    split_and!; [constructor | done | | | constructor];
      intros ? Hx; by apply elem_of_nil in Hx.
  - assert (0 < bs ≤ MaxInt64) as Hbs' by (subst bs; apply Hok).
    rewrite div64_block in H by (first [done | apply Hbl; by left]). simpl in H.
    inv_bind H as cb Ecb. apply index_Ret in Ecb as [Hb0 Ecb].
    assert (0 ≤ b < len (cache w)) as Hbr.
    { apply lookup_lt_Some in Ecb. unfold len. lia. }
    assert (∀ b', b' ∈ bl → MinInt64 ≤ b' * bs ≤ MaxInt64) as Hbl'.
    { intros b' Hb'. apply Hbl. by right. }
    destruct cb as [buf|].
    + destruct (IH _ _ _ _ Hok Hbs Hbl' H) as (gs & ms & L & -> & Hgs & Hr & Hm).
      exists gs, ms. split_and!; try done.
      * intros g Hg. right. by apply Hgs.
      * intros b' Hb'. apply elem_of_cons in Hb' as [-> | Hb']; [done | by apply Hr].
      * rewrite filter_cons_False; [done|]. by eapply uncached_false.
    + inv_bind H as ab Eab. apply index_Ret in Eab as [_ Eab].
      destruct ab as [c|].
      * simpl in H. rewrite (bind_Ret _ _ (Some c)) in H by (by apply index_Ret).
        destruct (IH _ _ _ _ Hok Hbs Hbl' H) as (gs & ms & L & -> & Hgs & Hr & Hm).
        exists gs, (Some c :: ms). rewrite <- app_assoc. split_and!; try done.
        -- intros g Hg. right. by apply Hgs.
        -- intros b' Hb'. apply elem_of_cons in Hb' as [-> | Hb']; [done | by apply Hr].
        -- rewrite filter_cons_True by (by apply uncached_true). constructor; [|done].
           exists c. split; [done|]. by eapply launches_marker_stays.
      * inv_bind H as w1 Ew1. apply fetch_Ret in Ew1 as (b1 & Eb1 & Hb1 & ->).
        rewrite <- Hbs, div64_block in Eb1 by (first [done | apply Hbl; by left]).
        injection Eb1 as <-.
        set (g := {| g_offset := b * bs; g_block := b |}) in *.
        assert (slot_free w (g_block g)) as Hfree by done.
        assert (g_offset g = g_block g * blockSize w) as Hoff by (by rewrite <- Hbs).
        pose proof (launch_ok g w Hok Hfree Hoff) as Hok1.
        assert (active (launch g w) !! Z.to_nat b = Some (Some (length (w_chans w)))) as Em.
        { unfold launch, active; simpl. apply list_lookup_insert_eq.
          by apply lookup_lt_Some in Eab. }
        rewrite (bind_Ret _ _ (Some (length (w_chans w)))) in H by (by apply index_Ret).
        destruct (IH _ _ _ _ Hok1 Hbs Hbl' H) as (gs & ms & L & -> & Hgs & Hr & Hm).
        exists (g :: gs), (Some (length (w_chans w)) :: ms).
        rewrite <- app_assoc. split_and!; try done.
        -- by constructor.
        -- intros g' Hg'. apply elem_of_cons in Hg' as [-> | Hg']; [by left|].
           right. by apply Hgs.
        -- intros b' Hb'. apply elem_of_cons in Hb' as [-> | Hb']; [done | by apply Hr].
        -- rewrite filter_cons_True by (by apply uncached_true). constructor; [|done].
           exists (length (w_chans w)). split; [done|]. by eapply launches_marker_stays.
Qed.

Lemma Read_purge_spec bs64 blocks w w' :
  Read_purge bs64 blocks w = Ret w' →
  ∃ o q, index blocks 0 = Ret o ∧ div64 o bs64 = Ret q ∧
    ((0 < sub64 q 1 ∧ (∃ buf, cache w !! Z.to_nat (sub64 q 1) = Some (Some buf)) ∧
      w' = purge (Z.to_nat (sub64 q 1)) w) ∨
     ((sub64 q 1 ≤ 0 ∨ cache w !! Z.to_nat (sub64 q 1) = Some None) ∧ w' = w)).
Proof.
  unfold Read_purge. intros H. inv_bind H as o Eo. inv_bind H as q Eq.
  exists o, q. split_and!; [done..|].
  destruct (Z.gtb_spec (sub64 q 1) 0) as [Hb|Hb]; [|right; injection H as <-; split; [lia|done]].
  inv_bind H as cb Ecb. apply index_Ret in Ecb as [_ Ecb].
  destruct cb as [buf|]; [|right; injection H as <-; split; [by right|done]].
  left. inv_bind H as c Ec. inv_bind H as a Ea.
  apply store_Ret in Ec as [_ ->]. apply store_Ret in Ea as [_ ->].
  injection H as <-. split_and!; [lia | by eexists | done].
Qed.

Lemma purge_ok b w buf :
  handle_ok w → cache w !! b = Some (Some buf) → handle_ok (purge b w).
Proof.
  intros [Hbs Hsz Hc Ha Halloc Hinj Hrun Hnd Hopen Hslots] Hb.
  assert (∀ g, g ∈ w_running w → Z.to_nat (g_block g) ≠ b) as Hne.
  { intros g Hg E. destruct (Hrun g Hg) as (_ & _ & Hcg & _). congruence. }
  assert (∀ b' c, <[b := None]> (active w) !! b' = Some (Some c) →
                  b' ≠ b ∧ active w !! b' = Some (Some c)) as Hmark.
  { intros b' c H. destruct (decide (b = b')) as [<-|E].
    - apply list_lookup_insert_Some in H as [(_ & ? & _) | [? _]]; done.
    - by rewrite list_lookup_insert_ne in H. }
  split; try done.
  - unfold purge, cache, len; simpl. rewrite length_insert. exact Hc.
  - unfold purge, active, len; simpl. rewrite length_insert. exact Ha.
  - intros b' c H. apply Hmark in H as [_ H]. by apply Halloc in H.
  - intros b1 b2 c H1 H2. apply Hmark in H1 as [_ H1]. apply Hmark in H2 as [_ H2].
    by eapply Hinj.
  - intros g Hg. destruct (Hrun g Hg) as (H0 & Ho & Hcg & c & Hm & Hch).
    pose proof (Hne g Hg). split_and!; try done.
    + unfold purge, cache; simpl. by rewrite list_lookup_insert_ne.
    + exists c. unfold purge, active; simpl. by rewrite list_lookup_insert_ne.
  - intros b' c H Hch. apply Hmark in H as [_ H]. by eapply Hopen.
Qed.

Lemma Read_purge_ok bs64 blocks w w' :
  handle_ok w → Read_purge bs64 blocks w = Ret w' → handle_ok w'.
Proof.
  intros Hok H. apply Read_purge_spec in H as (o & q & _ & _ & [(_ & [buf Hb] & ->) | [_ ->]]);
    [by eapply purge_ok | done].
Qed.

Lemma handle_ok_block_offset w b :
  handle_ok w → 0 ≤ b < len (cache w) →
  0 ≤ b * blockSize w ≤ size w ∧ mul64 b (int64 (blockSize w)) = b * blockSize w ∧
  div64 (mul64 b (int64 (blockSize w))) (int64 (blockSize w)) = Ret b.
Proof.
  intros Hok Hb. pose proof (ok_blockSize _ Hok) as Hbs. pose proof (ok_size _ Hok) as Hsz.
  rewrite (ok_cache _ Hok) in Hb.
  assert (0 ≤ b * blockSize w ≤ size w) as Hr.
  { pose proof (Z.div_mod (size w) (blockSize w)).
    pose proof (Z.mod_pos_bound (size w) (blockSize w)). nia. }
  assert (mul64 b (int64 (blockSize w)) = b * blockSize w) as E.
  { rewrite (int64_id (blockSize w)) by i64. unfold mul64. apply int64_id. i64. }
  split_and!; [lia..|done|]. rewrite E. apply div64_block; [done | i64].
Qed.

Lemma Read_prefetch_spec bs blocks : ∀ fuel i w w',
  handle_ok w → bs = blockSize w →
  Read_prefetch fuel i (int64 bs) blocks w = Ret w' →
  ∃ gs, launches w gs w' ∧ (length gs ≤ fuel)%nat ∧
    (∀ g, g ∈ gs →
       ∃ j, i ≤ j < i + Z.of_nat fuel ∧
            Read_prefetch_block (int64 bs) blocks j = Ret (g_block g) ∧
            g_offset g = mul64 (g_block g) (int64 bs) ∧ g_offset g < size w) ∧
    (∀ j b, i ≤ j < i + Z.of_nat fuel →
       Read_prefetch_block (int64 bs) blocks j = Ret b →
       mul64 b (int64 bs) < size w → slot_free w b →
       ∃ g, g ∈ gs ∧ g_block g = b).
Proof.
  induction fuel as [|fuel IH]; intros i w w' Hok Hbs H; simpl in H.
  - injection H as <-. exists []. split_and!; [constructor | done | |].
    + intros ? Hx; by apply elem_of_nil in Hx.
    + intros; lia.
  - inv_bind H as b Eb. inv_bind H as w1 Ew1.
    assert (∃ gs1, launches w gs1 w1 ∧ ((gs1 = [] ∧ w1 = w ∧ (mul64 b (int64 bs) < size w → ¬ slot_free w b)) ∨
              (gs1 = [{| g_offset := mul64 b (int64 bs); g_block := b |}] ∧
               mul64 b (int64 bs) < size w))) as (gs1 & L1 & Hgs1).
    { destruct (Z.ltb_spec (mul64 b (int64 bs)) (size w)) as [Hlt|Hge];
        [|injection Ew1 as <-; exists []; split; [constructor | left; split_and!; [done..|lia]]].
      inv_bind Ew1 as cb Ecb. apply index_Ret in Ecb as [Hb0 Ecb].
      destruct cb as [buf|].
      { injection Ew1 as <-. exists []. split; [constructor|]. left. split_and!; [done..|].
        intros _ (_ & Hc & _). congruence. }
      inv_bind Ew1 as ab Eab. apply index_Ret in Eab as [_ Eab].
      destruct ab as [c|].
      { injection Ew1 as <-. exists []. split; [constructor|]. left. split_and!; [done..|].
        intros _ (_ & _ & Ha). congruence. }
      apply fetch_Ret in Ew1 as (b1 & Eb1 & Hb1 & ->).
      assert (0 ≤ b < len (cache w)) as Hbr.
      { apply lookup_lt_Some in Ecb. unfold len. lia. }
      destruct (handle_ok_block_offset w b Hok Hbr) as (_ & Em & Ed).
      rewrite <- Hbs in Em, Ed. rewrite <- Hbs, Ed in Eb1. injection Eb1 as <-.
      eexists. split; [|right; split; [reflexivity | done]].
      constructor; [done | by rewrite <- Hbs | constructor]. }
    pose proof (launches_ok _ _ _ L1 Hok) as Hok1.
    pose proof (launches_blockSize _ _ _ L1) as Hbs1.
    destruct (launches_frame _ _ _ L1) as (_ & _ & _ & Hsz1 & _).
    destruct (IH (i + 1) w1 w' Hok1 ltac:(congruence) H) as (gs & L & Hlen & Hsound & Hcomp).
    exists (gs1 ++ gs). split_and!.
    + by eapply launches_app.
    + rewrite length_app. destruct Hgs1 as [(-> & _) | (-> & _)]; simpl; lia.
    + intros g Hg. apply elem_of_app in Hg as [Hg | Hg].
      * destruct Hgs1 as [(-> & _) | (-> & Hlt)]; [by apply elem_of_nil in Hg|].
        apply list_elem_of_singleton in Hg as ->. exists i. simpl. split_and!; [lia..|done|done|done].
      * destruct (Hsound g Hg) as (j & Hj & ? & ? & ?). exists j.
        split_and!; [lia..|done|done|]. by rewrite <- Hsz1.
    + intros j b' Hj Eb' Hlt Hfree.
      destruct (decide (j = i)) as [->|Hne].
      * rewrite Eb in Eb'. injection Eb' as <-.
        destruct Hgs1 as [(-> & _ & Hn) | (-> & _)]; [by destruct (Hn Hlt)|].
        eexists. split; [apply elem_of_app; left; by left | done].
      * destruct Hgs1 as [(-> & -> & _) | (-> & _)].
        { destruct (Hcomp j b' ltac:(lia) Eb' Hlt Hfree) as (g & Hg & Egb).
          exists g. split; [by apply elem_of_app; right | done]. }
        destruct (decide (b = b')) as [<-|Hbb].
        { eexists. split; [apply elem_of_app; left; by left | done]. }
        destruct (Hcomp j b' ltac:(lia) Eb' ltac:(by rewrite Hsz1)) as (g & Hg & Egb).
        { inversion L1 as [|? ? ? ? _ _ Lnil]; subst. inversion Lnil; subst.
          destruct Hfree as (H0 & Hc & Ha). split_and!; [done..|].
          unfold launch, active; simpl. rewrite list_lookup_insert_ne; [done|].
          simpl. destruct (launches_start_free _ _ _ _ L1 ltac:(by left)) as (Hb0 & _).
          simpl in Hb0. lia. }
        exists g. split; [by apply elem_of_app; right | done].
Qed.

(** ** The end of a fetch *)

Lemma elem_of_delete_middle {A} (l : list A) i x y :
  l !! i = Some x → y ∈ l → y ≠ x → y ∈ delete i l.
Proof.
  intros Hi Hy Hne. rewrite <- (take_drop_middle l i x Hi) in Hy.
  rewrite delete_take_drop. apply elem_of_app in Hy as [Hy | Hy].
  - apply elem_of_app. by left.
  - apply elem_of_cons in Hy as [-> | Hy]; [done|]. apply elem_of_app. by right.
Qed.

Lemma elem_of_delete_NoDup {A B} (f : A → B) (l : list A) i x y :
  NoDup (f <$> l) → l !! i = Some x → y ∈ delete i l → y ∈ l ∧ f y ≠ f x.
Proof.
  intros Hnd Hi Hy. rewrite <- (take_drop_middle l i x Hi) in Hnd |- *.
  rewrite delete_take_drop in Hy.
  rewrite fmap_app, fmap_cons in Hnd.
  apply NoDup_app in Hnd as (_ & Hdis & Hnd). apply NoDup_cons in Hnd as [Hx _].
  apply elem_of_app in Hy as [Hy | Hy].
  - split; [apply elem_of_app; by left|].
    intros E. apply (Hdis (f y)); [by apply list_elem_of_fmap_2|].
    rewrite E. by left.
  - split; [apply elem_of_app; right; by right|].
    intros E. apply Hx. rewrite <- E. by apply list_elem_of_fmap_2.
Qed.

(** A goroutine of a state that satisfies the invariant ends without a
    panic, in the state [finish] describes. *)
Lemma run_goroutine_spec net i w g :
  handle_ok w → w_running w !! i = Some g →
  ∃ c, active w !! Z.to_nat (g_block g) = Some (Some c) ∧ w_chans w !! c = Some false ∧
       run_goroutine net i w =
         Ret (finish (g_block g) (realFetch net w (g_offset g)) c
                (set_running (delete i (w_running w)) w)).
Proof.
  intros Hok Hi.
  destruct (ok_running _ Hok g) as (H0 & Ho & Hcg & c & Hm & Hch);
    [by eapply list_elem_of_lookup_2|].
  exists c. split_and!; [done..|].
  unfold run_goroutine. rewrite Hi. unfold fetch_done.
  change (realFetch net (set_running (delete i (w_running w)) w) (g_offset g))
    with (realFetch net w (g_offset g)).
  destruct (realFetch net w (g_offset g)) as [buf [e|]]; simpl.
  - rewrite (bind_Ret _ _ (Some c)) by (by apply index_Ret).
    unfold close; simpl. by rewrite Hch.
  - erewrite (bind_Ret (store _ _ _)); [|apply store_Ret; split; [|reflexivity]].
    2:{ apply lookup_lt_Some in Hcg. unfold len, cache in *. simpl. lia. }
    simpl. rewrite (bind_Ret _ _ (Some c)) by (by apply index_Ret).
    unfold close; simpl. by rewrite Hch.
Qed.

Lemma finish_ok i w g r c :
  handle_ok w → w_running w !! i = Some g →
  active w !! Z.to_nat (g_block g) = Some (Some c) →
  handle_ok (finish (g_block g) r c (set_running (delete i (w_running w)) w)).
Proof.
  intros [Hbs Hsz Hc Ha Halloc Hinj Hrun Hnd Hopen Hslots] Hi Hm.
  assert (∀ g', g' ∈ delete i (w_running w) →
            g' ∈ w_running w ∧ Z.to_nat (g_block g') ≠ Z.to_nat (g_block g)) as Hne.
  { intros g' Hg'. destruct (elem_of_delete_NoDup g_block _ _ _ _ Hnd Hi Hg') as [Hin Hb].
    split; [done|]. destruct (Hrun g' Hin) as (? & _). 
    destruct (Hrun g) as (? & _); [by eapply list_elem_of_lookup_2|]. lia. }
  assert (active (finish (g_block g) r c (set_running (delete i (w_running w)) w))
          = active w) as Eact.
  { unfold finish. by destruct (r.2). }
  assert (∀ b, b ≠ Z.to_nat (g_block g) →
            cache (finish (g_block g) r c (set_running (delete i (w_running w)) w)) !! b
            = cache w !! b) as Ecache.
  { intros b Hb. unfold finish. destruct (r.2); [done|].
    unfold cache; simpl. by rewrite list_lookup_insert_ne. }
  split.
  - unfold finish. by destruct (r.2).
  - unfold finish. by destruct (r.2).
  - unfold finish. destruct (r.2); [done|]. unfold cache, len; simpl.
    rewrite length_insert. exact Hc.
  - unfold finish. by destruct (r.2).
  - rewrite Eact. intros b c' H. apply Halloc in H.
    unfold finish. destruct (r.2); simpl; by rewrite length_insert.
  - rewrite Eact. apply Hinj.
  - intros g' Hg'.
    assert (g' ∈ delete i (w_running w)) as Hg'' by (unfold finish in Hg'; by destruct (r.2)).
    destruct (Hne g' Hg'') as [Hin Hb].
    destruct (Hrun g' Hin) as (H0 & Ho & Hcg & c' & Hm' & Hch).
    split_and!; [done| |by rewrite Ecache|].
    + unfold finish. by destruct (r.2).
    + rewrite Eact. exists c'. split; [done|].
      assert (c' ≠ c) as Hcc. { intros ->. apply Hb. by eapply Hinj. }
      unfold finish. destruct (r.2); simpl; by rewrite list_lookup_insert_ne.
  - assert (w_running (finish (g_block g) r c (set_running (delete i (w_running w)) w))
            = delete i (w_running w)) as -> by (unfold finish; by destruct (r.2)).
    rewrite delete_take_drop, fmap_app.
    rewrite <- (take_drop_middle _ _ _ Hi), fmap_app, fmap_cons in Hnd.
    apply NoDup_app in Hnd as (H1 & H2 & H3). apply NoDup_cons in H3 as [H3 H4].
    apply NoDup_app. split_and!; [done| |done].
    intros x Hx Hx'. apply (H2 x Hx). by right.
  - rewrite Eact. intros b c' H Hch.
    assert (c' ≠ c ∧ w_chans w !! c' = Some false) as [Hcc Hch'].
    { unfold finish in Hch. destruct (decide (c' = c)) as [->|Hcc].
      - destruct (r.2); simpl in Hch; apply list_lookup_insert_Some in Hch;
          destruct Hch as [(_ & ? & _) | [? _]]; done.
      - split; [done|]. destruct (r.2); simpl in Hch;
          by rewrite list_lookup_insert_ne in Hch. }
    destruct (Hopen _ _ H Hch') as (g' & Hg' & Eg'). exists g'. split; [|done].
    assert (g' ∈ delete i (w_running w)) as Hd.
    { eapply elem_of_delete_middle; [done..|]. intros ->. rewrite Eg', Nat2Z.id in Hm.
      congruence. }
    unfold finish. by destruct (r.2).
  - unfold finish. by destruct (r.2).
Qed.

Lemma run_goroutine_ok net i w w' :
  handle_ok w → (i < length (w_running w))%nat →
  run_goroutine net i w = Ret w' → handle_ok w'.
Proof.
  intros Hok Hi H. destruct (lookup_lt_is_Some_2 _ _ Hi) as [g Hg].
  destruct (run_goroutine_spec net i w g Hok Hg) as (c & Hm & Hch & E).
  rewrite E in H. injection H as <-. by apply finish_ok.
Qed.

(** ** Reachable states satisfy the invariant *)

Lemma GetFetcher_blockSize_pos p :
  0 ≤ p < 63 → 0 < GetFetcher_blockSize p ≤ MaxInt64.
Proof.
  intros Hp. unfold GetFetcher_blockSize.
  destruct (Z.ltb_spec p 64); [|lia].
  rewrite Z.shiftl_1_l.
  assert (0 < 2 ^ p ≤ 2 ^ 62) as Hpow.
  { split; [apply Z.pow_pos_nonneg; lia | apply Z.pow_le_mono_r; lia]. }
  change (2 ^ 62) with 4611686018427387904 in Hpow.
  rewrite int64_id by i64. i64.
Qed.

Lemma NewHandle_ok net f hash sz peers f' h k :
  0 < f_blockSize f ≤ MaxInt64 → 0 ≤ sz ≤ MaxInt64 →
  NewHandle net f hash sz peers = Ret (f', inl h) →
  handle_ok (new_world f' h k) ∧ f_blockSize f' = f_blockSize f ∧ h_size h = sz ∧
  h_lastErr h = None ∧ (∀ b, cache (new_world f' h k) !! b = Some None ∨
                             cache (new_world f' h k) !! b = None).
Proof.
  intros Hbs Hsz H. unfold NewHandle in H.
  rewrite (int64_id (f_blockSize f)) in H by i64.
  inv_bind H as q E. apply div64_inv in E as [_ ->].
  rewrite quot_nonneg in H by lia.
  pose proof (div_le_self sz (f_blockSize f)) as Hq.
  rewrite (int64_id (sz / _)) in H by i64.
  inv_bind H as c Ec. inv_bind H as a Ea. inv_bind H as [reg found] Ep.
  apply make_Ret in Ec as [Hn ->]. apply make_Ret in Ea as [_ ->].
  destruct found; [|discriminate]. injection H as <- <-.
  assert (sz / f_blockSize f < MaxInt64) as Hslot.
  { destruct (decide (sz / f_blockSize f = MaxInt64)) as [E|E]; [|lia].
    rewrite E in Hn. vm_compute in Hn. by destruct Hn. }
  assert (add64 (sz / f_blockSize f) 1 = sz / f_blockSize f + 1) as En.
  { unfold add64. apply int64_id. i64. }
  rewrite En in *.
  split_and!; try done.
  - split; unfold new_world, blockSize, size, cache, active, len; simpl.
    + done.
    + done.
    + rewrite length_replicate. lia.
    + rewrite length_replicate. lia.
    + intros b c H. apply lookup_replicate in H as [? _]. done.
    + intros b1 b2 c H. apply lookup_replicate in H as [? _]. done.
    + intros g Hg. by apply elem_of_nil in Hg.
    + constructor.
    + intros b c H. apply lookup_replicate in H as [? _]. done.
    + lia.
  - intros b. unfold new_world, cache; simpl.
    destruct (replicate _ _ !! b) as [x|] eqn:E; [|by right].
    apply lookup_replicate in E as [-> _]. by left.
Qed.

Lemma seqZ_elem lo n b : b ∈ seqZ lo n ↔ lo ≤ b < lo + n.
Proof.
  rewrite list_elem_of_lookup. split.
  - intros [i Hi]. apply lookup_seqZ in Hi. lia.
  - intros Hb. exists (Z.to_nat (b - lo)). apply lookup_seqZ. lia.
Qed.

(** The structure of a successful first critical section. *)
Lemma Read_locked_spec offset sz w w3 blocks unfetched :
  handle_ok w → MinInt64 ≤ offset ≤ MaxInt64 →
  Read_locked offset sz w = Ret (w3, blocks, unfetched) →
  ∃ hi gs1 w1 w2 gs2,
    hi = sub64 (add64 offset (int64 (add64 sz (blockSize w)))) 1 ÷ blockSize w ∧
    blocks = (λ b, b * blockSize w) <$> seqZ (offset ÷ blockSize w) (hi - offset ÷ blockSize w) ∧
    (∀ b, offset ÷ blockSize w ≤ b < hi → 0 ≤ b < len (cache w)) ∧
    launches w gs1 w1 ∧
    (∀ g, g ∈ gs1 → offset ÷ blockSize w ≤ g_block g < hi) ∧
    markers_of w1 (filter (uncached w) (seqZ (offset ÷ blockSize w) (hi - offset ÷ blockSize w)))
      unfetched ∧
    Read_launch (int64 (blockSize w)) blocks w [] = Ret (w1, unfetched) ∧
    Read_purge (int64 (blockSize w)) blocks w1 = Ret w2 ∧
    Read_prefetch (Z.to_nat (prefetchBlocks w)) 0 (int64 (blockSize w)) blocks w2 = Ret w3 ∧
    launches w2 gs2 w3 ∧
    handle_ok w1 ∧ handle_ok w2 ∧ handle_ok w3.
Proof.
  intros Hok Ho H. unfold Read_locked in H.
  inv_bind H as bl Ebl. inv_bind H as [w1 u] El. inv_bind H as w2 Ep. inv_bind H as w3' Epf.
  injection H as <- <- <-.
  pose proof (ok_blockSize _ Hok) as Hbs.
  destruct (Read_blocks_spec _ _ _ _ Hbs Ho Ebl) as (hi & Ehi & -> & Hblk).
  assert (∀ b, b ∈ seqZ (offset ÷ blockSize w) (hi - offset ÷ blockSize w) →
               MinInt64 ≤ b * blockSize w ≤ MaxInt64) as Hblk'.
  { intros b Hb. apply seqZ_elem in Hb. apply Hblk. lia. }
  destruct (Read_launch_spec (blockSize w) _ w [] w1 u Hok eq_refl Hblk' El)
    as (gs1 & ms & L1 & Eu & Hgs1 & Hr & Hm).
  simpl in Eu. subst ms.
  pose proof (launches_ok _ _ _ L1 Hok) as Hok1.
  pose proof (Read_purge_ok _ _ _ _ Hok1 Ep) as Hok2.
  assert (blockSize w2 = blockSize w) as Hbs2.
  { rewrite <- (launches_blockSize _ _ _ L1).
    apply Read_purge_spec in Ep as (? & ? & _ & _ & [(_ & _ & ->) | [_ ->]]); done. }
  destruct (Read_prefetch_spec (blockSize w) _ _ 0 w2 w3' Hok2 ltac:(done) Epf)
    as (gs2 & L2 & _).
  exists hi, gs1, w1, w2, gs2. split_and!; try done.
  - intros b Hb. apply Hr. apply seqZ_elem. lia.
  - intros g Hg. apply Hgs1, seqZ_elem in Hg. lia.
  - by eapply launches_ok.
Qed.

Lemma Read_locked_ok offset sz w w' blocks unfetched :
  handle_ok w → MinInt64 ≤ offset ≤ MaxInt64 →
  Read_locked offset sz w = Ret (w', blocks, unfetched) → handle_ok w'.
Proof.
  intros Hok Ho H.
  by destruct (Read_locked_spec _ _ _ _ _ _ Hok Ho H)
    as (? & ? & ? & ? & ? & _ & _ & _ & _ & _ & _ & _ & _ & _ & _ & _ & _ & ?).
Qed.

Lemma NewHandle_blockSize net f hash sz peers f' out :
  NewHandle net f hash sz peers = Ret (f', out) → f_blockSize f' = f_blockSize f.
Proof.
  unfold NewHandle. intros H.
  inv_bind H as q E. inv_bind H as c Ec. inv_bind H as a Ea. inv_bind H as [reg found] Ep.
  destruct found; by injection H as <- _.
Qed.

Lemma step_ok w w' : step w w' → handle_ok w → handle_ok w'.
Proof.
  intros [offset sz w0 w0' blocks unfetched Ho Hs Hlt H
         | net i w0 w0' Hi H
         | net hash sz peers w0 f' out H] Hok.
  - exact (Read_locked_ok _ _ _ _ _ _ Hok Ho H).
  - exact (run_goroutine_ok _ _ _ _ Hok Hi H).
  - apply NewHandle_blockSize in H.
    destruct Hok as [Hbs Hsz Hc Ha Halloc Hinj Hrun Hnd Hopen Hslots].
    split; try done; unfold blockSize in *; simpl; by rewrite ?H.
Qed.

Lemma reachable_ok w : reachable w → handle_ok w.
Proof.
  induction 1 as [net f hash sz peers f' h k p Hp Hbs Hsz H | w w' _ IH Hstep].
  - eapply NewHandle_ok; [|done..]. rewrite Hbs. by apply GetFetcher_blockSize_pos.
  - by eapply step_ok.
Qed.

(** ** Single flight *)

Lemma for_block_nil b gs : (∀ g, g ∈ gs → g_block g ≠ b) → for_block b gs = [].
Proof.
  unfold for_block. induction gs as [|g gs IH]; intros H; [done|].
  rewrite filter_cons_False by (apply H; by left). apply IH. intros g' Hg'. apply H. by right.
Qed.

Lemma for_block_one b gs g :
  NoDup (g_block <$> gs) → g ∈ gs → g_block g = b → for_block b gs = [g].
Proof.
  unfold for_block. induction gs as [|g0 gs IH]; intros Hnd Hg Hb.
  - by apply elem_of_nil in Hg.
  - rewrite fmap_cons in Hnd. apply NoDup_cons in Hnd as [Hg0 Hnd].
    apply elem_of_cons in Hg as [<- | Hg].
    + rewrite filter_cons_True by done. f_equal. apply for_block_nil.
      intros g' Hg' E. apply Hg0. rewrite Hb, <- E. by apply list_elem_of_fmap_2.
    + rewrite filter_cons_False; [by apply IH|].
      intros E. apply Hg0. rewrite E, <- Hb. by apply list_elem_of_fmap_2.
Qed.

Lemma for_block_le_1 b gs : NoDup (g_block <$> gs) → (length (for_block b gs) ≤ 1)%nat.
Proof.
  intros Hnd. destruct (for_block b gs) as [|g gs'] eqn:E; [simpl; lia|].
  assert (g ∈ gs ∧ g_block g = b) as [Hg Hb].
  { assert (g ∈ for_block b gs) as Hin by (rewrite E; by left).
    apply list_elem_of_filter in Hin as [? ?]. done. }
  rewrite (for_block_one b gs g Hnd Hg Hb) in E. injection E as <-. simpl. lia.
Qed.

Lemma for_block_app b gs1 gs2 : for_block b (gs1 ++ gs2) = for_block b gs1 ++ for_block b gs2.
Proof. apply filter_app. Qed.

Lemma block_needed (bs b lo n : Z) :
  0 < bs → b * bs ∈ (λ x, x * bs) <$> seqZ lo n → lo ≤ b < lo + n.
Proof.
  intros Hbs H. apply list_elem_of_fmap in H as (x & E & Hx). apply seqZ_elem in Hx.
  assert (b = x) by nia. lia.
Qed.

Lemma launches_NoDup_blocks w gs w' :
  launches w gs w' → NoDup (g_block <$> gs).
Proof.
  intros L. pose proof (launches_NoDup _ _ _ L) as Hnd.
  rewrite list_fmap_compose in Hnd. by apply NoDup_fmap_1 in Hnd.
Qed.

(** The marker of a block survives the end of fetches. *)
Lemma fetches_end_active N w w' :
  fetches_end N w w' → handle_ok w → active w' = active w ∧ handle_ok w'.
Proof.
  induction 1 as [w | net i w w1 w' _ Hi H _ IH]; intros Hok; [done|].
  destruct (lookup_lt_is_Some_2 _ _ Hi) as [g Hg].
  destruct (run_goroutine_spec net i w g Hok Hg) as (c & Hm & Hch & E).
  rewrite E in H. injection H as <-.
  destruct IH as [-> Hok']; [by apply finish_ok|]. split; [|done].
  unfold finish. by destruct (_.2).
Qed.

(** A [Read] that needs a block which has a marker does not launch it. *)
Lemma Read_locked_marked offset sz w w' blocks unfetched b c :
  handle_ok w → MinInt64 ≤ offset ≤ MaxInt64 →
  Read_locked offset sz w = Ret (w', blocks, unfetched) →
  b * blockSize w ∈ blocks → active w !! Z.to_nat b = Some (Some c) →
  ∃ gs, w_running w' = w_running w ++ gs ∧ for_block b gs = [].
Proof.
  intros Hok Ho H Hb Hm.
  destruct (Read_locked_spec _ _ _ _ _ _ Hok Ho H)
    as (hi & gs1 & w1 & w2 & gs2 & _ & -> & Hr & L1 & Hgs1 & _ & _ & Ep & _ & L2 & Hok1 & _).
  pose proof (ok_blockSize _ Hok) as Hbs.
  apply block_needed in Hb; [|lia].
  destruct (launches_frame _ _ _ L1) as (_ & Ec1 & _ & _ & _ & _ & _ & Er1 & _).
  destruct (launches_frame _ _ _ L2) as (_ & _ & _ & _ & _ & _ & _ & Er2 & _).
  pose proof (launches_marker_stays _ _ _ _ _ L1 Hm) as Hm1.
  assert (w_running w2 = w_running w1 ∧ active w2 !! Z.to_nat b = Some (Some c)) as [Er Hm2].
  { apply Read_purge_spec in Ep as (o & q & Eo & Eq & [(Hp & _ & ->) | [_ ->]]); [|done].
    split; [done|]. unfold purge, active; simpl. rewrite list_lookup_insert_ne; [done|].
    apply index_Ret in Eo as [_ Eo]. change (Z.to_nat 0) with 0%nat in Eo.
    rewrite list_lookup_fmap in Eo.
    destruct (seqZ _ _ !! 0%nat) as [x|] eqn:Ex; [|done]. injection Eo as <-.
    apply lookup_seqZ in Ex as [-> _]. rewrite Z.add_0_r in *.
    assert (0 ≤ offset ÷ blockSize w) as Hlo by (destruct (Hr (offset ÷ blockSize w)); lia).
    rewrite div64_block in Eq.
    - injection Eq as <-. unfold sub64 in *.
      pose proof (quot_int64 offset (blockSize w) ltac:(lia) Ho) as Eq.
      pose proof (int64_range (offset ÷ blockSize w)) as Hq. rewrite Eq in Hq.
      rewrite int64_id in * by i64. lia.
    - done.
    - destruct (quot_bounds offset (blockSize w)) as [Hp' _]; [lia|].
      destruct (Z.le_ge_cases 0 offset) as [H0|H0]; [destruct (Hp' H0); i64|].
      assert (offset ÷ blockSize w = 0) as ->; [|i64].
      destruct (quot_bounds offset (blockSize w)) as [_ Hn']; [lia|]. destruct (Hn' H0). lia. }
  exists (gs1 ++ gs2). split; [by rewrite Er2, Er, Er1, app_assoc|].
  rewrite for_block_app.
  rewrite (for_block_nil b gs1), (for_block_nil b gs2); [done| |].
  - intros g Hg E. destruct (launches_start_free _ _ _ _ L2 Hg) as (_ & _ & Ha).
    rewrite E in Ha. congruence.
  - intros g Hg E. destruct (launches_start_free _ _ _ _ L1 Hg) as (_ & _ & Ha).
    rewrite E in Ha. congruence.
Qed.

(** A [Read] that needs a free block launches exactly one fetch for it, and
    leaves its marker. *)
Lemma Read_locked_free offset sz w w' blocks unfetched b :
  handle_ok w → MinInt64 ≤ offset ≤ MaxInt64 →
  Read_locked offset sz w = Ret (w', blocks, unfetched) →
  b * blockSize w ∈ blocks → slot_free w b →
  ∃ gs g c, w_running w' = w_running w ++ gs ∧ for_block b gs = [g] ∧
            active w' !! Z.to_nat b = Some (Some c).
Proof.
  intros Hok Ho H Hb (Hb0 & Hc & Ha).
  destruct (Read_locked_spec _ _ _ _ _ _ Hok Ho H)
    as (hi & gs1 & w1 & w2 & gs2 & _ & -> & Hr & L1 & Hgs1 & Hms & _ & Ep & _ & L2 & Hok1 & _).
  pose proof (ok_blockSize _ Hok) as Hbs.
  apply block_needed in Hb; [|lia].
  destruct (launches_frame _ _ _ L1) as (_ & Ec1 & _ & _ & _ & _ & _ & Er1 & _).
  destruct (launches_frame _ _ _ L2) as (_ & _ & _ & _ & _ & _ & _ & Er2 & _).
  assert (∃ c, active w1 !! Z.to_nat b = Some (Some c)) as [c Hm1].
  { assert (b ∈ filter (uncached w) (seqZ (offset ÷ blockSize w) (hi - offset ÷ blockSize w)))
      as Hin.
    { apply list_elem_of_filter. split; [by apply uncached_true | apply seqZ_elem; lia]. }
    apply list_elem_of_lookup in Hin as [i Hi].
    destruct (Forall2_lookup_l _ _ _ _ _ Hms Hi) as (m & _ & c & _ & Hc'). by exists c. }
  assert (∃ g, g ∈ gs1 ∧ g_block g = b) as (g & Hg & Eg).
  { destruct (decide (Exists (λ g, Z.to_nat (g_block g) = Z.to_nat b) gs1)) as [Hex|Hnex].
    - apply Exists_exists in Hex as (g & Hg & E). exists g. split; [done|].
      destruct (launches_start_free _ _ _ _ L1 Hg) as (? & _). lia.
    - rewrite (launches_active_other _ _ _ (Z.to_nat b) L1) in Hm1; [congruence|].
      intros g Hg E. apply Hnex, Exists_exists. by exists g. }
  assert (w_running w2 = w_running w1 ∧ active w2 !! Z.to_nat b = Some (Some c)) as [Er Hm2].
  { apply Read_purge_spec in Ep as (o & q & Eo & Eq & [(Hp & [buf Hbuf] & ->) | [_ ->]]); [|done].
    split; [done|]. unfold purge, active; simpl. rewrite list_lookup_insert_ne; [done|].
    intros E. rewrite Ec1, E in Hbuf. congruence. }
  exists (gs1 ++ gs2), g, c. split_and!.
  - by rewrite Er2, Er, Er1, app_assoc.
  - rewrite for_block_app, (for_block_nil b gs2), app_nil_r.
    + apply for_block_one; [by eapply launches_NoDup_blocks | done..].
    + intros g' Hg' E. destruct (launches_start_free _ _ _ _ L2 Hg') as (_ & _ & Ha').
      rewrite E in Ha'. congruence.
  - by eapply launches_marker_stays.
Qed.

Lemma fetches_end_frame N w w' :
  fetches_end N w w' → handle_ok w → blockSize w' = blockSize w ∧ size w' = size w.
Proof.
  induction 1 as [w | net i w w1 w' _ Hi H _ IH]; intros Hok; [done|].
  destruct (lookup_lt_is_Some_2 _ _ Hi) as [g Hg].
  destruct (run_goroutine_spec net i w g Hok Hg) as (c & Hm & Hch & E).
  rewrite E in H. injection H as <-.
  destruct IH as [-> ->]; [by apply finish_ok|].
  unfold finish. by destruct (_.2).
Qed.

Lemma Read_locked_frame offset sz w w' blocks unfetched :
  handle_ok w → MinInt64 ≤ offset ≤ MaxInt64 →
  Read_locked offset sz w = Ret (w', blocks, unfetched) →
  blockSize w' = blockSize w ∧ size w' = size w ∧ lastErr w' = lastErr w.
Proof.
  intros Hok Ho H.
  destruct (Read_locked_spec _ _ _ _ _ _ Hok Ho H)
    as (hi & gs1 & w1 & w2 & gs2 & _ & _ & _ & L1 & _ & _ & _ & Ep & _ & L2 & _).
  destruct (launches_frame _ _ _ L1) as (_ & _ & El1 & Es1 & _).
  destruct (launches_frame _ _ _ L2) as (_ & _ & El2 & Es2 & _).
  rewrite (launches_blockSize _ _ _ L2), Es2, El2.
  apply Read_purge_spec in Ep as (? & ? & _ & _ & [(_ & _ & ->) | [_ ->]]);
    rewrite <- (launches_blockSize _ _ _ L1), <- Es1, <- El1; done.
Qed.

(** C4, single flight.  In every reachable state at most one goroutine is
    in flight per block, and the slot of its block is empty and its marker
    open.  The fetches a [Read] launches in its critical section are each
    launched for a block whose slot is empty and has no marker at that
    moment ([launches]), those of the needed blocks before the purge and
    those of the prefetch after it.  And when a [Read] needs a block that
    is free, it launches exactly one fetch for it, and a second [Read] that
    needs the same block, whether or not fetches have ended in between,
    launches none. *)
Theorem single_flight w :
  reachable w →
  (∀ b, (length (in_flight w b) ≤ 1)%nat) ∧
  (∀ g, g ∈ w_running w →
     cache w !! Z.to_nat (g_block g) = Some None ∧
     ∃ c, active w !! Z.to_nat (g_block g) = Some (Some c) ∧ w_chans w !! c = Some false) ∧
  (∀ offset sz w' blocks unfetched,
     MinInt64 ≤ offset ≤ MaxInt64 →
     Read_locked offset sz w = Ret (w', blocks, unfetched) →
     ∃ gs1 w1 w2 gs2,
       launches w gs1 w1 ∧ Read_purge (int64 (blockSize w)) blocks w1 = Ret w2 ∧
       launches w2 gs2 w' ∧ w_running w' = w_running w ++ gs1 ++ gs2 ∧
       ∀ b, b * blockSize w ∈ blocks → slot_free w b →
         (∃ g, for_block b (gs1 ++ gs2) = [g]) ∧
         ∀ w1' offset2 sz2 w2' blocks2 unfetched2,
           fetches_end any_network w' w1' → MinInt64 ≤ offset2 ≤ MaxInt64 →
           Read_locked offset2 sz2 w1' = Ret (w2', blocks2, unfetched2) →
           b * blockSize w ∈ blocks2 →
           ∃ gs', w_running w2' = w_running w1' ++ gs' ∧ for_block b gs' = []).
Proof.
  intros Hreach. pose proof (reachable_ok _ Hreach) as Hok. split_and!.
  - intros b. apply for_block_le_1, Hok.
  - intros g Hg. destruct (ok_running _ Hok g Hg) as (_ & _ & ? & ?). done.
  - intros offset sz w' blocks unfetched Ho H.
    destruct (Read_locked_spec _ _ _ _ _ _ Hok Ho H)
      as (hi & gs1 & w1 & w2 & gs2 & _ & _ & _ & L1 & _ & _ & _ & Ep & _ & L2 & _ & _ & Hok').
    exists gs1, w1, w2, gs2.
    assert (w_running w' = w_running w ++ gs1 ++ gs2) as Er.
    { destruct (launches_frame _ _ _ L1) as (_ & _ & _ & _ & _ & _ & _ & Er1 & _).
      destruct (launches_frame _ _ _ L2) as (_ & _ & _ & _ & _ & _ & _ & Er2 & _).
      rewrite Er2, app_assoc, <- Er1. f_equal.
      apply Read_purge_spec in Ep as (? & ? & _ & _ & [(_ & _ & ->) | [_ ->]]); done. }
    split_and!; [done..|].
    intros b Hb Hfree.
    destruct (Read_locked_free _ _ _ _ _ _ b Hok Ho H Hb Hfree) as (gs & g & c & Er' & Hg & Hm).
    rewrite Er in Er'. apply app_inv_head in Er'. subst gs.
    split; [by exists g|].
    intros w1' offset2 sz2 w2' blocks2 unfetched2 Hend Ho2 H2 Hb2.
    destruct (fetches_end_active _ _ _ Hend Hok') as [Ea Hok1'].
    destruct (fetches_end_frame _ _ _ Hend Hok') as [Ebs _].
    destruct (Read_locked_frame _ _ _ _ _ _ Hok Ho H) as (Ebs' & _).
    eapply (Read_locked_marked offset2 sz2 w1' w2' blocks2 unfetched2 b c); try done.
    + by rewrite Ebs, Ebs'.
    + by rewrite Ea.
Qed.

Lemma opened_reachable net sz k w :
  0 ≤ sz ≤ MaxInt64 → Examples.open net sz k = Ret w →
  Examples.opened net sz k = w ∧ reachable w.
Proof.
  intros Hsz H. unfold Examples.opened. rewrite H. split; [done|].
  unfold Examples.open in H. inv_bind H as [f r] E. destruct r as [h|e]; [|done].
  injection H as <-.
  apply (reachable_new net Examples.fetcher0 "cafe" sz [Examples.quis] f h k 12);
    [lia | reflexivity | done | done].
Qed.

Lemma reading_reachable : reachable Examples.reading.
Proof.
  destruct (Examples.open (Examples.net_serving 20000) 20000 2) as [w0|] eqn:E0;
    [|vm_compute in E0; discriminate].
  assert (0 ≤ 20000 ≤ MaxInt64) as Hsz by (unfold MaxInt64; lia).
  destruct (opened_reachable _ _ _ _ Hsz E0) as [Eo Hr].
  unfold Examples.reading. rewrite Eo.
  destruct (Read_locked 0 10 w0) as [[[w bl] u]|] eqn:E; [|done].
  apply (reachable_step w0 w Hr).
  apply (step_Read 0 10 w0 w bl u); [unfold MinInt64, MaxInt64; lia.. | | done].
  vm_compute in E0. injection E0 as <-. reflexivity.
Qed.

Lemma single_flight_witness :
  reachable Examples.reading ∧
  (∀ b, (length (in_flight Examples.reading b) ≤ 1)%nat) ∧
  length (w_running Examples.reading) = 3%nat.
Proof.
  split; [exact reading_reachable|]. split; [|reflexivity].
  exact (proj1 (single_flight Examples.reading reading_reachable)).
Defined.

(** ** Prefetch *)

Lemma markers_of_allocated w bl ms c :
  handle_ok w → markers_of w bl ms → Some c ∈ ms → (c < length (w_chans w))%nat.
Proof.
  intros Hok Hms Hc. apply list_elem_of_lookup in Hc as [i Hi].
  destruct (Forall2_lookup_r _ _ _ _ _ Hms Hi) as (b & _ & c' & [= <-] & Hm).
  by eapply ok_alloc.
Qed.

Lemma Read_purge_chans bs64 blocks w w' :
  Read_purge bs64 blocks w = Ret w' → w_chans w' = w_chans w ∧ w_running w' = w_running w.
Proof.
  intros H. by apply Read_purge_spec in H as (? & ? & _ & _ & [(_ & _ & ->) | [_ ->]]).
Qed.

(** C8: the prefetch loop of a [Read] launches at most [prefetchBlocks]
    fetches, after the needed blocks have been handled and the block
    behind them purged.  Each is for one of the blocks
    [last + 1 + i], [i < prefetchBlocks], that follow the last needed
    block, starts within the content and is launched with an empty slot
    without marker; its fresh marker is open and is not in the list the
    [Read] waits on.  Conversely every such block that starts within the
    content and is free gets a fetch. *)
Theorem Read_prefetches offset sz w w3 blocks unfetched :
  reachable w → MinInt64 ≤ offset ≤ MaxInt64 →
  Read_locked offset sz w = Ret (w3, blocks, unfetched) →
  ∃ w1 w2 pf last,
    Read_launch (int64 (blockSize w)) blocks w [] = Ret (w1, unfetched) ∧
    Read_purge (int64 (blockSize w)) blocks w1 = Ret w2 ∧
    index blocks (len blocks - 1) = Ret (last * blockSize w) ∧
    launches w2 pf w3 ∧ w_running w3 = w_running w2 ++ pf ∧
    (length pf ≤ Z.to_nat (prefetchBlocks w))%nat ∧
    (∀ g, g ∈ pf →
       (∃ i, 0 ≤ i < prefetchBlocks w ∧
             Read_prefetch_block (int64 (blockSize w)) blocks i = Ret (g_block g) ∧
             (prefetchBlocks w ≤ MaxInt64 → g_block g = last + 1 + i)) ∧
       g_offset g = g_block g * blockSize w ∧ g_offset g < size w ∧
       slot_free w2 (g_block g) ∧
       ∃ c : chan, active w3 !! Z.to_nat (g_block g) = Some (Some c) ∧
                   w_chans w3 !! c = Some false ∧ Some c ∉ unfetched) ∧
    (∀ i b, 0 ≤ i < prefetchBlocks w →
       Read_prefetch_block (int64 (blockSize w)) blocks i = Ret b →
       mul64 b (int64 (blockSize w)) < size w → slot_free w2 b →
       ∃ g, g ∈ pf ∧ g_block g = b).
Proof.
  intros Hreach Ho H. pose proof (reachable_ok _ Hreach) as Hok.
  destruct (Read_locked_spec _ _ _ _ _ _ Hok Ho H)
    as (hi & gs1 & w1 & w2 & gs2 & _ & Ebl & Hr & L1 & _ & Hms & El & Ep & Epf & _ & Hok1 & Hok2 & _).
  pose proof (ok_blockSize _ Hok) as Hbs.
  assert (blockSize w2 = blockSize w ∧ size w2 = size w ∧ len (cache w2) = len (cache w))
    as (Hbs2 & Hsz2 & Hlen2).
  { rewrite (ok_cache _ Hok2), (ok_cache _ Hok).
    destruct (launches_frame _ _ _ L1) as (_ & _ & _ & Es1 & _).
    rewrite <- (launches_blockSize _ _ _ L1), <- Es1.
    apply Read_purge_spec in Ep as (? & ? & _ & _ & [(_ & _ & ->) | [_ ->]]); done. }
  destruct (Read_prefetch_spec (blockSize w) blocks _ 0 w2 w3 Hok2 ltac:(done) Epf)
    as (pf & L2 & Hlen & Hsound & Hcomp).
  (* the last needed block *)
  assert (offset ÷ blockSize w < hi) as Hne.
  { destruct (Z.lt_ge_cases (offset ÷ blockSize w) hi) as [?|Hge]; [done|].
    apply Read_purge_spec in Ep as (o & ? & Eo & _). rewrite Ebl, seqZ_nil in Eo by lia.
    done. }
  assert (index blocks (len blocks - 1) = Ret ((hi - 1) * blockSize w)) as Elast.
  { apply index_Ret. rewrite Ebl. unfold len. rewrite length_fmap, length_seqZ.
    split; [lia|]. rewrite list_lookup_fmap.
    rewrite lookup_seqZ_lt by lia. simpl. do 2 f_equal. lia. }
  assert (0 ≤ hi - 1 < len (cache w)) as Hlast by (apply Hr; lia).
  exists w1, w2, pf, (hi - 1).
  destruct (launches_frame _ _ _ L2) as (_ & _ & _ & _ & _ & _ & _ & Er2 & _).
  split_and!; try done.
  - intros g Hg. destruct (Hsound g Hg) as (i & Hi & Eb & Eoff & Hlt).
    pose proof (launches_start_free _ _ _ _ L2 Hg) as Hfree.
    pose proof (launches_offset _ _ _ _ L2 Hg) as Eoff'.
    destruct (launches_marker _ _ _ _ L2 Hg) as (c & Hm & Hfresh & Hopen).
    split_and!; try done.
    + exists i. split_and!; [lia | lia | done |].
      intros Hk.
      assert (0 ≤ g_block g < len (cache w)) as Hgr.
      { destruct Hfree as (? & Hc & _). apply lookup_lt_Some in Hc.
        rewrite <- Hlen2. unfold len. lia. }
      unfold Read_prefetch_block in Eb.
      assert (len blocks ≤ MaxInt64) as Hlb.
      { rewrite Ebl. unfold len. rewrite length_fmap, length_seqZ.
        rewrite (ok_cache _ Hok) in Hlast.
        pose proof (ok_slots _ Hok).
        destruct (Hr (offset ÷ blockSize w)); i64. }
      assert (0 < len blocks) as Hlb0.
      { rewrite Ebl. unfold len. rewrite length_fmap, length_seqZ. lia. }
      unfold sub64 in Eb. rewrite (int64_id (len blocks - 1)) in Eb by i64.
      rewrite Elast in Eb. simpl in Eb.
      rewrite div64_block in Eb.
      * simpl in Eb. injection Eb as Eb. rewrite <- Eb.
        rewrite (ok_cache _ Hok) in Hlast, Hgr.
        pose proof (div_le_self (size w) (blockSize w)). pose proof (ok_size _ Hok).
        pose proof (ok_slots _ Hok).
        unfold add64 in *. rewrite (int64_id i) in * by i64.
        rewrite (int64_id (hi - 1 + 1)) in * by i64.
        destruct (Z.le_gt_cases (hi - 1 + 1 + i) MaxInt64) as [Hle|Hgt].
        -- rewrite int64_id by i64. done.
        -- exfalso. unfold int64, two63, two64, MinInt64, MaxInt64 in *.
           replace (hi - 1 + 1 + i + 9223372036854775808)
             with ((hi + i - 9223372036854775808) + 1 * 18446744073709551616) in Eb by lia.
           rewrite Z.mod_add, Z.mod_small in Eb by lia. lia.
      * rewrite <- Hbs2. apply Hok2.
      * destruct (handle_ok_block_offset w (hi - 1) Hok Hlast) as (? & _). pose proof (ok_size _ Hok). i64.
    + by rewrite Hbs2 in Eoff'.
    + by rewrite <- Hsz2.
    + exists c. split_and!; [done..|].
      intros Hin. apply (markers_of_allocated w1 _ _ _ Hok1 Hms) in Hin.
      destruct (Read_purge_chans _ _ _ _ Ep) as [Ech _]. rewrite Ech in Hfresh. lia.
  - intros i b Hi Eb Hlt Hfree.
    apply (Hcomp i b); [lia | done | by rewrite Hsz2 | done].
Qed.

Lemma Read_prefetches_witness :
  ∃ w1 w2 pf,
    Read_locked 0 10 (Examples.opened (Examples.net_serving 20000) 20000 2)
      = Ret (Examples.reading, [0], [Some 0%nat]) ∧
    Read_launch 4096 [0] (Examples.opened (Examples.net_serving 20000) 20000 2) []
      = Ret (w1, [Some 0%nat]) ∧
    Read_purge 4096 [0] w1 = Ret w2 ∧
    w_running Examples.reading = w_running w2 ++ pf ∧
    (length pf ≤ 2)%nat.
Proof.
  destruct (Examples.open (Examples.net_serving 20000) 20000 2) as [w0|] eqn:E0;
    [|vm_compute in E0; discriminate].
  assert (0 ≤ 20000 ≤ MaxInt64) as Hsz by (unfold MaxInt64; lia).
  destruct (opened_reachable _ _ _ _ Hsz E0) as [Eo Hr].
  assert (MinInt64 ≤ 0 ≤ MaxInt64) as Ho by (unfold MinInt64, MaxInt64; lia).
  assert (Read_locked 0 10 (Examples.opened (Examples.net_serving 20000) 20000 2)
          = Ret (Examples.reading, [0], [Some 0%nat])) as E by (vm_compute; reflexivity).
  rewrite <- Eo in Hr.
  destruct (Read_prefetches 0 10 _ _ _ _ Hr Ho E)
    as (w1 & w2 & pf & last & El & Ep & _ & _ & Er & Hlen & _).
  exists w1, w2, pf. split_and!; [done | exact El | exact Ep | exact Er | exact Hlen].
Defined.

(** ** The wait of [Read] *)

Lemma finish_chans b r c w : w_chans (finish b r c w) = <[c := true]> (w_chans w).
Proof. unfold finish. by destruct (r.2). Qed.

Lemma finish_active b r c w : active (finish b r c w) = active w.
Proof. unfold finish. by destruct (r.2). Qed.

Lemma finish_running b r c w : w_running (finish b r c w) = w_running w.
Proof. unfold finish. by destruct (r.2). Qed.

Lemma finish_closed_stays b r c w m :
  is_closed w m = true → is_closed (finish b r c w) m = true.
Proof.
  destruct m as [c'|]; [|done]. unfold is_closed. rewrite finish_chans.
  destruct (w_chans w !! c') as [[]|] eqn:E; try done. intros _.
  destruct (decide (c = c')) as [->|Hne].
  - rewrite list_lookup_insert_eq; [done|]. by apply lookup_lt_Some in E.
  - rewrite list_lookup_insert_ne by done. by rewrite E.
Qed.

Lemma fetches_end_closed N w w' m :
  fetches_end N w w' → handle_ok w → is_closed w m = true → is_closed w' m = true.
Proof.
  induction 1 as [w | net i w w1 w' _ Hi H _ IH]; intros Hok Hm; [done|].
  destruct (lookup_lt_is_Some_2 _ _ Hi) as [g Hg].
  destruct (run_goroutine_spec net i w g Hok Hg) as (c & Hc & Hch & E).
  rewrite E in H. injection H as <-.
  apply IH; [by apply finish_ok|]. by apply finish_closed_stays.
Qed.

Lemma fetches_end_trans N w1 w2 w3 :
  fetches_end N w1 w2 → fetches_end N w2 w3 → fetches_end N w1 w3.
Proof.
  induction 1 as [w | net i w w1 w' HN Hi H _ IH]; [done|].
  intros H3. eapply fetches_end_step; eauto.
Qed.

(** One [select] on the marker of a block: it is interrupted, or it goes on
    with the marker closed, after the goroutine that owns it has ended if
    it was open.  It neither panics nor blocks. *)
Lemma await_spec net sch c w b :
  handle_ok w → active w !! b = Some (Some c) →
  (await net sch (Some c) w = Ret None ∧ ctx_done sch = true) ∨
  ∃ w', await net sch (Some c) w = Ret (Some w') ∧ is_closed w' (Some c) = true ∧
        fetches_end (λ n, n = net) w w'.
Proof.
  intros Hok Hm. unfold await.
  destruct (is_closed w (Some c)) eqn:Ecl.
  - destruct (ctx_done sch) eqn:Ed.
    + destruct (ctx_first sch); simpl; [by left|].
      right. exists w. split_and!; [done..|constructor].
    + right. exists w. split_and!; [done..|constructor].
  - destruct (ctx_done sch) eqn:Ed; [by left|]. right.
    pose proof (ok_alloc _ Hok _ _ Hm) as Hlt.
    destruct (lookup_lt_is_Some_2 _ _ Hlt) as [st Hst].
    assert (st = false) as ->.
    { unfold is_closed in Ecl. rewrite Hst in Ecl. by destruct st. }
    destruct (ok_open _ Hok _ _ Hm Hst) as (g & Hg & Eg).
    destruct (list_find_elem_of
                (λ g, 0 ≤ g_block g ∧ active w !! Z.to_nat (g_block g) = Some (Some c))
                (w_running w) g Hg) as [[i g'] Hfind].
    { rewrite Eg, Nat2Z.id. split; [lia | done]. }
    unfold owner. rewrite Hfind.
    apply list_find_Some in Hfind as (Hi & [_ Hm'] & _).
    destruct (run_goroutine_spec net i w g' Hok Hi) as (c' & Hc' & Hch' & E).
    rewrite Hm' in Hc'. injection Hc' as <-.
    rewrite E. simpl. eexists. split_and!; [done| |].
    + unfold is_closed. rewrite finish_chans. simpl.
      by rewrite list_lookup_insert_eq.
    + eapply fetches_end_step; [done| |exact E|constructor].
      by apply lookup_lt_Some in Hi.
Qed.

(** The wait neither panics nor blocks; it only lets goroutines end, and
    when it is not interrupted all the markers it waited for are closed. *)
Lemma markers_of_active w w' bl ms :
  active w' = active w → markers_of w bl ms → markers_of w' bl ms.
Proof. unfold markers_of. by intros ->. Qed.

Lemma Read_wait_spec net sch ms : ∀ bl w,
  handle_ok w → markers_of w bl ms →
  ∃ w' intr, Read_wait net sch ms w = Ret (w', intr) ∧
    fetches_end (λ n, n = net) w w' ∧
    (intr = true → ctx_done sch = true) ∧
    (intr = false → Forall (λ m, is_closed w' m = true) ms).
Proof.
  induction ms as [|m ms IH]; intros bl w Hok Hms; simpl.
  - exists w, false. split_and!; [done | constructor | done | by constructor].
  - apply Forall2_cons_inv_r in Hms as (b & bl' & (c & -> & Hm) & Hms & ->).
    destruct (await_spec net sch c w _ Hok Hm) as [[-> Hd] | (w1 & -> & Hcl & Hend)]; simpl.
    + exists w, true. split_and!; [done | constructor | done | done].
    + destruct (fetches_end_active _ _ _ Hend Hok) as [Ea Hok1].
      destruct (IH bl' w1 Hok1 (markers_of_active _ _ _ _ Ea Hms))
        as (w' & intr & -> & Hend' & Hi & Hcls).
      exists w', intr. split_and!; [done | by eapply fetches_end_trans | done |].
      intros Hint. constructor; [|by apply Hcls].
      by eapply fetches_end_closed.
Qed.

Lemma for_block_delete b i gs : for_block b gs = [] → for_block b (delete i gs) = [].
Proof.
  intros H. apply for_block_nil. intros g Hg E.
  assert (g ∈ gs) as Hin by (by eapply list_elem_of_delete_inv).
  assert (g ∈ for_block b gs) as Hf by (by apply list_elem_of_filter).
  rewrite H in Hf. by apply elem_of_nil in Hf.
Qed.

Lemma for_block_nil_inv b gs g : for_block b gs = [] → g ∈ gs → g_block g ≠ b.
Proof.
  intros H Hg E. assert (g ∈ for_block b gs) as Hf by (by apply list_elem_of_filter).
  rewrite H in Hf. by apply elem_of_nil in Hf.
Qed.

(** While goroutines end, a block without goroutine keeps its slot, and a
    recorded error stays recorded. *)
Lemma fetches_end_idle N w w' b :
  fetches_end N w w' → handle_ok w → 0 ≤ b → in_flight w b = [] →
  cache w' !! Z.to_nat b = cache w !! Z.to_nat b ∧ in_flight w' b = [].
Proof.
  induction 1 as [w | net i w w1 w' _ Hi H _ IH]; intros Hok Hb Hidle; [done|].
  destruct (lookup_lt_is_Some_2 _ _ Hi) as [g Hg].
  destruct (run_goroutine_spec net i w g Hok Hg) as (c & Hc & Hch & E).
  rewrite E in H. injection H as <-.
  destruct IH as [-> ->]; [by apply finish_ok | done | |].
  - unfold in_flight. rewrite finish_running. simpl. by apply for_block_delete.
  - split; [|done]. unfold finish. destruct (_.2); [done|].
    unfold cache; simpl. rewrite list_lookup_insert_ne; [done|].
    pose proof (for_block_nil_inv _ _ _ Hidle (list_elem_of_lookup_2 _ _ _ Hg)).
    destruct (ok_running _ Hok g) as (? & _); [by eapply list_elem_of_lookup_2|]. lia.
Qed.

Lemma fetches_end_lastErr N w w' :
  fetches_end N w w' → handle_ok w → is_Some (lastErr w) → is_Some (lastErr w').
Proof.
  induction 1 as [w | net i w w1 w' _ Hi H _ IH]; intros Hok He; [done|].
  destruct (lookup_lt_is_Some_2 _ _ Hi) as [g Hg].
  destruct (run_goroutine_spec net i w g Hok Hg) as (c & Hc & Hch & E).
  rewrite E in H. injection H as <-.
  apply IH; [by apply finish_ok|]. unfold finish. by destruct (_.2).
Qed.

(** ** The second critical section *)

Lemma Read_gather_missing bs bl w : ∀ bufs,
  0 < bs ≤ MaxInt64 →
  (∀ b, b ∈ bl → (0 ≤ b < len (cache w)) ∧ MinInt64 ≤ b * bs ≤ MaxInt64) →
  (∃ b, b ∈ bl ∧ cache w !! Z.to_nat b = Some None) →
  Read_gather (int64 bs) ((λ b, b * bs) <$> bl) w bufs = Ret (inr (lastErr w)).
Proof.
  induction bl as [|b bl IH]; intros bufs Hbs Hr (b' & Hb' & Hnone).
  - by apply elem_of_nil in Hb'.
  - simpl. destruct (Hr b) as [Hb Hov]; [by left|].
    rewrite div64_block by done. simpl.
    destruct (lookup_lt_is_Some_2 (cache w) (Z.to_nat b)) as [cb Ecb];
      [unfold len in Hb; lia|].
    rewrite (bind_Ret _ _ cb) by (apply index_Ret; split; [lia | done]).
    destruct cb as [buf|]; [|done].
    apply IH; [done| |].
    + intros x Hx. apply Hr. by right.
    + exists b'. split; [|done]. apply elem_of_cons in Hb' as [->|?]; [congruence | done].
Qed.

Lemma Read_gather_cached bs bl w : ∀ bufs got,
  0 < bs ≤ MaxInt64 →
  (∀ b, b ∈ bl → (0 ≤ b < len (cache w)) ∧ MinInt64 ≤ b * bs ≤ MaxInt64) →
  Forall2 (λ b buf, cache w !! Z.to_nat b = Some (Some buf)) bl got →
  Read_gather (int64 bs) ((λ b, b * bs) <$> bl) w bufs = Ret (inl (bufs ++ got)).
Proof.
  induction bl as [|b bl IH]; intros bufs got Hbs Hr Hgot.
  - apply Forall2_nil_inv_l in Hgot as ->. by rewrite app_nil_r.
  - apply Forall2_cons_inv_l in Hgot as (buf & got' & Hbuf & Hgot & ->).
    simpl. destruct (Hr b) as [Hb Hov]; [by left|].
    rewrite div64_block by done. simpl.
    rewrite (bind_Ret _ _ (Some buf)) by (apply index_Ret; split; [lia | done]).
    replace (bufs ++ buf :: got') with ((bufs ++ [buf]) ++ got') by (by rewrite <- app_assoc).
    apply IH; [done | | done].
    intros x Hx. apply Hr. by right.
Qed.

(** ** Failed fetches *)

(** In [Examples.failing] the fetch of block 0 fails; the [Read(0, 10)]
    that follows launches nothing. *)
Lemma failed_fetch_is_retried_refuted :
  ¬ failed_fetch_is_retried Examples.net_deaf Examples.failing 0.
Proof.
  intros H.
  destruct (run_goroutine Examples.net_deaf 0 Examples.failing) as [w1|] eqn:E1;
    [|vm_compute in E1; discriminate].
  destruct (H {| g_offset := 0; g_block := 0 |} "unreachable"%string w1) as (_ & _ & Hretry);
    [reflexivity | reflexivity | done |].
  destruct (Read_locked 0 10 w1) as [[[w2 bl] u]|] eqn:E2;
    [|vm_compute in E1; injection E1 as <-; vm_compute in E2; discriminate].
  apply (Hretry 0 10 w2 bl u E2).
  - vm_compute in E1. injection E1 as <-. vm_compute in E2. injection E2 as _ <- _. by left.
  - vm_compute in E1. injection E1 as <-. vm_compute in E2. injection E2 as <- _ _.
    reflexivity.
Qed.

Lemma index_first_block bs lo n :
  0 < n → index ((λ b, b * bs) <$> seqZ lo n) 0 = Ret (lo * bs).
Proof.
  intros Hn. apply index_Ret. split; [lia|]. change (Z.to_nat 0) with 0%nat.
  rewrite list_lookup_fmap, lookup_seqZ_lt by lia. simpl. do 2 f_equal. lia.
Qed.

Lemma Forall2_and_l {A B} (P : A → Prop) (R : A → B → Prop) l k :
  Forall P l → Forall2 R l k → Forall2 (λ a b, P a ∧ R a b) l k.
Proof.
  intros HP HR. revert HP. induction HR as [|a b l k Hab HR IH]; intros HP; [constructor|].
  apply Forall_cons in HP as [Ha HP]. constructor; [done | by apply IH].
Qed.

(** What a [Read] finds after its first critical section: its blocks are
    in range, the markers it waits for are those of the needed blocks that
    were not cached, empty slots are still empty and no slot was filled. *)
Lemma Read_locked_after offset sz w w' blocks unfetched :
  handle_ok w → MinInt64 ≤ offset ≤ MaxInt64 →
  Read_locked offset sz w = Ret (w', blocks, unfetched) →
  ∃ lo hi,
    blocks = (λ b, b * blockSize w) <$> seqZ lo (hi - lo) ∧ lo < hi ∧
    (∀ b, lo ≤ b < hi →
       (0 ≤ b < len (cache w')) ∧ MinInt64 ≤ b * blockSize w ≤ MaxInt64) ∧
    markers_of w' (filter (uncached w) (seqZ lo (hi - lo))) unfetched ∧
    (∀ b, cache w !! b = Some None → cache w' !! b = Some None) ∧
    (∀ b buf, cache w' !! b = Some (Some buf) → cache w !! b = Some (Some buf)) ∧
    handle_ok w' ∧
    lo = offset ÷ blockSize w ∧
    hi = sub64 (add64 offset (int64 (add64 sz (blockSize w)))) 1 ÷ blockSize w ∧
    (∀ b buf, lo ≤ b < hi → cache w !! Z.to_nat b = Some (Some buf) →
              cache w' !! Z.to_nat b = Some (Some buf)).
Proof.
  intros Hok Ho H.
  destruct (Read_locked_spec _ _ _ _ _ _ Hok Ho H)
    as (hi & gs1 & w1 & w2 & gs2 & Ehi & Ebl & Hr & L1 & _ & Hms & _ & Ep & _ & L2 & Hok1 & Hok2 & Hok3).
  destruct (Read_locked_frame _ _ _ _ _ _ Hok Ho H) as (Ebs & Esz & _).
  destruct (launches_frame _ _ _ L1) as (_ & Ec1 & _).
  destruct (launches_frame _ _ _ L2) as (_ & Ec2 & _).
  assert (offset ÷ blockSize w < hi) as Hne.
  { destruct (Z.lt_ge_cases (offset ÷ blockSize w) hi) as [?|Hge]; [done|].
    apply Read_purge_spec in Ep as (o & ? & Eo & _). rewrite Ebl, seqZ_nil in Eo by lia.
    done. }
  assert (cache w2 = cache w1 ∧ active w2 = active w1 ∨
          ∃ p buf, cache w1 !! p = Some (Some buf) ∧
                   cache w2 = <[p := None]> (cache w1) ∧
                   active w2 = <[p := None]> (active w1) ∧
                   Z.of_nat p < offset ÷ blockSize w) as Hpurge.
  { pose proof Ep as Ep'.
    apply Read_purge_spec in Ep' as (o & q & Eo & Eq & [(Hp & [buf Hbuf] & ->) | [_ ->]]);
      [right | by left].
    exists (Z.to_nat (sub64 q 1)), buf. split_and!; [done..|].
    rewrite Ebl, index_first_block in Eo by lia. injection Eo as <-.
    pose proof (ok_blockSize _ Hok) as Hbs.
    destruct (Hr (offset ÷ blockSize w)) as [Hlo0 Hlo1]; [lia|].
    rewrite div64_block in Eq.
    - injection Eq as <-. unfold sub64 in *.
      rewrite (ok_cache _ Hok) in Hlo1. pose proof (ok_slots _ Hok).
      rewrite int64_id in * by i64. lia.
    - done.
    - destruct (handle_ok_block_offset w _ Hok (conj Hlo0 Hlo1)) as (? & _).
      pose proof (ok_size _ Hok). i64. }
  exists (offset ÷ blockSize w), hi. split_and!; try done.
  - intros b Hb. pose proof (Hr b Hb) as Hbr. split.
    + by rewrite (ok_cache _ Hok3), Ebs, Esz, <- (ok_cache _ Hok).
    + destruct (handle_ok_block_offset w b Hok Hbr) as (? & _).
      pose proof (ok_size _ Hok). i64.
  - apply (markers_of_launches _ _ _ _ _ L2).
    destruct Hpurge as [[_ Ea] | (p & buf & Hbuf & _ & Ea & _)];
      [by apply (markers_of_active w1)|].
    apply (Forall2_and_l (λ b, uncached w b)) in Hms.
    2:{ apply Forall_forall. intros b Hb. by apply list_elem_of_filter in Hb as [? _]. }
    eapply Forall2_impl; [exact Hms|]. intros b m (Hu & c & -> & Hc). exists c. split; [done|].
    rewrite Ea. rewrite list_lookup_insert_ne; [done|].
    intros E. rewrite Ec1, E in Hbuf. unfold uncached in Hu. by rewrite Hbuf in Hu.
  - intros b Hb. rewrite Ec2.
    destruct Hpurge as [[-> _] | (p & buf & Hbuf & -> & _)]; [by rewrite Ec1|].
    rewrite list_lookup_insert_ne; [by rewrite Ec1|]. intros <-. congruence.
  - intros b buf. rewrite Ec2.
    destruct Hpurge as [[-> _] | (p & buf' & Hbuf & -> & _)]; [by rewrite Ec1|].
    intros Hb. destruct (decide (p = b)) as [<-|Hne'].
    + apply list_lookup_insert_Some in Hb as [(_ & ? & _) | [? _]]; done.
    + rewrite list_lookup_insert_ne in Hb by done. by rewrite <- Ec1.
  - intros b buf Hb Hcb. rewrite Ec2.
    destruct Hpurge as [[-> _] | (p & buf' & Hbuf & -> & _ & Hp)]; [by rewrite Ec1|].
    rewrite list_lookup_insert_ne; [by rewrite Ec1|]. lia.
Qed.

(** A [Read] that is not cancelled and finds a needed block empty after its
    wait returns [lastErr]. *)
Lemma Read_missing net sch offset sz w w2 blocks unfetched b :
  handle_ok w → MinInt64 ≤ offset ≤ MaxInt64 → offset < size w →
  Read_locked offset sz w = Ret (w2, blocks, unfetched) →
  ctx_done sch = false →
  b * blockSize w ∈ blocks → cache w2 !! Z.to_nat b = Some None → in_flight w2 b = [] →
  ∃ w3, Read net sch offset sz w = Ret ([], lastErr w3, w3) ∧
        fetches_end (λ n, n = net) w2 w3 ∧
        cache w3 !! Z.to_nat b = Some None ∧ in_flight w3 b = [].
Proof.
  intros Hok Ho Hlt H Hctx Hb Hc Hidle.
  destruct (Read_locked_after _ _ _ _ _ _ Hok Ho H)
    as (lo & hi & Ebl & Hne & Hr & Hms & _ & _ & Hok2 & _).
  destruct (Read_wait_spec net sch unfetched _ w2 Hok2 Hms) as (w3 & intr & Ew & Hend & Hi & _).
  destruct intr; [rewrite Hi in Hctx; done|].
  pose proof (ok_blockSize _ Hok) as Hbs.
  rewrite Ebl in Hb. apply block_needed in Hb; [|lia].
  destruct (fetches_end_idle _ _ _ b Hend Hok2 ltac:(destruct (Hr b); lia) Hidle) as [Ec3 Hidle3].
  destruct (fetches_end_active _ _ _ Hend Hok2) as [_ Hok3].
  destruct (fetches_end_frame _ _ _ Hend Hok2) as [Ebs3 Esz3].
  exists w3. split_and!; [|done|by rewrite Ec3|done].
  unfold Read. destruct (Z.geb_spec offset (size w)); [lia|].
  rewrite H. simpl. rewrite Ew. simpl.
  rewrite Ebl, (Read_gather_missing (blockSize w)); [done|done| |].
  - intros b' Hb'. apply seqZ_elem in Hb'. destruct (Hr b') as [Hb1 Hb2]; [lia|].
    split; [|done]. rewrite (ok_cache _ Hok3), Ebs3, Esz3, <- (ok_cache _ Hok2). done.
  - exists b. split; [apply seqZ_elem; lia | by rewrite Ec3].
Qed.

(** C3, as the code has it: when a fetch of block [b] fails on all peers,
    its goroutine records the error in [lastErr] and closes the marker, but
    leaves the marker in place: the slot is empty, marked, and no goroutine
    is in flight for it.  A later [Read] that needs [b] therefore launches
    no fetch for [b]; if it is not cancelled it returns no data and the
    error recorded last, and [b] is still neither cached nor in flight. *)
Theorem failed_fetch_not_retried net i w g e :
  reachable w → w_running w !! i = Some g →
  (realFetch net w (g_offset g)).2 = Some e →
  ∃ w1 c,
    run_goroutine net i w = Ret w1 ∧
    lastErr w1 = Some e ∧
    cache w1 !! Z.to_nat (g_block g) = Some None ∧
    active w1 !! Z.to_nat (g_block g) = Some (Some c) ∧ w_chans w1 !! c = Some true ∧
    in_flight w1 (g_block g) = [] ∧
    ∀ net' sch offset sz w2 blocks unfetched,
      MinInt64 ≤ offset ≤ MaxInt64 → offset < size w1 →
      Read_locked offset sz w1 = Ret (w2, blocks, unfetched) →
      g_offset g ∈ blocks →
      in_flight w2 (g_block g) = [] ∧
      (ctx_done sch = false →
       ∃ e' w3, Read net' sch offset sz w1 = Ret ([], Some e', w3) ∧
                cache w3 !! Z.to_nat (g_block g) = Some None ∧
                in_flight w3 (g_block g) = []).
Proof.
  intros Hreach Hg He. pose proof (reachable_ok _ Hreach) as Hok.
  destruct (run_goroutine_spec net i w g Hok Hg) as (c & Hm & Hch & E).
  destruct (ok_running _ Hok g) as (Hb0 & Hoff & Hcg & _); [by eapply list_elem_of_lookup_2|].
  pose proof (finish_ok i w g (realFetch net w (g_offset g)) c Hok Hg Hm) as Hok1.
  set (w1 := finish _ _ _ _) in *.
  assert (lastErr w1 = Some e) as Hle by (unfold w1, finish; by rewrite He).
  assert (cache w1 = cache w) as Ec1 by (unfold w1, finish; by rewrite He).
  assert (blockSize w1 = blockSize w) as Ebs by (unfold w1, finish; by rewrite He).
  assert (in_flight w1 (g_block g) = []) as Hidle.
  { unfold in_flight, w1. rewrite finish_running. simpl. apply for_block_nil.
    intros g' Hg'. by destruct (elem_of_delete_NoDup g_block _ _ _ _ (ok_nodup _ Hok) Hg Hg'). }
  exists w1, c. split_and!; try done.
  - by rewrite Ec1.
  - unfold w1. by rewrite finish_active.
  - unfold w1. rewrite finish_chans. simpl. apply list_lookup_insert_eq.
    by apply lookup_lt_Some in Hch.
  - intros net' sch offset sz w2 blocks unfetched Ho Hlt H Hin.
    assert (active w1 !! Z.to_nat (g_block g) = Some (Some c)) as Hm1
      by (unfold w1; by rewrite finish_active).
    rewrite Hoff, <- Ebs in Hin.
    destruct (Read_locked_marked _ _ _ _ _ _ _ c Hok1 Ho H Hin Hm1) as (gs & Er & Hgs).
    assert (in_flight w2 (g_block g) = []) as Hidle2.
    { unfold in_flight in *. by rewrite Er, for_block_app, Hidle, Hgs. }
    split; [done|]. intros Hctx.
    destruct (Read_locked_after _ _ _ _ _ _ Hok1 Ho H)
      as (_ & _ & _ & _ & _ & _ & Hkeep & _ & Hok2 & _).
    destruct (Read_locked_frame _ _ _ _ _ _ Hok1 Ho H) as (_ & _ & Hle2).
    destruct (Read_missing net' sch offset sz w1 w2 blocks unfetched (g_block g)
                Hok1 Ho Hlt H Hctx Hin) as (w3 & ER & Hend & Hc3 & Hidle3); [|done|].
    { apply Hkeep. by rewrite Ec1. }
    destruct (fetches_end_lastErr _ _ _ Hend Hok2) as [e' He']; [by rewrite Hle2, Hle|].
    exists e', w3. by rewrite ER, He'.
Qed.

Lemma failing_reachable : reachable Examples.failing.
Proof.
  destruct (Examples.open Examples.net_deaf 5000 0) as [w0|] eqn:E0;
    [|vm_compute in E0; discriminate].
  assert (0 ≤ 5000 ≤ MaxInt64) as Hsz by (unfold MaxInt64; lia).
  destruct (opened_reachable _ _ _ _ Hsz E0) as [Eo Hr].
  unfold Examples.failing. rewrite Eo.
  destruct (Read_locked 0 10 w0) as [[[w bl] u]|] eqn:E; [|done].
  apply (reachable_step w0 w Hr).
  apply (step_Read 0 10 w0 w bl u); [unfold MinInt64, MaxInt64; lia.. | | done].
  vm_compute in E0. injection E0 as <-. reflexivity.
Qed.

Lemma failed_fetch_not_retried_witness :
  ∃ w1 c,
    run_goroutine Examples.net_deaf 0 Examples.failing = Ret w1 ∧
    lastErr w1 = Some "unreachable"%string ∧
    cache w1 !! 0%nat = Some None ∧
    active w1 !! 0%nat = Some (Some c) ∧ w_chans w1 !! c = Some true ∧
    in_flight w1 0 = [].
Proof.
  destruct (failed_fetch_not_retried Examples.net_deaf 0 Examples.failing
              {| g_offset := 0; g_block := 0 |} "unreachable"%string
              failing_reachable eq_refl eq_refl)
    as (w1 & c & E & Hle & Hc & Hm & Hch & Hidle & _).
  exists w1, c. split_and!; [exact E | exact Hle | exact Hc | exact Hm | exact Hch | exact Hidle].
Defined.

(** ** Progress and panics of the first critical section *)

(** One iteration of the loop over the needed blocks, for a block in
    range. *)
Lemma Read_launch_step b w :
  handle_ok w → 0 ≤ b < len (cache w) →
  ∃ w1 ms, handle_ok w1 ∧ cache w1 = cache w ∧ blockSize w1 = blockSize w ∧
    ∀ rest u,
      Read_launch (int64 (blockSize w)) (b * blockSize w :: rest) w u
      = Read_launch (int64 (blockSize w)) rest w1 (u ++ ms).
Proof.
  intros Hok Hb.
  destruct (handle_ok_block_offset w b Hok Hb) as (Hr & _ & _).
  pose proof (ok_blockSize _ Hok) as Hbs. pose proof (ok_size _ Hok) as Hsz.
  assert (div64 (b * blockSize w) (int64 (blockSize w)) = Ret b) as Ed
    by (apply div64_block; [done | i64]).
  destruct (lookup_lt_is_Some_2 (cache w) (Z.to_nat b)) as [cb Ecb]; [unfold len in Hb; lia|].
  destruct (lookup_lt_is_Some_2 (active w) (Z.to_nat b)) as [ab Eab].
  { pose proof (ok_cache _ Hok). pose proof (ok_active _ Hok). unfold len in *. lia. }
  destruct cb as [buf|]; [|destruct ab as [c|]].
  - exists w, []. split_and!; [done..|]. intros rest u. simpl. rewrite Ed. simpl.
    rewrite (bind_Ret _ _ (Some buf)) by (apply index_Ret; split; [lia|done]).
    by rewrite app_nil_r.
  - exists w, [Some c]. split_and!; [done..|]. intros rest u. simpl. rewrite Ed. simpl.
    rewrite (bind_Ret _ _ None) by (apply index_Ret; split; [lia|done]). simpl.
    rewrite (bind_Ret _ _ (Some c)) by (apply index_Ret; split; [lia|done]). simpl.
    by rewrite (bind_Ret _ _ (Some c)) by (apply index_Ret; split; [lia|done]).
  - set (g := {| g_offset := b * blockSize w; g_block := b |}).
    assert (handle_ok (launch g w)) as Hok1.
    { apply launch_ok; [done | | done]. split_and!; [simpl; lia | done | done]. }
    exists (launch g w), [Some (length (w_chans w))]. split_and!; [done..|].
    intros rest u. simpl. rewrite Ed. simpl.
    rewrite (bind_Ret _ _ None) by (apply index_Ret; split; [lia|done]). simpl.
    rewrite (bind_Ret _ _ None) by (apply index_Ret; split; [lia|done]). simpl.
    rewrite (fetch_free _ _ b Ed).
    2:{ pose proof (ok_cache _ Hok). pose proof (ok_active _ Hok). lia. }
    simpl. fold g.
    rewrite (bind_Ret _ _ (Some (length (w_chans w)))); [done|].
    apply index_Ret. split; [lia|]. unfold launch, active; simpl.
    apply list_lookup_insert_eq. by apply lookup_lt_Some in Eab.
Qed.

Lemma Read_launch_total bl : ∀ w u,
  handle_ok w → (∀ b, b ∈ bl → 0 ≤ b < len (cache w)) →
  ∃ w' u', Read_launch (int64 (blockSize w)) ((λ b, b * blockSize w) <$> bl) w u = Ret (w', u').
Proof.
  induction bl as [|b bl IH]; intros w u Hok Hr; [by eexists _, _|].
  destruct (Read_launch_step b w Hok) as (w1 & ms & Hok1 & Ec & Ebs & Estep); [apply Hr; by left|].
  rewrite fmap_cons, Estep. rewrite <- Ebs. apply IH; [done|].
  intros b' Hb'. rewrite Ec. apply Hr. by right.
Qed.

(** The loop over the needed blocks panics at the first block without
    slot. *)
Lemma Read_launch_out_of_range bl1 b bl2 : ∀ w u,
  handle_ok w → (∀ b', b' ∈ bl1 → 0 ≤ b' < len (cache w)) →
  MinInt64 ≤ b * blockSize w ≤ MaxInt64 → ¬ (0 ≤ b < len (cache w)) →
  Read_launch (int64 (blockSize w)) ((λ b, b * blockSize w) <$> (bl1 ++ b :: bl2)) w u
  = Panic IndexOutOfRange.
Proof.
  induction bl1 as [|b1 bl1 IH]; intros w u Hok Hr Hov Hb.
  - simpl. rewrite div64_block by (first [apply Hok | done]). simpl.
    rewrite (bind_Panic _ _ IndexOutOfRange); [done|]. apply index_Panic. lia.
  - destruct (Read_launch_step b1 w Hok) as (w1 & ms & Hok1 & Ec & Ebs & Estep);
      [apply Hr; by left|].
    rewrite <- app_comm_cons, fmap_cons, Estep.
    rewrite <- Ebs. apply IH; [done| |by rewrite Ebs|by rewrite Ec].
    intros b' Hb'. rewrite Ec. apply Hr. by right.
Qed.

(** The block list when nothing overflows: the blocks from that of
    [offset] to that of the last requested byte. *)
Lemma Read_blocks_exact offset sz bs :
  0 < bs ≤ MaxInt64 → 0 ≤ offset → 0 ≤ sz → offset + sz + bs ≤ MaxInt64 →
  Read_blocks offset sz bs
  = Ret ((λ b, b * bs) <$> seqZ (offset / bs) ((offset + sz + bs - 1) / bs - offset / bs)).
Proof.
  intros Hbs Ho Hsz Hov.
  assert (MinInt64 ≤ offset ≤ MaxInt64) as Ho' by i64.
  destruct (Read_blocks offset sz bs) as [blocks|p] eqn:E.
  - destruct (Read_blocks_spec _ _ _ _ Hbs Ho' E) as (hi & Ehi & -> & _).
    unfold sub64, add64 in Ehi.
    rewrite (int64_id (sz + bs)) in Ehi by i64.
    rewrite (int64_id (sz + bs)) in Ehi by i64.
    rewrite (int64_id (offset + _)) in Ehi by i64.
    rewrite (int64_id (_ - 1)) in Ehi by i64.
    rewrite !quot_nonneg in * by lia.
    subst hi. by replace (offset + (sz + bs) - 1) with (offset + sz + bs - 1) by lia.
  - unfold Read_blocks in E. rewrite (int64_id bs) in E by i64.
    rewrite !div64_Ret in E by lia. done.
Qed.

(** A [Read] whose block list is empty panics at [blocks[0]]. *)
Lemma Read_no_blocks net sch offset sz w :
  offset < size w → Read_blocks offset sz (blockSize w) = Ret [] →
  Read net sch offset sz w = Panic IndexOutOfRange.
Proof.
  intros Hlt E. unfold Read. destruct (Z.geb_spec offset (size w)); [lia|].
  unfold Read_locked. rewrite E. done.
Qed.

(** A [Read] that needs a block without slot panics in its first loop. *)
Lemma Read_no_slot net sch offset sz w lo n b :
  handle_ok w → offset < size w →
  Read_blocks offset sz (blockSize w) = Ret ((λ b, b * blockSize w) <$> seqZ lo n) →
  0 ≤ lo → lo ≤ b < lo + n → len (cache w) ≤ b → b * blockSize w ≤ MaxInt64 →
  Read net sch offset sz w = Panic IndexOutOfRange.
Proof.
  intros Hok Hlt E Hlo Hb Hlen Hov.
  unfold Read. destruct (Z.geb_spec offset (size w)); [lia|].
  unfold Read_locked. rewrite E. simpl.
  set (m := len (cache w)) in *.
  assert (lo ≤ m ∨ m < lo) as [Hm|Hm] by lia.
  - replace n with ((m - lo) + (1 + (n - (m - lo) - 1))) by lia.
    rewrite seqZ_app by lia. rewrite (seqZ_cons (lo + (m - lo))) by lia.
    rewrite Read_launch_out_of_range; [done|done| | |].
    + intros b' Hb'. apply seqZ_elem in Hb'. lia.
    + pose proof (ok_blockSize _ Hok). unfold MinInt64, MaxInt64 in *. nia.
    + lia.
  - rewrite (seqZ_cons lo) by lia.
    change (lo :: seqZ (Z.succ lo) (Z.pred n))
      with ([] ++ lo :: seqZ (Z.succ lo) (Z.pred n)).
    rewrite (Read_launch_out_of_range [] lo); [done|done| | |].
    + intros b' Hb'. by apply elem_of_nil in Hb'.
    + pose proof (ok_blockSize _ Hok). unfold MinInt64, MaxInt64 in *. nia.
    + lia.
Qed.

(** C2, where the code breaks it.  [Read] does not clip the requested
    range to the content: when the range ends beyond the last slot of the
    arrays, and also when the length is 0 at a block boundary (the block
    list is then empty), [Read] panics with an index out of range. *)
Theorem Read_index_out_of_range net sch offset sz w :
  reachable w → 0 ≤ offset < size w → 0 ≤ sz →
  offset + sz + blockSize w ≤ MaxInt64 →
  len (cache w) * blockSize w < offset + sz ∨ (sz = 0 ∧ offset mod blockSize w = 0) →
  Read net sch offset sz w = Panic IndexOutOfRange.
Proof.
  intros Hreach Ho Hsz Hov Hcase. pose proof (reachable_ok _ Hreach) as Hok.
  pose proof (ok_blockSize _ Hok) as Hbs.
  pose proof (Read_blocks_exact offset sz (blockSize w) Hbs ltac:(lia) Hsz Hov) as E.
  destruct Hcase as [Hpast | [-> Hal]].
  - pose proof (Z.div_pos offset (blockSize w) ltac:(lia) ltac:(lia)) as Hlo.
    assert (0 ≤ len (cache w)) as Hm by (unfold len; lia).
    apply (Read_no_slot net sch offset sz w _ _ (len (cache w)) Hok ltac:(lia) E Hlo);
      [|lia|unfold MaxInt64 in *; lia].
    rewrite (ok_cache _ Hok) in *.
    pose proof (Z.div_le_mono offset (size w) (blockSize w) ltac:(lia) ltac:(lia)).
    split; [lia|].
    assert ((size w / blockSize w + 1) + 1 ≤ (offset + sz + blockSize w - 1) / blockSize w);
      [|lia].
    apply Z.div_le_lower_bound; lia.
  - apply Read_no_blocks; [lia|]. rewrite E, seqZ_nil; [done|].
    replace (offset + 0 + blockSize w - 1) with (offset + (blockSize w - 1)) by lia.
    pose proof (Z.div_mod offset (blockSize w) ltac:(lia)) as Hdm.
    assert ((offset + (blockSize w - 1)) / blockSize w = offset / blockSize w); [|lia].
    symmetry. apply Z.div_unique with (r := blockSize w - 1); lia.
Qed.

Lemma serving_5000_reachable :
  reachable (Examples.opened (Examples.net_serving 5000) 5000 0).
Proof.
  destruct (Examples.open (Examples.net_serving 5000) 5000 0) as [w0|] eqn:E0;
    [|vm_compute in E0; discriminate].
  assert (0 ≤ 5000 ≤ MaxInt64) as Hsz by (unfold MaxInt64; lia).
  by destruct (opened_reachable _ _ _ _ Hsz E0) as [-> Hr].
Qed.

Lemma Read_index_out_of_range_witness :
  Read (Examples.net_serving 5000) Examples.sequential 0 10000
    (Examples.opened (Examples.net_serving 5000) 5000 0) = Panic IndexOutOfRange ∧
  Read (Examples.net_serving 5000) Examples.sequential 4096 0
    (Examples.opened (Examples.net_serving 5000) 5000 0) = Panic IndexOutOfRange.
Proof.
  split.
  - apply (Read_index_out_of_range _ _ 0 10000 _ serving_5000_reachable).
    + vm_compute. split; [discriminate | reflexivity].
    + lia.
    + vm_compute. discriminate.
    + left. vm_compute. reflexivity.
  - apply (Read_index_out_of_range _ _ 4096 0 _ serving_5000_reachable).
    + vm_compute. split; [discriminate | reflexivity].
    + lia.
    + vm_compute. discriminate.
    + right. split; reflexivity.
Defined.

(** C1, where the code breaks it.  A [Read] of length 0 at a block
    boundary inside the content has an empty block list and panics at
    [blocks[0]], instead of returning no bytes. *)
Theorem Read_zero_length_panics net sch offset w :
  reachable w → 0 ≤ offset < size w → offset mod blockSize w = 0 →
  offset + blockSize w ≤ MaxInt64 →
  Read net sch offset 0 w = Panic IndexOutOfRange.
Proof.
  intros Hreach Ho Hal Hov. pose proof (reachable_ok _ Hreach) as Hok.
  pose proof (ok_blockSize _ Hok) as Hbs.
  apply Read_no_blocks; [lia|].
  rewrite Read_blocks_exact by lia. rewrite seqZ_nil; [done|].
  replace (offset + 0 + blockSize w - 1) with (offset + (blockSize w - 1)) by lia.
  pose proof (Z.div_mod offset (blockSize w) ltac:(lia)) as Hdm.
  assert ((offset + (blockSize w - 1)) / blockSize w = offset / blockSize w); [|lia].
  symmetry. apply Z.div_unique with (r := blockSize w - 1); lia.
Qed.

Lemma Read_zero_length_panics_witness :
  Read (Examples.net_serving 5000) Examples.sequential 0 0
    (Examples.opened (Examples.net_serving 5000) 5000 0) = Panic IndexOutOfRange.
Proof.
  apply (Read_zero_length_panics _ _ 0 _ serving_5000_reachable).
  - vm_compute. split; [discriminate | reflexivity].
  - reflexivity.
  - vm_compute. discriminate.
Defined.

(** ** Eviction *)

(** The purge never touches block 0. *)
Lemma Read_purge_block_0 bs64 blocks w w' :
  Read_purge bs64 blocks w = Ret w' →
  cache w' !! 0%nat = cache w !! 0%nat ∧ active w' !! 0%nat = active w !! 0%nat.
Proof.
  intros H. apply Read_purge_spec in H as (o & q & _ & _ & [(Hp & _ & ->) | [_ ->]]); [|done].
  unfold purge, cache, active; simpl.
  rewrite !list_lookup_insert_ne; [done|lia..].
Qed.

(** C5, where the code breaks it.  The purge is guarded by [b > 0], so
    block 0 is never evicted: a [Read], and in particular one whose first
    needed block is block 1, leaves a cached block 0 in the cache and
    launches no fetch for it, and so does every [Read] after it. *)
Theorem Read_keeps_block_0 offset sz w w' blocks unfetched buf :
  reachable w → MinInt64 ≤ offset ≤ MaxInt64 →
  Read_locked offset sz w = Ret (w', blocks, unfetched) →
  cache w !! 0%nat = Some (Some buf) →
  cache w' !! 0%nat = Some (Some buf) ∧ in_flight w' 0 = [] ∧
  (index blocks 0 = Ret (1 * blockSize w) → cache w' = cache w).
Proof.
  intros Hreach Ho H Hc. pose proof (reachable_ok _ Hreach) as Hok.
  destruct (Read_locked_spec _ _ _ _ _ _ Hok Ho H)
    as (hi & gs1 & w1 & w2 & gs2 & _ & _ & _ & L1 & _ & _ & _ & Ep & _ & L2 & _ & _ & Hok').
  destruct (launches_frame _ _ _ L1) as (_ & Ec1 & _).
  destruct (launches_frame _ _ _ L2) as (_ & Ec2 & _).
  destruct (Read_purge_block_0 _ _ _ _ Ep) as [Ep0 _].
  assert (cache w' !! 0%nat = Some (Some buf)) as Hc' by (by rewrite Ec2, Ep0, Ec1).
  split_and!; [done| |].
  - apply for_block_nil. intros g Hg E.
    destruct (ok_running _ Hok' g Hg) as (_ & _ & Hcg & _). rewrite E in Hcg.
    change (Z.to_nat 0) with 0%nat in Hcg. congruence.
  - intros Hfirst. rewrite Ec2, <- Ec1.
    pose proof (ok_blockSize _ Hok) as Hbs.
    apply Read_purge_spec in Ep as (o & q & Eo & Eq & [(Hp & _ & _) | [_ ->]]); [|done].
    rewrite Hfirst in Eo. injection Eo as <-.
    rewrite div64_block in Eq by (first [done | i64]). injection Eq as <-.
    vm_compute in Hp. discriminate.
Qed.

Lemma after_block_0_reachable : reachable Examples.after_block_0.
Proof.
  destruct (Examples.open (Examples.net_serving 20000) 20000 0) as [w0|] eqn:E0;
    [|vm_compute in E0; discriminate].
  assert (0 ≤ 20000 ≤ MaxInt64) as Hsz by (unfold MaxInt64; lia).
  destruct (opened_reachable _ _ _ _ Hsz E0) as [Eo Hr].
  assert (MinInt64 ≤ 0 ≤ MaxInt64) as H0 by (unfold MinInt64, MaxInt64; lia).
  assert (MinInt64 ≤ 4096 ≤ MaxInt64) as H1 by (unfold MinInt64, MaxInt64; lia).
  destruct (Read_locked 0 4096 w0) as [[[w1 bl] u]|] eqn:E1;
    [|vm_compute in E0; injection E0 as <-; vm_compute in E1; discriminate].
  assert (reachable w1) as Hr1.
  { apply (reachable_step w0 w1 Hr), (step_Read 0 4096 w0 w1 bl u H0 H1); [|done].
    vm_compute in E0. injection E0 as <-. reflexivity. }
  destruct (run_goroutine (Examples.net_serving 20000) 0 w1) as [w2|] eqn:E2;
    [|vm_compute in E0; injection E0 as <-; vm_compute in E1; injection E1 as <- _ _;
      vm_compute in E2; discriminate].
  assert (reachable w2) as Hr2.
  { apply (reachable_step w1 w2 Hr1), (step_fetch_done (Examples.net_serving 20000) 0 w1 w2);
      [|done].
    vm_compute in E0. injection E0 as <-. vm_compute in E1. injection E1 as <- _ _.
    simpl. lia. }
  replace Examples.after_block_0 with w2; [done|].
  vm_compute in E0. injection E0 as <-. vm_compute in E1. injection E1 as <- _ _.
  vm_compute in E2. injection E2 as <-. vm_compute. reflexivity.
Qed.

Lemma Read_keeps_block_0_witness :
  ∃ w' unfetched,
    Read_locked 4096 4096 Examples.after_block_0 = Ret (w', [4096], unfetched) ∧
    cached Examples.after_block_0 0 = true ∧ cached w' 0 = true ∧ in_flight w' 0 = [].
Proof.
  destruct (Read_locked 4096 4096 Examples.after_block_0) as [[[w' bl] u]|] eqn:E;
    [|vm_compute in E; discriminate].
  assert (bl = [4096]) as -> by (vm_compute in E; by injection E as _ <- _).
  assert (MinInt64 ≤ 4096 ≤ MaxInt64) as H1 by (unfold MinInt64, MaxInt64; lia).
  destruct (Read_keeps_block_0 4096 4096 Examples.after_block_0 w' [4096] u
              (replicate 4096 Byte.x2a) after_block_0_reachable H1 E)
    as (Hc & Hidle & _); [vm_compute; reflexivity|].
  exists w', u. split_and!; [done | vm_compute; reflexivity | | done].
  pose proof (index_lookup _ 0%nat _ Hc) as Hi. change (Z.of_nat 0) with 0 in Hi.
  unfold cached. by rewrite Hi.
Defined.

(** The block examined by iteration [i] of the prefetch loop, when the
    count of iterations fits an [int64]: the [i]-th block after the last
    needed one. *)
Lemma Read_prefetch_block_explicit w lo hi i b :
  handle_ok w → lo < hi → 0 ≤ lo → hi - 1 < len (cache w) → 0 ≤ i ≤ MaxInt64 →
  Read_prefetch_block (int64 (blockSize w))
    ((λ b, b * blockSize w) <$> seqZ lo (hi - lo)) i = Ret b →
  0 ≤ b → b = hi + i.
Proof.
  intros Hok Hne Hlo Hhi Hi Eb Hb.
  pose proof (ok_blockSize _ Hok) as Hbs. pose proof (ok_slots _ Hok) as Hsl.
  pose proof (ok_cache _ Hok) as Hc. rewrite Hc in Hhi.
  unfold Read_prefetch_block in Eb.
  assert (len ((λ b, b * blockSize w) <$> seqZ lo (hi - lo)) = hi - lo) as El.
  { unfold len. rewrite length_fmap, length_seqZ. lia. }
  rewrite El in Eb. unfold sub64 in Eb. rewrite (int64_id (hi - lo - 1)) in Eb by i64.
  rewrite (bind_Ret _ _ ((hi - 1) * blockSize w)) in Eb.
  2:{ apply index_Ret. split; [lia|]. rewrite list_lookup_fmap, lookup_seqZ_lt by lia.
      simpl. do 2 f_equal. lia. }
  rewrite div64_block in Eb; [|done|].
  2:{ destruct (handle_ok_block_offset w (hi - 1) Hok) as (? & _); [lia|].
      pose proof (ok_size _ Hok). i64. }
  simpl in Eb. injection Eb as Eb. subst b.
  unfold add64 in *. rewrite (int64_id i) in * by i64.
  rewrite (int64_id (hi - 1 + 1)) in * by i64.
  destruct (Z.le_gt_cases (hi - 1 + 1 + i) MaxInt64) as [Hle|Hgt].
  - rewrite int64_id by i64. lia.
  - exfalso. unfold int64, two63, two64, MinInt64, MaxInt64 in *.
    replace (hi - 1 + 1 + i + 9223372036854775808)
      with ((hi + i - 9223372036854775808) + 1 * 18446744073709551616) in Hb by lia.
    rewrite Z.mod_add, Z.mod_small in Hb by lia. lia.
Qed.

Lemma purge_cache b w : cache (purge b w) = <[b := None]> (cache w).
Proof. done. Qed.

Lemma purge_active b w : active (purge b w) = <[b := None]> (active w).
Proof. done. Qed.

(** What the purge does, by design: when the first needed block is [b+1]
    with [b > 0] and block [b] is cached, the [Read] empties the slot of
    [b] and clears its marker, and touches no other slot of the cache; a
    later [Read] finds [b] free. *)
Lemma Read_evicts_behind offset sz w w' blocks unfetched b buf :
  handle_ok w → MinInt64 ≤ offset ≤ MaxInt64 →
  Read_locked offset sz w = Ret (w', blocks, unfetched) →
  index blocks 0 = Ret ((b + 1) * blockSize w) → 0 < b →
  cache w !! Z.to_nat b = Some (Some buf) →
  cache w' = <[Z.to_nat b := None]> (cache w) ∧
  (prefetchBlocks w ≤ MaxInt64 → slot_free w' b).
Proof.
  intros Hok Ho H Hfirst Hb Hc.
  destruct (Read_locked_spec _ _ _ _ _ _ Hok Ho H)
    as (hi & gs1 & w1 & w2 & gs2 & _ & Ebl & Hr & L1 & Hgs1 & _ & _ & Ep & Epf & L2 & Hok1 & Hok2 & _).
  destruct (launches_frame _ _ _ L1) as (_ & Ec1 & _ & _ & Ek1 & _).
  destruct (launches_frame _ _ _ L2) as (_ & Ec2 & _).
  pose proof (ok_blockSize _ Hok) as Hbs.
  (* the first needed block *)
  assert (offset ÷ blockSize w = b + 1 ∧ b + 1 < hi) as [Elo Hne].
  { rewrite Ebl in Hfirst. apply index_Ret in Hfirst as [_ Hf].
    change (Z.to_nat 0) with 0%nat in Hf. rewrite list_lookup_fmap in Hf.
    destruct (seqZ _ _ !! 0%nat) as [x|] eqn:Ex; [|done]. injection Hf as Hf.
    apply lookup_seqZ in Ex as [-> Hx].
    assert (offset ÷ blockSize w = b + 1) as E by nia. split; [done | lia]. }
  assert (w2 = purge (Z.to_nat b) w1) as ->.
  { apply Read_purge_spec in Ep as (o & q & Eo & Eq & Hcase).
    rewrite Hfirst in Eo. injection Eo as <-.
    rewrite div64_block in Eq.
    2:{ done. }
    2:{ destruct (handle_ok_block_offset w (b + 1) Hok) as (? & _); [apply Hr; lia|].
        pose proof (ok_size _ Hok). i64. }
    injection Eq as <-.
    assert (sub64 (b + 1) 1 = b) as Es.
    { unfold sub64. replace (b + 1 - 1) with b by lia. apply int64_id.
      destruct (Hr (b + 1)) as [_ Hlt]; [lia|]. rewrite (ok_cache _ Hok) in Hlt.
      pose proof (ok_slots _ Hok). i64. }
    rewrite Es in Hcase. destruct Hcase as [(_ & _ & ->) | [[?|Hn] _]]; [done | lia |].
    rewrite Ec1 in Hn. congruence. }
  split.
  - by rewrite Ec2, purge_cache, Ec1.
  - intros Hk. split_and!; [lia| |].
    + rewrite Ec2, purge_cache, Ec1. apply list_lookup_insert_eq.
      by apply lookup_lt_Some in Hc.
    + rewrite (launches_active_other _ _ _ (Z.to_nat b) L2).
      * rewrite purge_active. apply list_lookup_insert_eq.
        apply lookup_lt_Some in Hc.
        pose proof (ok_cache _ Hok1). pose proof (ok_active _ Hok1).
        rewrite Ec1 in *. unfold len in *. lia.
      * intros g Hg E.
        destruct (launches_start_free _ _ _ _ L2 Hg) as (Hg0 & _).
        assert (blockSize (purge (Z.to_nat b) w1) = blockSize w) as Ebs2
          by (unfold purge; simpl; apply (launches_blockSize _ _ _ L1)).
        destruct (Read_prefetch_spec (blockSize w) blocks _ 0 _ _ Hok2 (eq_sym Ebs2) Epf)
          as (gs2' & L2' & _ & Hsound & _).
        assert (gs2' = gs2) as ->.
        { destruct (launches_frame _ _ _ L2) as (_ & _ & _ & _ & _ & _ & _ & Er & _).
          destruct (launches_frame _ _ _ L2') as (_ & _ & _ & _ & _ & _ & _ & Er' & _).
          rewrite Er in Er'. by apply app_inv_head in Er'. }
        destruct (Hsound g Hg) as (j & Hj & Ej & _).
        rewrite Ebl, Elo in Ej.
        apply (Read_prefetch_block_explicit w (b + 1) hi j (g_block g) Hok) in Ej;
          [lia | lia | lia | | lia | done].
        destruct (Hr (hi - 1)); lia.
Qed.

(** ** Reads of fetchable content *)

Lemma realFetch_config net w w' o :
  config w' = config w → blockSize w' = blockSize w →
  realFetch net w' o = realFetch net w o.
Proof.
  unfold config, realFetch, blockSize. intros [= Ef Eh Ep _] Eb.
  by rewrite Ef, Eh, Ep.
Qed.

Lemma serves_config net w w' :
  config w' = config w → serves net w → serves net w'.
Proof.
  intros Ec Hs b Hb Hlt.
  assert (blockSize w' = blockSize w ∧ size w' = size w) as [Eb Es].
  { unfold config, blockSize in *. injection Ec as Ef _ _ Es. by rewrite Ef. }
  rewrite Eb, Es in *. rewrite (realFetch_config net w w') by done. by apply Hs.
Qed.

Lemma launches_config w gs w' : launches w gs w' → config w' = config w.
Proof.
  intros L. destruct (launches_frame _ _ _ L) as (Ef & _ & _ & Es & _ & Eh & Ep & _).
  unfold config. by rewrite Ef, Es, Eh, Ep.
Qed.

Lemma finish_config b r c w : config (finish b r c w) = config w.
Proof. unfold finish. by destruct (r.2). Qed.

Lemma Read_locked_config offset sz w w' blocks unfetched :
  handle_ok w → MinInt64 ≤ offset ≤ MaxInt64 →
  Read_locked offset sz w = Ret (w', blocks, unfetched) → config w' = config w.
Proof.
  intros Hok Ho H.
  destruct (Read_locked_spec _ _ _ _ _ _ Hok Ho H)
    as (hi & gs1 & w1 & w2 & gs2 & _ & _ & _ & L1 & _ & _ & _ & Ep & _ & L2 & _).
  rewrite (launches_config _ _ _ L2), <- (launches_config _ _ _ L1).
  by apply Read_purge_spec in Ep as (? & ? & _ & _ & [(_ & _ & ->) | [_ ->]]).
Qed.

Lemma fetches_end_config N w w' :
  fetches_end N w w' → handle_ok w → config w' = config w.
Proof.
  induction 1 as [w | net i w w1 w' _ Hi H _ IH]; intros Hok; [done|].
  destruct (lookup_lt_is_Some_2 _ _ Hi) as [g Hg].
  destruct (run_goroutine_spec net i w g Hok Hg) as (c & Hm & Hch & E).
  rewrite E in H. injection H as <-.
  rewrite IH by (by apply finish_ok). by rewrite finish_config.
Qed.

(** The two properties of a cache that only ever met serving peers survive
    the launch of fetches, the purge, and the end of fetches served by
    such peers. *)
Lemma launch_healthy g w :
  handle_ok w → slot_free w (g_block g) →
  cache_ok w ∧ none_failed w → cache_ok (launch g w) ∧ none_failed (launch g w).
Proof.
  intros Hok (Hb0 & Hc & Ha) [Hco Hnf]. split; [exact Hco|].
  intros b c Hlt Hcb. unfold launch, active; simpl.
  destruct (decide (Z.to_nat (g_block g) = b)) as [<-|Hne].
  - rewrite list_lookup_insert_eq by (by apply lookup_lt_Some in Ha). intros [= <-].
    by rewrite lookup_app_r, Nat.sub_diag.
  - rewrite list_lookup_insert_ne by done. intros Hm.
    pose proof (ok_alloc _ Hok _ _ Hm). rewrite lookup_app_l by done. by eapply Hnf.
Qed.

Lemma launches_healthy w gs w' :
  launches w gs w' → handle_ok w →
  cache_ok w ∧ none_failed w → cache_ok w' ∧ none_failed w'.
Proof.
  induction 1 as [w0 | w0 g gs0 w0' Hfree Hoff L0 IH]; [done|].
  intros Hok Hh. apply IH; [by apply launch_ok | by apply launch_healthy].
Qed.

Lemma purge_healthy p w :
  cache_ok w ∧ none_failed w → cache_ok (purge p w) ∧ none_failed (purge p w).
Proof.
  intros [Hco Hnf]. split.
  - intros b buf Hlt. rewrite purge_cache. intros Hb.
    destruct (decide (p = b)) as [<-|Hne].
    + apply list_lookup_insert_Some in Hb as [(_ & ? & _) | [? _]]; done.
    + rewrite list_lookup_insert_ne in Hb by done. by apply Hco.
  - intros b c Hlt Hb Hm. rewrite purge_cache in Hb. rewrite purge_active in Hm.
    destruct (decide (p = b)) as [<-|Hne].
    + apply list_lookup_insert_Some in Hm as [(_ & ? & _) | [? _]]; done.
    + rewrite list_lookup_insert_ne in Hb by done.
      rewrite list_lookup_insert_ne in Hm by done. by eapply Hnf.
Qed.

Lemma finish_healthy net i w g c :
  handle_ok w → serves net w → w_running w !! i = Some g →
  active w !! Z.to_nat (g_block g) = Some (Some c) →
  cache_ok w ∧ none_failed w →
  cache_ok (finish (g_block g) (realFetch net w (g_offset g)) c
              (set_running (delete i (w_running w)) w)) ∧
  none_failed (finish (g_block g) (realFetch net w (g_offset g)) c
                 (set_running (delete i (w_running w)) w)).
Proof.
  intros Hok Hs Hg Hm [Hco Hnf].
  destruct (ok_running _ Hok g) as (Hb0 & Hoff & Hcg & _); [by eapply list_elem_of_lookup_2|].
  set (r := realFetch net w (g_offset g)).
  assert (blockSize (finish (g_block g) r c (set_running (delete i (w_running w)) w))
          = blockSize w ∧
          size (finish (g_block g) r c (set_running (delete i (w_running w)) w)) = size w)
    as [Ebs Esz] by (unfold finish; by destruct (r.2)).
  assert (g_block g * blockSize w < size w → ∃ buf, r = (Some buf, None) ∧
            len buf = Z.min (blockSize w) (size w - g_block g * blockSize w)) as Hserved.
  { intros Hlt. unfold r. rewrite Hoff. by apply Hs. }
  split.
  - intros b buf. rewrite Ebs, Esz. intros Hlt Hb.
    destruct (decide (b = Z.to_nat (g_block g))) as [->|Hne].
    + rewrite Z2Nat.id in Hlt by lia. destruct (Hserved Hlt) as (buf' & Er & Hlen).
      unfold finish in Hb. rewrite Er in Hb. simpl in Hb. unfold cache in Hb; simpl in Hb.
      rewrite list_lookup_insert_eq in Hb by (by apply lookup_lt_Some in Hcg).
      injection Hb as <-. by rewrite Z2Nat.id by lia.
    + apply Hco; [done|]. unfold finish in Hb. destruct (r.2); [done|].
      unfold cache in Hb; simpl in Hb. by rewrite list_lookup_insert_ne in Hb.
  - intros b c'. rewrite Ebs, Esz, finish_active, finish_chans. simpl. intros Hlt Hb Hm'.
    destruct (decide (b = Z.to_nat (g_block g))) as [->|Hne].
    + rewrite Z2Nat.id in Hlt by lia. destruct (Hserved Hlt) as (buf' & Er & Hlen).
      unfold finish in Hb. rewrite Er in Hb. simpl in Hb. unfold cache in Hb; simpl in Hb.
      rewrite list_lookup_insert_eq in Hb by (by apply lookup_lt_Some in Hcg). done.
    + assert (cache w !! b = Some None) as Hb'.
      { unfold finish in Hb. destruct (r.2); [done|].
        unfold cache in Hb; simpl in Hb. by rewrite list_lookup_insert_ne in Hb. }
      assert (c' ≠ c) as Hcc. { intros ->. apply Hne. by eapply (ok_inj _ Hok). }
      rewrite list_lookup_insert_ne by done. by eapply Hnf.
Qed.

Lemma fetches_end_healthy net w w' :
  fetches_end (λ n, n = net) w w' → handle_ok w → serves net w →
  cache_ok w ∧ none_failed w → cache_ok w' ∧ none_failed w'.
Proof.
  induction 1 as [w | net' i w w1 w' -> Hi H _ IH]; intros Hok Hs Hh; [done|].
  destruct (lookup_lt_is_Some_2 _ _ Hi) as [g Hg].
  destruct (run_goroutine_spec net i w g Hok Hg) as (c & Hm & Hch & E).
  rewrite E in H. injection H as <-.
  apply IH; [by apply finish_ok | | by apply finish_healthy].
  eapply serves_config; [|done]. by rewrite finish_config.
Qed.

(** While goroutines end, what is cached stays cached. *)
Lemma fetches_end_cached N w w' b buf :
  fetches_end N w w' → handle_ok w →
  cache w !! b = Some (Some buf) → cache w' !! b = Some (Some buf).
Proof.
  induction 1 as [w | net i w w1 w' _ Hi H _ IH]; intros Hok Hb; [done|].
  destruct (lookup_lt_is_Some_2 _ _ Hi) as [g Hg].
  destruct (run_goroutine_spec net i w g Hok Hg) as (c & Hm & Hch & E).
  rewrite E in H. injection H as <-.
  apply IH; [by apply finish_ok|].
  destruct (ok_running _ Hok g) as (_ & _ & Hcg & _); [by eapply list_elem_of_lookup_2|].
  unfold finish. destruct (_.2); [done|]. unfold cache; simpl.
  rewrite list_lookup_insert_ne; [done|]. intros <-. congruence.
Qed.

Lemma Read_purge_total w lo n :
  handle_ok w → 0 < n → 0 ≤ lo < len (cache w) →
  ∃ w', Read_purge (int64 (blockSize w)) ((λ b, b * blockSize w) <$> seqZ lo n) w = Ret w'.
Proof.
  intros Hok Hn Hlo. unfold Read_purge.
  rewrite index_first_block by done. simpl.
  destruct (handle_ok_block_offset w lo Hok Hlo) as (Hr & _ & _).
  pose proof (ok_blockSize _ Hok) as Hbs. pose proof (ok_size _ Hok) as Hsz.
  pose proof (ok_slots _ Hok) as Hsl. pose proof (ok_cache _ Hok) as Hc.
  pose proof (ok_active _ Hok) as Ha.
  rewrite div64_block by (first [done | i64]). simpl.
  unfold sub64. rewrite int64_id by i64.
  destruct (Z.gtb_spec (lo - 1) 0); [|by eexists].
  destruct (lookup_lt_is_Some_2 (cache w) (Z.to_nat (lo - 1))) as [cb Ecb];
    [unfold len in *; lia|].
  rewrite (bind_Ret _ _ cb) by (apply index_Ret; split; [lia | done]).
  destruct cb as [buf|]; [|by eexists].
  erewrite (bind_Ret (store (cache w) _ _)); [|apply store_Ret; split; [lia | reflexivity]].
  erewrite (bind_Ret (store (active w) _ _)); [|apply store_Ret; split; [lia | reflexivity]].
  by eexists.
Qed.

Lemma Read_prefetch_block_value w lo hi i :
  handle_ok w → lo < hi → 0 ≤ lo → hi - 1 < len (cache w) → 0 ≤ i → hi + i ≤ MaxInt64 →
  Read_prefetch_block (int64 (blockSize w))
    ((λ b, b * blockSize w) <$> seqZ lo (hi - lo)) i = Ret (hi + i).
Proof.
  intros Hok Hne Hlo Hhi Hi Hov.
  pose proof (ok_blockSize _ Hok) as Hbs. pose proof (ok_slots _ Hok) as Hsl.
  pose proof (ok_cache _ Hok) as Hc. rewrite Hc in Hhi.
  unfold Read_prefetch_block.
  assert (len ((λ b, b * blockSize w) <$> seqZ lo (hi - lo)) = hi - lo) as El.
  { unfold len. rewrite length_fmap, length_seqZ. lia. }
  rewrite El. unfold sub64. rewrite (int64_id (hi - lo - 1)) by i64.
  rewrite (bind_Ret _ _ ((hi - 1) * blockSize w)).
  2:{ apply index_Ret. split; [lia|]. rewrite list_lookup_fmap, lookup_seqZ_lt by lia.
      simpl. do 2 f_equal. lia. }
  rewrite div64_block; [|done|].
  2:{ destruct (handle_ok_block_offset w (hi - 1) Hok) as (? & _); [lia|].
      pose proof (ok_size _ Hok). i64. }
  simpl. unfold add64. rewrite (int64_id i) by i64.
  rewrite (int64_id (hi - 1 + 1)) by i64. rewrite int64_id by i64. f_equal. lia.
Qed.

Lemma Read_prefetch_total lo hi : ∀ fuel i w,
  handle_ok w → lo < hi → 0 ≤ lo → hi - 1 < len (cache w) → 0 ≤ i →
  (hi + i + Z.of_nat fuel) * blockSize w ≤ MaxInt64 →
  ∃ w', Read_prefetch fuel i (int64 (blockSize w))
          ((λ b, b * blockSize w) <$> seqZ lo (hi - lo)) w = Ret w'.
Proof.
  induction fuel as [|fuel IH]; intros i w Hok Hne Hlo Hhi Hi Hov; simpl; [by eexists|].
  pose proof (ok_blockSize _ Hok) as Hbs. pose proof (ok_size _ Hok) as Hsz.
  pose proof (ok_cache _ Hok) as Hc. pose proof (ok_active _ Hok) as Ha.
  rewrite (Read_prefetch_block_value w lo hi i) by (first [done | unfold MaxInt64 in *; nia]).
  simpl.
  assert (mul64 (hi + i) (int64 (blockSize w)) = (hi + i) * blockSize w) as Em.
  { rewrite (int64_id (blockSize w)) by i64. unfold mul64. apply int64_id.
    unfold MinInt64, MaxInt64 in *. nia. }
  rewrite Em.
  assert (∃ w1, (if (hi + i) * blockSize w <? size w
                 then cb ← index (cache w) (hi + i);
                      match cb with
                      | Some _ => Ret w
                      | None => ab ← index (active w) (hi + i);
                                match ab with
                                | Some _ => Ret w
                                | None => fetch ((hi + i) * blockSize w) w
                                end
                      end
                 else Ret w) = Ret w1 ∧
               handle_ok w1 ∧ cache w1 = cache w ∧ blockSize w1 = blockSize w ∧
               size w1 = size w) as (w1 & -> & Hok1 & Ec1 & Ebs1 & Esz1).
  { destruct (Z.ltb_spec ((hi + i) * blockSize w) (size w)) as [Hlt|Hge]; [|by exists w].
    assert (0 ≤ hi + i < len (cache w)) as Hbr.
    { split; [lia|]. rewrite Hc.
      assert (hi + i ≤ size w / blockSize w); [|lia].
      apply Z.div_le_lower_bound; lia. }
    destruct (lookup_lt_is_Some_2 (cache w) (Z.to_nat (hi + i))) as [cb Ecb];
      [unfold len in *; lia|].
    destruct (lookup_lt_is_Some_2 (active w) (Z.to_nat (hi + i))) as [ab Eab];
      [unfold len in *; lia|].
    rewrite (bind_Ret _ _ cb) by (apply index_Ret; split; [lia | done]).
    destruct cb as [buf|]; [by exists w|].
    rewrite (bind_Ret _ _ ab) by (apply index_Ret; split; [lia | done]).
    destruct ab as [c|]; [by exists w|].
    rewrite (fetch_free _ _ (hi + i));
      [| apply div64_block; [done | unfold MinInt64, MaxInt64 in *; nia] | lia].
    eexists. split; [done|]. split_and!; try done.
    apply launch_ok; [done | | done]. split_and!; [simpl; lia | done | done]. }
  simpl. rewrite <- Ebs1.
  apply IH; [done.. | by rewrite Ec1 | lia | rewrite Ebs1; lia].
Qed.

(** The first critical section of a [Read] of positive length whose blocks
    all have a slot, with a prefetch that does not overflow, succeeds. *)
Lemma Read_locked_total offset sz w :
  handle_ok w → 0 ≤ offset → 0 < sz →
  offset + sz + blockSize w ≤ MaxInt64 →
  0 ≤ prefetchBlocks w →
  ((offset + sz + blockSize w - 1) / blockSize w + prefetchBlocks w) * blockSize w ≤ MaxInt64 →
  (offset + sz + blockSize w - 1) / blockSize w ≤ len (cache w) →
  offset / blockSize w < (offset + sz + blockSize w - 1) / blockSize w ∧
  ∃ w' unfetched,
    Read_locked offset sz w
    = Ret (w', (λ b, b * blockSize w) <$>
                 seqZ (offset / blockSize w)
                   ((offset + sz + blockSize w - 1) / blockSize w - offset / blockSize w),
           unfetched).
Proof.
  intros Hok Ho Hsz Hov Hk Hpf Hslots.
  pose proof (ok_blockSize _ Hok) as Hbs.
  set (lo := offset / blockSize w) in *.
  set (hi := (offset + sz + blockSize w - 1) / blockSize w) in *.
  assert (lo < hi) as Hne.
  { unfold lo, hi. apply Z.div_lt_upper_bound; [lia|].
    pose proof (Z.div_mod (offset + sz + blockSize w - 1) (blockSize w) ltac:(lia)).
    pose proof (Z.mod_pos_bound (offset + sz + blockSize w - 1) (blockSize w) ltac:(lia)).
    nia. }
  split; [done|].
  assert (0 ≤ lo) as Hlo by (apply Z.div_pos; lia).
  unfold Read_locked.
  rewrite Read_blocks_exact by (first [done | lia]). fold lo hi. simpl.
  destruct (Read_launch_total (seqZ lo (hi - lo)) w [] Hok) as (w1 & u & El).
  { intros b Hb. apply seqZ_elem in Hb. lia. }
  rewrite El. simpl.
  assert (∀ b, b ∈ seqZ lo (hi - lo) → MinInt64 ≤ b * blockSize w ≤ MaxInt64) as Hblk.
  { intros b Hb. apply seqZ_elem in Hb.
    destruct (handle_ok_block_offset w b Hok) as (? & _); [lia|].
    pose proof (ok_size _ Hok). i64. }
  destruct (Read_launch_spec (blockSize w) _ w [] w1 u Hok eq_refl Hblk El)
    as (gs1 & ms & L1 & _).
  pose proof (launches_ok _ _ _ L1 Hok) as Hok1.
  pose proof (launches_blockSize _ _ _ L1) as Ebs1.
  destruct (launches_frame _ _ _ L1) as (_ & Ec1 & _).
  destruct (Read_purge_total w1 lo (hi - lo) Hok1) as (w2 & Ep); [lia | rewrite Ec1; lia|].
  rewrite Ebs1 in Ep. rewrite Ep. simpl.
  pose proof (Read_purge_ok _ _ _ _ Hok1 Ep) as Hok2.
  assert (blockSize w2 = blockSize w ∧ len (cache w2) = len (cache w)) as [Ebs2 Elen2].
  { rewrite (ok_cache _ Hok2), (ok_cache _ Hok).
    destruct (launches_frame _ _ _ L1) as (_ & _ & _ & Es1 & _). rewrite <- Ebs1, <- Es1.
    apply Read_purge_spec in Ep as (? & ? & _ & _ & [(_ & _ & ->) | [_ ->]]); done. }
  destruct (Read_prefetch_total lo hi (Z.to_nat (prefetchBlocks w)) 0 w2 Hok2)
    as (w3 & Epf); [lia | lia | lia | lia | rewrite Ebs2; lia |].
  rewrite Ebs2 in Epf. rewrite Epf. simpl. by eexists _, _.
Qed.

(** ** Trimming and joining the buffers *)

Lemma len_app {A} (l k : list A) : len (l ++ k) = len l + len k.
Proof. unfold len. rewrite length_app. lia. Qed.

Lemma len_nonneg {A} (l : list A) : 0 ≤ len l.
Proof. unfold len. lia. Qed.

Lemma foldl_app_concat (bufs : list bytes) (acc : bytes) :
  foldl (λ (ret : bytes) (b : bytes), ret ++ b) acc bufs = acc ++ concat bufs.
Proof.
  revert acc. induction bufs as [|b bufs IH]; intros acc; simpl.
  - by rewrite app_nil_r.
  - by rewrite IH, app_assoc.
Qed.

Lemma Read_join_len sz (bufs : list bytes) :
  0 ≤ sz → bufs ≠ [] →
  ∃ data, Read_join sz bufs = Ret data ∧ len data = len (concat bufs).
Proof.
  intros Hsz Hne. unfold Read_join.
  destruct (Z.eqb_spec (len bufs) 1) as [E|E].
  - destruct bufs as [|b [|b' bufs]]; [done| |unfold len in E; simpl in E; lia].
    exists b. split; [done|]. simpl. by rewrite app_nil_r.
  - unfold make_cap. destruct (Z.ltb_spec sz 0); [lia|]. simpl.
    eexists. split; [done|]. by rewrite foldl_app_concat.
Qed.

Lemma len_concat_full bs (bufs : list bytes) :
  Forall (λ b, len b = bs) bufs → len (concat bufs) = len bufs * bs.
Proof.
  induction 1 as [|b bufs Hb _ IH]; simpl; [done|].
  rewrite len_app, IH, Hb. unfold len. simpl. lia.
Qed.

Lemma Read_trim_tail_last cut (init : list bytes) (last : bytes) :
  len init < MaxInt64 →
  ∃ last', Read_trim_tail cut (init ++ [last]) = Ret (init ++ [last']) ∧
           len last' = (if (0 <? cut) && (cut <? len last) then cut else len last).
Proof.
  intros Hlen. unfold Read_trim_tail.
  destruct (Z.gtb_spec cut 0) as [Hc|Hc]; [|exists last; split; [done|]].
  2:{ destruct (Z.ltb_spec 0 cut); [lia | done]. }
  assert (sub64 (len (init ++ [last])) 1 = len init) as El.
  { rewrite len_app. unfold sub64. change (len [last]) with 1.
    replace (len init + 1 - 1) with (len init) by lia. apply int64_id.
    pose proof (len_nonneg init). i64. }
  rewrite El.
  assert (Z.to_nat (len init) = length init) as En by (unfold len; lia).
  rewrite (bind_Ret _ _ last).
  2:{ apply index_Ret. split; [apply len_nonneg|].
      by rewrite En, lookup_app_r, Nat.sub_diag. }
  destruct (Z.ltb_spec 0 cut); [|lia]. simpl.
  destruct (Z.gtb_spec (len last) cut) as [Hl|Hl].
  - destruct (Z.ltb_spec cut (len last)); [|lia].
    unfold slice_to. destruct (Z.leb_spec 0 cut); [|lia].
    destruct (Z.leb_spec cut (len last)); [|lia]. simpl.
    exists (take (Z.to_nat cut) last). split.
    + unfold store. destruct (Z.leb_spec 0 (len init)); [|pose proof (len_nonneg init); lia].
      destruct (Z.ltb_spec (len init) (Z.of_nat (length (init ++ [last])))) as [|Hge];
        [|rewrite length_app in Hge; unfold len in *; simpl in Hge; lia].
      simpl. f_equal. rewrite En.
      rewrite insert_app_r_alt, Nat.sub_diag by lia. done.
    + unfold len in *. rewrite length_take. lia.
  - destruct (Z.ltb_spec cut (len last)); [lia|]. by exists last.
Qed.

Lemma Read_trim_head_first bo (first : bytes) (rest : list bytes) :
  0 ≤ bo ≤ len first →
  ∃ first', Read_trim_head bo (first :: rest) = Ret (first' :: rest) ∧
            len first' = len first - bo.
Proof.
  intros Hbo. unfold Read_trim_head.
  destruct (Z.gtb_spec bo 0) as [Hc|Hc].
  - rewrite (bind_Ret _ _ first) by (by apply index_Ret).
    unfold slice_from. destruct (Z.leb_spec 0 bo); [|lia].
    destruct (Z.leb_spec bo (len first)); [|lia]. simpl.
    exists (drop (Z.to_nat bo) first). split; [done|].
    unfold len in *. rewrite length_drop. lia.
  - exists first. split; [done | lia].
Qed.

(** The length of what [Read] assembles from full blocks followed by a
    last block. *)
Lemma Read_assemble_len offset sz bs o0 blocks (init : list bytes) (last : bytes) :
  0 < bs ≤ MaxInt64 → 0 ≤ o0 ≤ offset → offset - o0 < bs → 0 < sz →
  offset + sz ≤ MaxInt64 → len init < MaxInt64 →
  index blocks 0 = Ret o0 →
  Forall (λ b, len b = bs) init → 0 < len last ≤ bs →
  (init = [] →
   offset - o0 ≤ (if (0 <? (offset - o0 + sz) mod bs) && ((offset - o0 + sz) mod bs <? len last)
                  then (offset - o0 + sz) mod bs else len last)) →
  ∃ data, Read_assemble offset sz (int64 bs) blocks (init ++ [last]) = Ret data ∧
          len data = len init * bs
                     + (if (0 <? (offset - o0 + sz) mod bs) && ((offset - o0 + sz) mod bs <? len last)
                        then (offset - o0 + sz) mod bs else len last)
                     - (offset - o0).
Proof.
  intros Hbs Ho0 Hbo Hsz Hov Hlen Hidx Hfull Hlast Hsingle.
  unfold Read_assemble. rewrite Hidx. simpl.
  assert (sub64 offset o0 = offset - o0) as Ebo by (unfold sub64; apply int64_id; i64).
  assert (Read_cut offset sz (int64 bs) o0 = Ret ((offset - o0 + sz) mod bs)) as Ecut.
  { unfold Read_cut, rem64. rewrite Ebo. rewrite (int64_id bs) by i64.
    destruct (Z.eqb_spec bs 0); [lia|]. simpl.
    rewrite (int64_id sz) by i64. unfold add64. rewrite (int64_id (_ + _)) by i64.
    rewrite Z.rem_mod_nonneg by lia.
    pose proof (Z.mod_pos_bound (offset - o0 + sz) bs ltac:(lia)).
    by rewrite int64_id by i64. }
  rewrite Ecut. simpl. rewrite Ebo.
  set (cut := (offset - o0 + sz) mod bs) in *.
  destruct (Read_trim_tail_last cut init last Hlen) as (last' & -> & Hl'). simpl.
  rewrite <- Hl' in *. clear Hl'.
  destruct init as [|first rest].
  - simpl. destruct (Read_trim_head_first (offset - o0) last' []) as (f' & -> & Hf').
    { split; [lia | by apply Hsingle]. }
    simpl. destruct (Read_join_len sz [f']) as (data & -> & Hd); [lia | done |].
    exists data. split; [done|]. rewrite Hd. simpl. rewrite app_nil_r.
    change (len []) with 0. rewrite Hf'. ring.
  - apply Forall_cons in Hfull as [Hf Hrest].
    rewrite <- app_comm_cons.
    destruct (Read_trim_head_first (offset - o0) first (rest ++ [last'])) as (f' & -> & Hf');
      [lia|].
    simpl. destruct (Read_join_len sz (f' :: rest ++ [last'])) as (data & -> & Hd);
      [lia | done |].
    exists data. split; [done|]. rewrite Hd. simpl.
    rewrite len_app, concat_app, len_app, (len_concat_full bs rest Hrest). simpl.
    rewrite app_nil_r, Hf', Hf.
    replace (len (first :: rest)) with (len rest + 1) by (unfold len; simpl; lia). ring.
Qed.

(** ** A read of fetchable content returns what was asked *)

Lemma hi_exact offset sz bs :
  0 < bs ≤ MaxInt64 → 0 ≤ offset → 0 ≤ sz → offset + sz + bs ≤ MaxInt64 →
  sub64 (add64 offset (int64 (add64 sz bs))) 1 ÷ bs = (offset + sz + bs - 1) / bs.
Proof.
  intros Hbs Ho Hsz Hov. unfold sub64, add64.
  rewrite (int64_id (sz + bs)) by i64. rewrite (int64_id (sz + bs)) by i64.
  rewrite (int64_id (offset + _)) by i64. rewrite (int64_id (_ - 1)) by i64.
  rewrite quot_nonneg by lia. f_equal. lia.
Qed.

Lemma Forall2_choice {A B} (R : A → B → Prop) (l : list A) :
  (∀ x, x ∈ l → ∃ y, R x y) → ∃ k, Forall2 R l k.
Proof.
  induction l as [|x l IH]; intros H; [exists []; constructor|].
  destruct (H x) as [y Hy]; [by left|].
  destruct IH as [k Hk]; [intros x' Hx'; apply H; by right|].
  exists (y :: k). by constructor.
Qed.

Lemma Read_locked_healthy offset sz w w' blocks unfetched :
  handle_ok w → MinInt64 ≤ offset ≤ MaxInt64 →
  Read_locked offset sz w = Ret (w', blocks, unfetched) →
  cache_ok w ∧ none_failed w → cache_ok w' ∧ none_failed w'.
Proof.
  intros Hok Ho H Hh.
  destruct (Read_locked_spec _ _ _ _ _ _ Hok Ho H)
    as (hi & gs1 & w1 & w2 & gs2 & _ & _ & _ & L1 & _ & _ & _ & Ep & _ & L2 & Hok1 & Hok2 & _).
  apply (launches_healthy _ _ _ L2 Hok2).
  pose proof (launches_healthy _ _ _ L1 Hok Hh) as Hh1.
  apply Read_purge_spec in Ep as (? & ? & _ & _ & [(_ & _ & ->) | [_ ->]]);
    [by apply purge_healthy | done].
Qed.

Lemma round_up_ge n b : 0 < b → n ≤ round_up n b.
Proof.
  intros Hb. unfold round_up, ceil_div.
  pose proof (Z.div_mod (n + b - 1) b ltac:(lia)).
  pose proof (Z.mod_pos_bound (n + b - 1) b Hb). nia.
Qed.

(** The requested end lies in the last needed block. *)
Lemma last_block_bounds e bs :
  0 < bs → 0 < e →
  0 < e - (ceil_div e bs - 1) * bs ≤ bs.
Proof.
  intros Hbs He. unfold ceil_div.
  pose proof (Z.div_mod (e + bs - 1) bs ltac:(lia)).
  pose proof (Z.mod_pos_bound (e + bs - 1) bs Hbs). nia.
Qed.

Lemma cut_value offset sz bs lo hi :
  0 < bs → 0 < offset + sz - (hi - 1) * bs ≤ bs →
  (offset - lo * bs + sz) mod bs
  = (if offset + sz - (hi - 1) * bs <? bs then offset + sz - (hi - 1) * bs else 0).
Proof.
  intros Hbs Hr.
  replace (offset - lo * bs + sz) with (offset + sz - (hi - 1) * bs + (hi - 1 - lo) * bs) by lia.
  rewrite Z.mod_add by lia.
  destruct (Z.ltb_spec (offset + sz - (hi - 1) * bs) bs) as [Hlt|Hge].
  - apply Z.mod_small. lia.
  - replace (offset + sz - (hi - 1) * bs) with bs by lia. apply Z.mod_same. lia.
Qed.

(** Where the claim about the length of the result holds.  From a
    reachable state whose cached blocks came from peers that serve the
    content, with no block left failed, a [Read] of positive length that
    is not cancelled, whose last needed block starts inside the content
    and whose arithmetic does not overflow, returns without error exactly
    [min(size, contentSize - offset)] bytes: never fewer than that, and at
    most [size] rounded up to a block boundary. *)
Theorem Read_returns_requested net sch offset sz w :
  reachable w → serves net w → cache_ok w → none_failed w →
  ctx_done sch = false →
  0 ≤ offset < size w → 0 < sz →
  offset + sz + blockSize w ≤ MaxInt64 →
  (ceil_div (offset + sz) (blockSize w) - 1) * blockSize w < size w →
  0 ≤ prefetchBlocks w →
  (ceil_div (offset + sz) (blockSize w) + prefetchBlocks w) * blockSize w ≤ MaxInt64 →
  ∃ data w',
    Read net sch offset sz w = Ret (data, None, w') ∧
    len data = Z.min sz (size w - offset) ∧
    Z.min sz (size w - offset) ≤ len data ≤ round_up sz (blockSize w).
Proof.
  intros Hreach Hs Hco Hnf Hctx Ho Hsz Hov Hlast Hk Hpf.
  pose proof (reachable_ok _ Hreach) as Hok.
  pose proof (ok_blockSize _ Hok) as Hbs. pose proof (ok_size _ Hok) as Hsize.
  pose proof (ok_cache _ Hok) as Hcw. pose proof (ok_slots _ Hok) as Hsl.
  unfold ceil_div in Hlast, Hpf.
  set (bs := blockSize w) in *.
  set (lo := offset / bs). set (hi := (offset + sz + bs - 1) / bs) in *.
  assert (MinInt64 ≤ offset ≤ MaxInt64) as Ho' by i64.
  assert (hi ≤ len (cache w)) as Hslots.
  { rewrite Hcw.
    assert (hi - 1 ≤ size w / bs); [|lia]. apply Z.div_le_lower_bound; lia. }
  destruct (Read_locked_total offset sz w Hok ltac:(lia) Hsz Hov Hk Hpf Hslots)
    as (Hne & w3 & u & E).
  fold bs lo hi in E, Hne.
  destruct (Read_locked_after _ _ _ _ _ _ Hok Ho' E)
    as (lo' & hi' & _ & _ & Hr & Hms & _ & _ & Hok3 & Elo' & Ehi' & Hkeep).
  fold bs in Elo', Ehi', Hr.
  rewrite quot_nonneg in Elo' by lia. rewrite hi_exact in Ehi' by (first [done | lia]).
  fold lo in Elo'. fold hi in Ehi'. subst lo' hi'.
  destruct (Read_locked_healthy _ _ _ _ _ _ Hok Ho' E (conj Hco Hnf)) as [Hco3 Hnf3].
  pose proof (Read_locked_config _ _ _ _ _ _ Hok Ho' E) as Ecfg3.
  pose proof (serves_config net w w3 Ecfg3 Hs) as Hs3.
  destruct (Read_wait_spec net sch u _ w3 Hok3 Hms) as (w4 & intr & Ew & Hend & Hi & Hclosed).
  destruct intr; [rewrite Hi in Hctx; done|]. specialize (Hclosed eq_refl).
  destruct (fetches_end_active _ _ _ Hend Hok3) as [Ea4 Hok4].
  destruct (fetches_end_frame _ _ _ Hend Hok3) as [Ebs4 Esz4].
  destruct (Read_locked_frame _ _ _ _ _ _ Hok Ho' E) as (Ebs3 & Esz3 & _).
  destruct (fetches_end_healthy net _ _ Hend Hok3 Hs3 (conj Hco3 Hnf3)) as [Hco4 Hnf4].
  fold bs in Ebs3. rewrite Ebs3 in Ebs4. rewrite Esz3 in Esz4.
  (* every needed block is cached after the wait *)
  assert (∀ b, b ∈ seqZ lo (hi - lo) →
            ∃ buf, cache w4 !! Z.to_nat b = Some (Some buf) ∧
                   len buf = Z.min bs (size w - b * bs)) as Hall.
  { intros b Hb. apply seqZ_elem in Hb.
    assert (0 ≤ b ∧ b * bs < size w) as [Hb0 Hblt].
    { assert (0 ≤ lo) by (apply Z.div_pos; lia). split; [lia | nia]. }
    assert (∃ buf, cache w4 !! Z.to_nat b = Some (Some buf)) as [buf Hbuf].
    { destruct (Hr b ltac:(lia)) as [[_ Hlen3] _].
      destruct (lookup_lt_is_Some_2 (cache w) (Z.to_nat b)) as [cb Ecb].
      { rewrite (ok_cache _ Hok3), Ebs3, Esz3, <- Hcw in Hlen3.
        unfold len in *. lia. }
      destruct cb as [buf|].
      { exists buf. eapply fetches_end_cached; [done..|]. apply Hkeep; [lia | done]. }
      destruct (lookup_lt_is_Some_2 (cache w4) (Z.to_nat b)) as [cb4 Ecb4].
      { rewrite (ok_cache _ Hok3), Ebs3, Esz3, <- Esz4, <- Ebs4, <- (ok_cache _ Hok4) in Hlen3.
        unfold len in *. lia. }
      destruct cb4 as [buf|]; [by exists buf|]. exfalso.
      assert (b ∈ filter (uncached w) (seqZ lo (hi - lo))) as Hin.
      { apply list_elem_of_filter. split; [by apply uncached_true | apply seqZ_elem; lia]. }
      apply list_elem_of_lookup in Hin as [i Hi'].
      destruct (Forall2_lookup_l _ _ _ _ _ Hms Hi') as (m & Hm & c & -> & Hc).
      pose proof (Forall_lookup_1 _ _ _ _ Hclosed Hm) as Hcl. simpl in Hcl.
      rewrite <- Ea4 in Hc.
      assert (w_chans w4 !! c = Some false) as Hopen.
      { apply (Hnf4 (Z.to_nat b) c); [|done..]. rewrite Z2Nat.id, Ebs4, Esz4 by lia. done. }
      unfold is_closed in Hcl. by rewrite Hopen in Hcl. }
    exists buf. split; [done|].
    pose proof (Hco4 (Z.to_nat b) buf) as Hl.
    rewrite Z2Nat.id, Ebs4, Esz4 in Hl by lia. by apply Hl. }
  (* the buffers gathered *)
  destruct (Forall2_choice
              (λ b buf, cache w4 !! Z.to_nat b = Some (Some buf) ∧
                        len buf = Z.min bs (size w - b * bs)) _ Hall) as [got Hgot].
  assert (0 ≤ lo) as Hlo by (apply Z.div_pos; lia).
  replace (hi - lo) with ((hi - 1 - lo) + 1) in Hgot by lia.
  rewrite seqZ_app in Hgot by lia.
  apply Forall2_app_inv_l in Hgot as (init & lasts & Hinit & Hlasts & ->).
  rewrite (seqZ_cons _ 1) in Hlasts by lia. simpl in Hlasts.
  apply Forall2_cons_inv_l in Hlasts as (last & nil' & [Hlast_c Hlast_len] & Hnil & ->).
  apply Forall2_nil_inv_l in Hnil as ->.
  replace (lo + (hi - 1 - lo)) with (hi - 1) in * by lia.
  assert (len init = hi - 1 - lo) as Hleninit.
  { apply Forall2_length in Hinit. rewrite length_seqZ in Hinit. unfold len. lia. }
  assert (Forall (λ b, len b = bs) init) as Hfull.
  { apply Forall_forall. intros buf Hbuf. apply list_elem_of_lookup in Hbuf as [i Hi'].
    destruct (Forall2_lookup_r _ _ _ _ _ Hinit Hi') as (b & Hb & _ & Hlen).
    apply lookup_seqZ in Hb as [-> Hb]. rewrite Hlen. nia. }
  assert (Forall2 (λ b buf, cache w4 !! Z.to_nat b = Some (Some buf))
            (seqZ lo (hi - lo)) (init ++ [last])) as Hgath.
  { replace (hi - lo) with ((hi - 1 - lo) + 1) by lia. rewrite seqZ_app by lia.
    apply Forall2_app.
    - eapply Forall2_impl; [exact Hinit|]. by intros ? ? [? _].
    - rewrite (seqZ_cons _ 1) by lia. simpl.
      replace (lo + (hi - 1 - lo)) with (hi - 1) by lia. by repeat constructor. }
  (* trimming *)
  pose proof (last_block_bounds (offset + sz) bs ltac:(lia) ltac:(lia)) as Hrb.
  unfold ceil_div in Hrb. fold hi in Hrb.
  pose proof (Z.div_mod offset bs ltac:(lia)) as Hdm.
  pose proof (Z.mod_pos_bound offset bs ltac:(lia)) as Hmb. fold lo in Hdm.
  pose proof (cut_value offset sz bs lo hi ltac:(lia) Hrb) as Ecut.
  destruct (Read_assemble_len offset sz bs (lo * bs)
              ((λ b, b * bs) <$> seqZ lo (hi - lo)) init last) as (data & Edata & Hlen);
    [done | nia | nia | done | lia | i64
    | by apply index_first_block; lia | done | rewrite Hlast_len; lia | |].
  { intros ->. change (len []) with 0 in Hleninit. rewrite Ecut, Hlast_len.
    assert (hi - 1 = lo) as Ehl by lia. rewrite Ehl in *.
    destruct (Z.ltb_spec (offset + sz - lo * bs) bs);
      destruct (Z.ltb_spec 0 (offset + sz - lo * bs));
      destruct (Z.ltb_spec (offset + sz - lo * bs) (Z.min bs (size w - lo * bs)));
      simpl; try lia;
      destruct (Z.ltb_spec 0 (Z.min bs (size w - lo * bs))); simpl; lia. }
  exists data, w4.
  assert (len data = Z.min sz (size w - offset)) as Hres.
  { rewrite Hlen, Ecut, Hlast_len, Hleninit.
    destruct (Z.ltb_spec (offset + sz - (hi - 1) * bs) bs);
      destruct (Z.ltb_spec 0 (offset + sz - (hi - 1) * bs));
      destruct (Z.ltb_spec (offset + sz - (hi - 1) * bs) (Z.min bs (size w - (hi - 1) * bs)));
      simpl; try lia;
      destruct (Z.ltb_spec 0 (Z.min bs (size w - (hi - 1) * bs))); simpl; lia. }
  split_and!; [|done|lia|].
  - unfold Read. destruct (Z.geb_spec offset (size w)); [lia|].
    rewrite E. simpl. rewrite Ew. simpl. fold bs.
    rewrite (Read_gather_cached bs _ w4 [] (init ++ [last])); [|done| |done].
    + simpl. by rewrite Edata.
    + intros b Hb. apply seqZ_elem in Hb. destruct (Hr b ltac:(lia)) as [Hb1 Hb2].
      split; [|done]. rewrite (ok_cache _ Hok4), Ebs4, Esz4.
      rewrite (ok_cache _ Hok3), Ebs3, Esz3 in Hb1. done.
  - rewrite Hres. pose proof (round_up_ge sz bs ltac:(lia)). lia.
Qed.

(** The peer of [Examples.net_serving] serves a fresh handle. *)
Lemma serving_5000_fetchable :
  serves (Examples.net_serving 5000) (Examples.opened (Examples.net_serving 5000) 5000 0) ∧
  cache_ok (Examples.opened (Examples.net_serving 5000) 5000 0) ∧
  none_failed (Examples.opened (Examples.net_serving 5000) 5000 0).
Proof.
  set (w := Examples.opened (Examples.net_serving 5000) 5000 0).
  assert (blockSize w = 4096) as Ebs by (vm_compute; reflexivity).
  assert (size w = 5000) as Esz by (vm_compute; reflexivity).
  assert (cache w = [None; None]) as Ec by (vm_compute; reflexivity).
  assert (h_peers (w_handle w) = [Examples.quis]) as Ep by (vm_compute; reflexivity).
  assert (is_Some (f_peers (w_fetcher w) !! Examples.quis)) as [r Er]
    by (vm_compute; by eexists).
  split_and!.
  - intros b Hb Hlt. rewrite Ebs, Esz in *.
    exists (replicate (Z.to_nat (Z.min 4096 (5000 - b * 4096))) Byte.x2a). split.
    + unfold realFetch. rewrite Ep, Ebs. simpl. by rewrite Er.
    + unfold len. rewrite length_replicate. lia.
  - intros b buf _. rewrite Ec. by destruct b as [|[|b]].
  - intros b c _ _. assert (active w = [None; None]) as -> by (vm_compute; reflexivity).
    by destruct b as [|[|b]].
Qed.

(** The example of the specification: 5000 bytes in blocks of 4096;
    [Read(4090, 20)] spans both blocks and returns 20 bytes. *)
Lemma Read_returns_requested_witness :
  ∃ data w',
    Read (Examples.net_serving 5000) Examples.sequential 4090 20
      (Examples.opened (Examples.net_serving 5000) 5000 0) = Ret (data, None, w') ∧
    len data = 20.
Proof.
  destruct serving_5000_fetchable as (Hs & Hco & Hnf).
  destruct (Read_returns_requested (Examples.net_serving 5000) Examples.sequential 4090 20
              (Examples.opened (Examples.net_serving 5000) 5000 0)
              serving_5000_reachable Hs Hco Hnf eq_refl)
    as (data & w' & E & Hlen & _).
  - vm_compute. split; [discriminate | reflexivity].
  - lia.
  - vm_compute. discriminate.
  - vm_compute. reflexivity.
  - vm_compute. discriminate.
  - vm_compute. discriminate.
  - exists data, w'. split; [exact E | exact Hlen].
Defined.

(** ** Further properties: peers and handles *)

Lemma Split_without s sep : occurs sep s = false → Split s sep = [s].
Proof.
  induction s as [|c s IH]; simpl; [done|].
  intros H. apply orb_false_iff in H as [Hc Hs]. rewrite Hc.
  by rewrite (IH Hs).
Qed.

Lemma Split_with s sep :
  occurs sep s = true → ∃ a b rest, Split s sep = a :: b :: rest.
Proof.
  induction s as [|c s IH]; simpl; [done|].
  destruct (Ascii.eqb c sep); simpl.
  - intros _. destruct s as [|c' s]; simpl; [by eexists _, _, _|].
    destruct (Ascii.eqb c' sep); [by eexists _, _, _|].
    destruct (Split s sep); by eexists _, _, _.
  - intros H. destruct (IH H) as (a & b & rest & ->). by eexists _, _, _.
Qed.

(** X1: [NewPeer] panics with an index out of range exactly on the
    identifiers without ["@"]: [ex[1]] does not exist then.  On every other
    identifier it returns, with a link or with the error of the dial. *)
Theorem NewPeer_panics_without_at net id :
  (NewPeer net id = Panic IndexOutOfRange ↔ occurs "@" id = false) ∧
  (occurs "@" id = true ↔ ∃ r, NewPeer net id = Ret r).
Proof.
  destruct (occurs "@" id) eqn:E.
  - destruct (Split_with _ _ E) as (a & b & rest & Es).
    assert (∃ r, NewPeer net id = Ret r) as [r Hr].
    { unfold NewPeer. rewrite Es.
      rewrite (bind_Ret _ _ a) by (by apply index_Ret).
      rewrite (bind_Ret _ _ b) by (by apply index_Ret).
      destruct (NewRUFSClient net b a); by eexists. }
    split; split; try done; [rewrite Hr; discriminate | by eexists].
  - assert (NewPeer net id = Panic IndexOutOfRange) as Hp.
    { unfold NewPeer. rewrite (Split_without _ _ E).
      rewrite (bind_Ret _ _ id) by (by apply index_Ret). done. }
    split; split; try done. intros [r Hr]. rewrite Hp in Hr. discriminate.
Qed.

(** ** Further properties: the fetch of a block *)

Lemma realFetch_peers_refused net reg hash offset bs ps : ∀ retErr,
  Forall (λ p, ∀ r data, reg !! p = Some r →
                 RemoteRead net (client r) hash offset bs ≠ inl data) ps →
  realFetch_peers net reg hash offset bs ps retErr
  = (None,
     Some (default retErr
             (last (omap (λ p, r ← reg !! p;
                               match RemoteRead net (client r) hash offset bs with
                               | inr e => Some e
                               | inl _ => None
                               end) ps)))).
Proof.
  induction ps as [|p ps IH]; intros retErr H; simpl; [done|].
  apply Forall_cons in H as [Hp Hps].
  destruct (reg !! p) as [r|] eqn:Er; simpl; [|by apply IH].
  destruct (RemoteRead net (client r) hash offset bs) as [data|e] eqn:Eread.
  { by destruct (Hp r data). }
  rewrite (IH e Hps).
  rewrite last_cons. by destruct (last _).
Qed.

(** X2: [realFetch] asks the peers of the handle in their order and returns
    the data of the first one that is in the registry and answers: the
    peers before it that are not in the registry or refuse are skipped, and
    whatever peers come after it does not matter. *)
Theorem realFetch_first_answer net w offset ps1 p ps2 data :
  h_peers (w_handle w) = ps1 ++ p :: ps2 →
  Forall (λ q, ∀ d, ¬ answers net w offset q d) ps1 →
  answers net w offset p data →
  realFetch net w offset = (data, None).
Proof.
  intros Hps Hrefuse Hans. unfold realFetch. rewrite Hps. clear Hps.
  generalize ErrNoPeerFetch.
  induction ps1 as [|q ps1 IH]; intros retErr; simpl.
  - destruct Hans as (r & -> & Hr). by rewrite Hr.
  - apply Forall_cons in Hrefuse as [Hq Hrest].
    destruct (f_peers (w_fetcher w) !! q) as [r|] eqn:Er; [|by apply IH].
    destruct (RemoteRead net (client r) _ offset _) as [d|e] eqn:Eread; [|by apply IH].
    destruct (Hq d). by exists r.
Qed.

(** X3: when no peer of the handle is in the registry and answers,
    [realFetch] returns no data and the error of the last peer that
    refused, or "Couldn't find peer with file" when none of the peers is
    in the registry. *)
Theorem realFetch_all_refuse net w offset :
  Forall (λ q, ∀ d, ¬ answers net w offset q d) (h_peers (w_handle w)) →
  realFetch net w offset
  = (None, Some (default ErrNoPeerFetch
                   (last (omap (refusal net w offset) (h_peers (w_handle w)))))) ∧
  ((∀ q, q ∈ h_peers (w_handle w) → f_peers (w_fetcher w) !! q = None) →
   realFetch net w offset = (None, Some ErrNoPeerFetch)).
Proof.
  intros H.
  assert (realFetch net w offset
          = (None, Some (default ErrNoPeerFetch
                           (last (omap (refusal net w offset) (h_peers (w_handle w)))))))
    as E.
  { unfold realFetch. rewrite realFetch_peers_refused; [done|].
    eapply Forall_impl; [exact H|]. intros q Hq r data Hr Hd. apply (Hq data). by exists r. }
  split; [done|]. intros Hnone. rewrite E. do 2 f_equal.
  assert (omap (refusal net w offset) (h_peers (w_handle w)) = []) as ->; [|done].
  clear E H. revert Hnone. generalize (h_peers (w_handle w)) as ps.
  induction ps as [|q ps IH]; intros Hnone; simpl; [done|].
  unfold refusal at 1. rewrite Hnone by (by left). simpl.
  apply IH. intros q' Hq'. apply Hnone. by right.
Qed.

(** ** Further properties: the registry *)

Lemma NewPeer_shape net p r err :
  NewPeer net p = Ret (r, err) →
  (is_Some r ∧ err = None) ∨ (r = None ∧ is_Some err).
Proof.
  unfold NewPeer. intros H. inv_bind H as ex0 E0. inv_bind H as ex1 E1.
  destruct (NewRUFSClient net ex1 ex0); injection H as <- <-; eauto.
Qed.

(** What the peer loop of [NewHandle] does to the registry and the flag. *)
Lemma NewHandle_peers_spec net ps : ∀ reg found reg' found',
  NewHandle_peers net ps reg found = Ret (reg', found') →
  (∀ p r, reg' !! p = Some r →
     reg !! p = Some r ∨ (p ∈ ps ∧ reg !! p = None ∧ NewPeer net p = Ret (Some r, None))) ∧
  (found' = false →
     found = false ∧ reg' = reg ∧
     ∀ p, p ∈ ps → reg !! p = None ∧ ∃ e, NewPeer net p = Ret (None, Some e)) ∧
  (found' = true → found = true ∨ ∃ p, p ∈ ps ∧ is_Some (reg' !! p)).
Proof.
  induction ps as [|q ps IH]; simpl; intros reg found reg' found' H.
  - injection H as <- <-. split_and!; [by left | | by left].
    intros ->. split_and!; [done..|]. intros p Hp. by apply elem_of_nil in Hp.
  - destruct (reg !! q) as [rq|] eqn:Eq.
    { pose proof (NewHandle_peers_true _ _ _ _ _ H) as ->.
      destruct (IH _ _ _ _ H) as (H1 & _ & _).
      split_and!; [|done|].
      - intros p r Hp. destruct (H1 p r Hp) as [?|(? & ? & ?)]; [by left|].
        right. split_and!; [by right | done..].
      - intros _. right. exists q. split; [by left|].
        exists rq. by eapply NewHandle_peers_mono. }
    inv_bind H as [r err] E.
    destruct (NewPeer_shape _ _ _ _ E) as [[[r' ->] ->] | [-> [e ->]]].
    + pose proof (NewHandle_peers_true _ _ _ _ _ H) as ->.
      destruct (IH _ _ _ _ H) as (H1 & _ & _).
      split_and!; [|done|].
      * intros p r Hp. destruct (decide (p = q)) as [->|Hne].
        -- right. split_and!; [by left | done |].
           assert (reg' !! q = Some r') as Hq.
           { eapply NewHandle_peers_mono; [done|]. by rewrite lookup_insert_eq. }
           rewrite Hq in Hp. by injection Hp as <-.
        -- destruct (H1 p r Hp) as [Hp'|(? & Hp' & ?)].
           ++ rewrite lookup_insert_ne in Hp' by done. by left.
           ++ rewrite lookup_insert_ne in Hp' by done.
              right. split_and!; [by right | done..].
      * intros _. right. exists q. split; [by left|].
        exists r'. eapply NewHandle_peers_mono; [done|]. by rewrite lookup_insert_eq.
    + destruct (IH _ _ _ _ H) as (H1 & H2 & H3).
      split_and!.
      * intros p r Hp. destruct (H1 p r Hp) as [?|(? & ? & ?)]; [by left|].
        right. split_and!; [by right | done..].
      * intros Hf. destruct (H2 Hf) as (-> & -> & Hall). split_and!; [done..|].
        intros p Hp. apply elem_of_cons in Hp as [->|Hp]; [|by apply Hall].
        split; [done | by exists e].
      * intros Hf. destruct (H3 Hf) as [?|(p & Hp & Hs)]; [by left|].
        right. exists p. split; [by right | done].
Qed.

(** X4: [NewHandle] never removes or replaces a peer of the registry; a
    peer it adds is one of the handle's peers whose [NewPeer] succeeded.
    It fails, with "didn't find peer with file" and the registry
    untouched, exactly when none of the peers was in the registry and none
    could be dialed; a handle it returns has a peer in the registry. *)
Theorem NewHandle_registry net f hash sz peers f' out :
  NewHandle net f hash sz peers = Ret (f', out) →
  f_blockSize f' = f_blockSize f ∧
  f_peers f ⊆ f_peers f' ∧
  (∀ p r, f_peers f' !! p = Some r →
     f_peers f !! p = Some r ∨
     (p ∈ peers ∧ f_peers f !! p = None ∧ NewPeer net p = Ret (Some r, None))) ∧
  match out with
  | inr e =>
      e = ErrNoPeer ∧ f' = f ∧
      ∀ p, p ∈ peers → f_peers f !! p = None ∧ ∃ e', NewPeer net p = Ret (None, Some e')
  | inl h =>
      (∃ p, p ∈ peers ∧ is_Some (f_peers f' !! p)) ∧
      h_hash h = hash ∧ h_size h = sz ∧ h_peers h = peers ∧ h_lastErr h = None ∧
      Forall (λ c, c = None) (h_cache h) ∧ Forall (λ a, a = None) (h_active h)
  end.
Proof.
  intros H. unfold NewHandle in H.
  inv_bind H as q Eq. inv_bind H as c Ec. inv_bind H as a Ea.
  inv_bind H as [reg found] Ep.
  destruct (NewHandle_peers_spec _ _ _ _ _ _ Ep) as (H1 & H2 & H3).
  assert (f_peers f ⊆ reg) as Hsub.
  { apply map_subseteq_spec. intros p r Hp. by eapply NewHandle_peers_mono. }
  destruct found; injection H as <- <-; simpl.
  - split_and!; try done.
    + destruct (H3 eq_refl) as [?|?]; done.
    + apply make_Ret in Ec as [_ ->]. by apply Forall_replicate.
    + apply make_Ret in Ea as [_ ->]. by apply Forall_replicate.
  - destruct (H2 eq_refl) as (_ & -> & Hall).
    split_and!; try done. by destruct f.
Qed.

(** X5: with a [fetch_block_size_power] of 64 or more the block size
    [1 << power] is 0, and every [NewHandle] on that fetcher panics with a
    division by zero, before it looks at any peer. *)
Theorem NewHandle_zero_blockSize net f hash sz peers power :
  64 ≤ power → f_blockSize f = GetFetcher_blockSize power →
  NewHandle net f hash sz peers = Panic IntegerDivideByZero.
Proof.
  intros Hp Hbs. unfold NewHandle. rewrite Hbs. unfold GetFetcher_blockSize.
  destruct (Z.ltb_spec power 64); [lia|]. done.
Qed.

Lemma NewHandle_zero_blockSize_witness :
  NewHandle Examples.net_deaf {| f_peers := ∅; f_blockSize := GetFetcher_blockSize 64 |}
    "cafe" 5000 [Examples.quis] = Panic IntegerDivideByZero.
Proof.
  apply (NewHandle_zero_blockSize Examples.net_deaf
           {| f_peers := ∅; f_blockSize := GetFetcher_blockSize 64 |}
           "cafe" 5000 [Examples.quis] 64); [lia | reflexivity].
Defined.

(** ** Further properties: the block list *)

(** X6: the blocks a [Read] needs are exactly the blocks that overlap the
    requested range [[offset, offset+size)], each listed once by its start
    offset, in ascending order (for non-negative arguments whose sum with
    the block size does not overflow). *)
Theorem Read_blocks_overlap offset sz bs :
  0 < bs ≤ MaxInt64 → 0 ≤ offset → 0 ≤ sz → offset + sz + bs ≤ MaxInt64 →
  ∃ blocks,
    Read_blocks offset sz bs = Ret blocks ∧
    (∀ o, o ∈ blocks ↔ ∃ b, o = b * bs ∧ b * bs < offset + sz ∧ offset < (b + 1) * bs) ∧
    (∀ i j oi oj, blocks !! i = Some oi → blocks !! j = Some oj → (i < j)%nat → oi < oj) ∧
    len blocks = ceil_div (offset + sz) bs - offset / bs.
Proof.
  intros Hbs Ho Hsz Hov. eexists. split; [by apply Read_blocks_exact|].
  set (lo := offset / bs). set (hi := (offset + sz + bs - 1) / bs).
  assert (∀ b, lo ≤ b < lo + (hi - lo) ↔ b * bs < offset + sz ∧ offset < (b + 1) * bs) as Hiff.
  { intros b. unfold lo, hi.
    pose proof (Z.div_mod offset bs ltac:(lia)).
    pose proof (Z.mod_pos_bound offset bs ltac:(lia)).
    pose proof (Z.div_mod (offset + sz + bs - 1) bs ltac:(lia)).
    pose proof (Z.mod_pos_bound (offset + sz + bs - 1) bs ltac:(lia)).
    split; intros [Hb1 Hb2]; split; nia. }
  assert (lo ≤ hi) as Hle.
  { unfold lo, hi. apply Z.div_le_mono; lia. }
  split_and!.
  - intros o. rewrite list_elem_of_fmap. split.
    + intros (b & -> & Hb). apply seqZ_elem in Hb. exists b. split; [done|]. by apply Hiff.
    + intros (b & -> & Hb). exists b. split; [done|]. apply seqZ_elem. by apply Hiff.
  - intros i j oi oj Hi Hj Hij.
    rewrite list_lookup_fmap in Hi, Hj.
    destruct (seqZ lo (hi - lo) !! i) as [bi|] eqn:Ei; [|done].
    destruct (seqZ lo (hi - lo) !! j) as [bj|] eqn:Ej; [|done].
    injection Hi as <-. injection Hj as <-.
    apply lookup_seqZ in Ei as [-> _]. apply lookup_seqZ in Ej as [-> _]. nia.
  - unfold len. rewrite length_fmap, length_seqZ. unfold ceil_div.
    replace (offset + sz + bs - 1) with (offset + sz + bs - 1) by lia. fold hi. lia.
Qed.

Lemma Read_blocks_overlap_witness :
  ∃ blocks,
    Read_blocks 4090 20 4096 = Ret blocks ∧
    (∀ o, o ∈ blocks ↔ ∃ b, o = b * 4096 ∧ b * 4096 < 4090 + 20 ∧ 4090 < (b + 1) * 4096) ∧
    (∀ i j oi oj, blocks !! i = Some oi → blocks !! j = Some oj → (i < j)%nat → oi < oj) ∧
    len blocks = ceil_div (4090 + 20) 4096 - 4090 / 4096.
Proof.
  apply (Read_blocks_overlap 4090 20 4096); unfold MaxInt64; lia.
Defined.

(** ** Further properties: streams *)

(** X7: at or after the end of the content the stream's [Read] launches
    nothing and touches nothing: it returns 0 bytes with [io.EOF] (with no
    error for an empty buffer), and leaves the buffer, the cursor and the
    handle as they were. *)
Theorem Stream_Read_at_end net s p w :
  size w ≤ s_offset s → MinInt64 ≤ s_offset s ≤ MaxInt64 →
  Stream_Read net s p w
  = Ret (p, 0, (if 0 <? len p then Some EOF else None), s, w).
Proof.
  intros Hend Hr. unfold Stream_Read, Read.
  destruct (Z.geb_spec (s_offset s) (size w)); [|lia]. simpl.
  change (len []) with 0. unfold add64. change (int64 0) with 0.
  rewrite Z.add_0_r, int64_id by done.
  unfold copy. simpl. rewrite drop_0, take_nil. by destruct s.
Qed.

Lemma Stream_Read_at_end_witness :
  Stream_Read Examples.net_deaf (Stream 5000) (Examples.buffer 10)
    (Examples.opened Examples.net_deaf 5000 0)
  = Ret (Examples.buffer 10, 0, Some EOF, Stream 5000,
         Examples.opened Examples.net_deaf 5000 0).
Proof.
  apply (Stream_Read_at_end Examples.net_deaf (Stream 5000) (Examples.buffer 10)
           (Examples.opened Examples.net_deaf 5000 0)).
  - vm_compute. discriminate.
  - unfold MinInt64, MaxInt64. simpl. lia.
Defined.

(** ** Further properties: goroutines and the wait *)

(** X8: in every reachable state a fetch goroutine in flight runs to its
    end without a panic, whatever the network answers: its slot is in
    range and its marker is there and still open, so it is closed exactly
    once.  The goroutine closes that marker and no other, leaves all the
    markers in place, and either stores the data in the slot of its own
    block or, on an error, records the error and leaves the cache alone. *)
Theorem fetch_goroutine_completes net i w g :
  reachable w → w_running w !! i = Some g →
  ∃ c w',
    run_goroutine net i w = Ret w' ∧
    active w !! Z.to_nat (g_block g) = Some (Some c) ∧ w_chans w !! c = Some false ∧
    w_chans w' = <[c := true]> (w_chans w) ∧
    active w' = active w ∧
    w_running w' = delete i (w_running w) ∧
    match realFetch net w (g_offset g) with
    | (buf, None) =>
        cache w' = <[Z.to_nat (g_block g) := buf]> (cache w) ∧ lastErr w' = lastErr w
    | (_, Some e) => cache w' = cache w ∧ lastErr w' = Some e
    end.
Proof.
  intros Hreach Hg. pose proof (reachable_ok _ Hreach) as Hok.
  destruct (run_goroutine_spec net i w g Hok Hg) as (c & Hm & Hch & E).
  exists c, (finish (g_block g) (realFetch net w (g_offset g)) c
               (set_running (delete i (w_running w)) w)).
  split_and!; [done..| | | |].
  - by rewrite finish_chans.
  - by rewrite finish_active.
  - by rewrite finish_running.
  - unfold finish. by destruct (realFetch net w (g_offset g)) as [buf [e|]].
Qed.

Lemma fetch_goroutine_completes_witness :
  ∃ c w',
    run_goroutine Examples.net_deaf 0 Examples.failing = Ret w' ∧
    active Examples.failing !! 0%nat = Some (Some c) ∧
    w_chans Examples.failing !! c = Some false ∧
    w_chans w' = <[c := true]> (w_chans Examples.failing) ∧
    w_running w' = [] ∧
    cache w' = cache Examples.failing ∧ lastErr w' = Some "unreachable"%string.
Proof.
  destruct (fetch_goroutine_completes Examples.net_deaf 0 Examples.failing
              {| g_offset := 0; g_block := 0 |} failing_reachable eq_refl)
    as (c & w' & E & Hm & Hch & Hchs & _ & Hrun & Hres).
  exists c, w'. split_and!; [exact E | exact Hm | exact Hch | exact Hchs | exact Hrun | |].
  - exact (proj1 Hres).
  - exact (proj2 Hres).
Defined.

(** X9: the wait of a [Read] never blocks for ever.  In a reachable state
    every marker the critical section hands to the wait is closed already
    or belongs to a fetch goroutine in flight, which closes it when it
    ends; so the wait returns, having let only fetch goroutines end, either
    interrupted (only if the context is cancelled) or with all its markers
    closed. *)
Theorem Read_wait_ends net sch offset sz w w1 blocks unfetched :
  reachable w → MinInt64 ≤ offset ≤ MaxInt64 →
  Read_locked offset sz w = Ret (w1, blocks, unfetched) →
  ∃ w2 interrupted,
    Read_wait net sch unfetched w1 = Ret (w2, interrupted) ∧
    fetches_end (λ n, n = net) w1 w2 ∧
    (interrupted = true → ctx_done sch = true) ∧
    (interrupted = false → Forall (λ m, is_closed w2 m = true) unfetched) ∧
    active w2 = active w1.
Proof.
  intros Hreach Ho H. pose proof (reachable_ok _ Hreach) as Hok.
  destruct (Read_locked_after _ _ _ _ _ _ Hok Ho H)
    as (lo & hi & _ & _ & _ & Hms & _ & _ & Hok1 & _).
  destruct (Read_wait_spec net sch unfetched _ w1 Hok1 Hms) as (w2 & intr & E & Hend & Hi & Hcl).
  exists w2, intr. split_and!; try done.
  by destruct (fetches_end_active _ _ _ Hend Hok1).
Qed.

Lemma Read_wait_ends_witness :
  ∃ w1 blocks unfetched w2,
    Read_locked 0 10 (Examples.opened (Examples.net_serving 5000) 5000 0)
      = Ret (w1, blocks, unfetched) ∧
    Read_wait (Examples.net_serving 5000) Examples.sequential unfetched w1 = Ret (w2, false) ∧
    Forall (λ m, is_closed w2 m = true) unfetched ∧ unfetched ≠ [].
Proof.
  destruct (Read_locked 0 10 (Examples.opened (Examples.net_serving 5000) 5000 0))
    as [[[w1 blocks] unfetched]|] eqn:E; [|vm_compute in E; discriminate].
  assert (MinInt64 ≤ 0 ≤ MaxInt64) as Ho by (unfold MinInt64, MaxInt64; lia).
  destruct (Read_wait_ends (Examples.net_serving 5000) Examples.sequential 0 10
              (Examples.opened (Examples.net_serving 5000) 5000 0) w1 blocks unfetched
              serving_5000_reachable Ho E)
    as (w2 & intr & Ew & _ & Hi & Hcl & _).
  destruct intr; [discriminate (Hi eq_refl)|].
  exists w1, blocks, unfetched, w2.
  split_and!; [reflexivity | exact Ew | exact (Hcl eq_refl) |].
  vm_compute in E. injection E as _ _ <-. discriminate.
Defined.

(** ** Further properties: cached reads and cancelled reads *)

Lemma filter_none {A} (P : A → Prop) `{∀ x, Decision (P x)} (l : list A) :
  (∀ x, x ∈ l → ¬ P x) → filter P l = [].
Proof.
  intros Hl. destruct (filter P l) as [|x k] eqn:E; [done|]. exfalso.
  assert (x ∈ filter P l) as Hx by (rewrite E; by left).
  apply list_elem_of_filter in Hx as [HP Hin]. by apply (Hl x).
Qed.

Lemma cached_lookup w b :
  0 ≤ b → cached w b = true → ∃ buf, cache w !! Z.to_nat b = Some (Some buf).
Proof.
  intros Hb. unfold cached, index.
  destruct ((0 <=? b) && (b <? Z.of_nat (length (cache w)))); [|done].
  destruct (cache w !! Z.to_nat b) as [[buf|]|]; try done. by exists buf.
Qed.

(** X10: a [Read] whose needed blocks are all cached never waits: it has no
    marker to wait for, so its outcome is the same whatever the network
    does and whatever the state of its context, cancelled or not. *)
Theorem Read_cached_ignores_context net net' sch sch' offset sz w :
  reachable w → 0 ≤ offset → 0 ≤ sz → offset + sz + blockSize w ≤ MaxInt64 →
  (∀ b, b * blockSize w < offset + sz → offset < (b + 1) * blockSize w → cached w b = true) →
  Read net sch offset sz w = Read net' sch' offset sz w ∧
  ∀ w1 blocks unfetched,
    Read_locked offset sz w = Ret (w1, blocks, unfetched) → unfetched = [].
Proof.
  intros Hreach Ho Hsz Hov Hall. pose proof (reachable_ok _ Hreach) as Hok.
  pose proof (ok_blockSize _ Hok) as Hbs.
  assert (MinInt64 ≤ offset ≤ MaxInt64) as Ho' by i64.
  assert (∀ w1 blocks unfetched,
            Read_locked offset sz w = Ret (w1, blocks, unfetched) → unfetched = []) as Hnone.
  { intros w1 blocks unfetched E.
    destruct (Read_locked_after _ _ _ _ _ _ Hok Ho' E)
      as (lo & hi & _ & _ & _ & Hms & _ & _ & _ & -> & -> & _).
    rewrite quot_nonneg, hi_exact in Hms by (first [done | lia]).
    assert (filter (uncached w)
              (seqZ (offset / blockSize w)
                 ((offset + sz + blockSize w - 1) / blockSize w - offset / blockSize w)) = [])
      as Ef.
    { apply filter_none. intros b Hb. apply seqZ_elem in Hb.
      pose proof (Z.div_mod offset (blockSize w) ltac:(lia)).
      pose proof (Z.mod_pos_bound offset (blockSize w) ltac:(lia)).
      pose proof (Z.div_mod (offset + sz + blockSize w - 1) (blockSize w) ltac:(lia)).
      pose proof (Z.mod_pos_bound (offset + sz + blockSize w - 1) (blockSize w) ltac:(lia)).
      assert (0 ≤ offset / blockSize w) by (apply Z.div_pos; lia).
      destruct (cached_lookup w b) as [buf Hbuf]; [lia | apply Hall; nia |].
      by apply uncached_false in Hbuf. }
    rewrite Ef in Hms. by apply Forall2_nil_inv_l in Hms. }
  split; [|done]. unfold Read.
  destruct (offset >=? size w); [done|].
  destruct (Read_locked offset sz w) as [[[w1 blocks] unfetched]|p] eqn:E; [|done].
  by rewrite (Hnone _ _ _ eq_refl).
Qed.

Lemma Read_cached_ignores_context_witness :
  Read Examples.net_deaf {| ctx_done := true; ctx_first := true |} 0 10 Examples.after_block_0
  = Read (Examples.net_serving 20000) Examples.sequential 0 10 Examples.after_block_0.
Proof.
  assert (blockSize Examples.after_block_0 = 4096) as Ebs by (vm_compute; reflexivity).
  apply (Read_cached_ignores_context Examples.net_deaf (Examples.net_serving 20000)
           {| ctx_done := true; ctx_first := true |} Examples.sequential 0 10
           Examples.after_block_0 after_block_0_reachable).
  - lia.
  - lia.
  - rewrite Ebs. unfold MaxInt64. lia.
  - rewrite Ebs. intros b H1 H2. assert (b = 0) as -> by lia. vm_compute. reflexivity.
Defined.

Lemma cached_false w b :
  0 ≤ b → cached w b = false ↔ ∀ buf, cache w !! Z.to_nat b ≠ Some (Some buf).
Proof.
  intros Hb. unfold cached. destruct (index (cache w) b) as [[buf|]|p] eqn:E.
  - apply index_Ret in E as [_ E]. split; [done|]. intros H. by destruct (H buf).
  - apply index_Ret in E as [_ E]. split; [|done]. intros _ buf. by rewrite E.
  - split; [|done]. intros _ buf Hl.
    assert (index (cache w) b = Ret (Some buf)) as E' by (by apply index_Ret).
    rewrite E in E'. discriminate.
Qed.

Lemma in_flight_marker w b :
  handle_ok w → in_flight w b ≠ [] →
  0 ≤ b ∧ cache w !! Z.to_nat b = Some None ∧
  ∃ c, active w !! Z.to_nat b = Some (Some c) ∧ w_chans w !! c = Some false.
Proof.
  intros Hok Hne. unfold in_flight, for_block in Hne.
  destruct (filter (λ g, g_block g = b) (w_running w)) as [|g gs] eqn:E; [done|].
  assert (g ∈ filter (λ g, g_block g = b) (w_running w)) as Hg by (rewrite E; by left).
  apply list_elem_of_filter in Hg as [<- Hin].
  destruct (ok_running _ Hok g Hin) as (H0 & _ & Hc & Hm). done.
Qed.

(** X11: cancelling does not stop the fetches.  When the context of a [Read]
    is cancelled and a needed block is missing from the cache (each missing
    block being free or in flight), the [Read] still launches the fetches of
    its critical section, then returns [ErrInterrupted] at its first wait;
    every missing block stays in flight.  So does the [Read] of a stream
    after its [Close], which leaves the buffer and the cursor alone. *)
Theorem Read_cancelled net sch offset sz w w1 blocks unfetched :
  reachable w → ctx_done sch = true →
  MinInt64 ≤ offset ≤ MaxInt64 → offset < size w →
  Read_locked offset sz w = Ret (w1, blocks, unfetched) →
  (∀ b, b * blockSize w ∈ blocks → cached w b = false →
        slot_free w b ∨ in_flight w b ≠ []) →
  (∃ b, b * blockSize w ∈ blocks ∧ cached w b = false) →
  Read net sch offset sz w = Ret ([], Some ErrInterrupted, w1) ∧
  (∀ b, b * blockSize w ∈ blocks → cached w b = false → in_flight w1 b ≠ []) ∧
  ∀ s p, s_offset s = offset → len p = sz →
         Stream_Read net (Stream_Close s) p w
         = Ret (p, 0, Some ErrInterrupted, Stream_Close s, w1).
Proof.
  intros Hreach Hctx Ho Hlt E Hstate [b0 [Hb0 Hc0]].
  pose proof (reachable_ok _ Hreach) as Hok.
  pose proof (ok_blockSize _ Hok) as Hbs.
  destruct (Read_locked_after _ _ _ _ _ _ Hok Ho E)
    as (lo & hi & Ebl & Hne & Hr & Hms & _ & _ & Hok1 & _).
  destruct (Read_locked_frame _ _ _ _ _ _ Hok Ho E) as (Ebs1 & Esz1 & _).
  assert (∀ b, b * blockSize w ∈ blocks → cached w b = false →
               cache w !! Z.to_nat b = Some None) as Hmiss.
  { intros b Hb Hc. rewrite Ebl in Hb. apply block_needed in Hb; [|lia].
    destruct (Hr b ltac:(lia)) as [[Hb1 Hb2] _].
    rewrite (ok_cache _ Hok1), Ebs1, Esz1, <- (ok_cache _ Hok) in Hb2.
    pose proof (proj1 (cached_false w b Hb1) Hc) as Hc'.
    destruct (cache w !! Z.to_nat b) as [[buf|]|] eqn:El; [by destruct (Hc' buf) | done |].
    apply lookup_ge_None in El. unfold len in Hb2. lia. }
  assert (∀ b, b * blockSize w ∈ blocks → cached w b = false → in_flight w1 b ≠ [])
    as Hfly.
  { intros b Hb Hc. destruct (Hstate b Hb Hc) as [Hfree | Hin].
    - destruct (Read_locked_free _ _ _ _ _ _ b Hok Ho E Hb Hfree) as (gs & g & c & Er & Hgs & _).
      unfold in_flight. rewrite Er, for_block_app, Hgs. by destruct (for_block b (w_running w)).
    - destruct (in_flight_marker w b Hok Hin) as (_ & _ & c & Hm & _).
      destruct (Read_locked_marked _ _ _ _ _ _ b c Hok Ho E Hb Hm) as (gs & Er & _).
      unfold in_flight in *. rewrite Er, for_block_app.
      by destruct (for_block b (w_running w)). }
  assert (∀ sch', ctx_done sch' = true →
                  Read net sch' offset sz w = Ret ([], Some ErrInterrupted, w1)) as HR.
  { intros sch' Hd.
    (* the first marker awaited is open *)
    pose proof (Hmiss b0 Hb0 Hc0) as Hu0.
    rewrite Ebl in Hb0. apply block_needed in Hb0; [|lia].
    assert (b0 ∈ filter (uncached w) (seqZ lo (hi - lo))) as Hin0.
    { apply list_elem_of_filter. split; [by apply uncached_true | by apply seqZ_elem]. }
    destruct (filter (uncached w) (seqZ lo (hi - lo))) as [|b bs] eqn:Ef;
      [by apply elem_of_nil in Hin0|].
    assert (b ∈ filter (uncached w) (seqZ lo (hi - lo))) as Hb by (rewrite Ef; by left).
    apply list_elem_of_filter in Hb as [Hub Hbin]. apply seqZ_elem in Hbin.
    apply Forall2_cons_inv_l in Hms as (m & ms & (c & -> & Hm) & _ & ->).
    assert (b * blockSize w ∈ blocks) as Hbb.
    { rewrite Ebl. apply list_elem_of_fmap. exists b. split; [done | by apply seqZ_elem]. }
    assert (cached w b = false) as Hcb.
    { destruct (Hr b ltac:(lia)) as [[Hb1 _] _].
      apply (cached_false w b Hb1). intros buf Hbuf.
      by apply uncached_false in Hbuf. }
    destruct (in_flight_marker w1 b Hok1 (Hfly b Hbb Hcb)) as (_ & _ & c' & Hm' & Hopen).
    rewrite Hm in Hm'. injection Hm' as <-.
    unfold Read. destruct (Z.geb_spec offset (size w)); [lia|].
    rewrite E. simpl. unfold await. rewrite Hd. unfold is_closed. rewrite Hopen. done. }
  split_and!; [by apply HR | done |].
  intros s p <- <-. unfold Stream_Read. simpl. by rewrite HR.
Qed.

Lemma Read_cancelled_witness :
  ∃ w1,
    Read Examples.net_deaf {| ctx_done := true; ctx_first := false |} 0 10
      (Examples.opened Examples.net_deaf 5000 0) = Ret ([], Some ErrInterrupted, w1) ∧
    in_flight w1 0 ≠ [] ∧
    Stream_Read Examples.net_deaf (Stream_Close (Stream 0)) (Examples.buffer 10)
      (Examples.opened Examples.net_deaf 5000 0)
    = Ret (Examples.buffer 10, 0, Some ErrInterrupted, Stream_Close (Stream 0), w1).
Proof.
  set (w := Examples.opened Examples.net_deaf 5000 0).
  destruct (Read_locked 0 10 w) as [[[w1 blocks] unfetched]|] eqn:E;
    [|vm_compute in E; discriminate].
  assert (reachable w) as Hreach.
  { unfold w. destruct (Examples.open Examples.net_deaf 5000 0) as [w0|] eqn:E0;
      [|vm_compute in E0; discriminate].
    assert (0 ≤ 5000 ≤ MaxInt64) as Hsz by (unfold MaxInt64; lia).
    by destruct (opened_reachable _ _ _ _ Hsz E0) as [-> ?]. }
  assert (blocks = [0]) as Ebl by (vm_compute in E; by injection E as _ <- _).
  assert (blockSize w = 4096) as Ebs by (vm_compute; reflexivity).
  assert (MinInt64 ≤ 0 ≤ MaxInt64) as Ho by (unfold MinInt64, MaxInt64; lia).
  assert (0 < size w) as Hlt by (vm_compute; reflexivity).
  assert (∀ b, b * blockSize w ∈ blocks → b = 0) as Hb0.
  { intros b Hb. rewrite Ebl, Ebs in Hb. apply list_elem_of_singleton in Hb. lia. }
  destruct (Read_cancelled Examples.net_deaf {| ctx_done := true; ctx_first := false |}
              0 10 w w1 blocks unfetched Hreach eq_refl Ho Hlt E)
    as (HR & Hfly & HS).
  - intros b Hb _. rewrite (Hb0 b Hb). left. vm_compute. done.
  - exists 0. split; [rewrite Ebl; by left | vm_compute; reflexivity].
  - exists w1. split_and!; [exact HR | | exact (HS (Stream 0) (Examples.buffer 10) eq_refl eq_refl)].
    apply (Hfly 0); [rewrite Ebl; by left | vm_compute; reflexivity].
Defined.

Lemma realFetch_first_answer_witness :
  realFetch (Examples.net_partial 5000) (Examples.opened2 (Examples.net_partial 5000) 5000 0) 4096
  = (Some (replicate 904 x2a), None).
Proof.
  apply (realFetch_first_answer (Examples.net_partial 5000)
           (Examples.opened2 (Examples.net_partial 5000) 5000 0) 4096
           [Examples.gone] Examples.quis []).
  - vm_compute. reflexivity.
  - constructor; [|constructor]. intros d (r & Hr & _). vm_compute in Hr. discriminate.
  - unfold answers. eexists. split; vm_compute; reflexivity.
Defined.

Lemma realFetch_all_refuse_witness :
  realFetch Examples.net_deaf (Examples.opened Examples.net_deaf 5000 0) 0
  = (None, Some "unreachable"%string).
Proof.
  destruct (realFetch_all_refuse Examples.net_deaf (Examples.opened Examples.net_deaf 5000 0) 0)
    as [E _].
  - constructor; [|constructor]. intros d (r & Hr & Hd). vm_compute in Hd. discriminate.
  - exact E.
Defined.

Lemma NewHandle_registry_witness :
  ∃ f' h,
    NewHandle (Examples.net_partial 5000) Examples.fetcher0 "cafe" 5000
      [Examples.gone; Examples.quis] = Ret (f', inl h) ∧
    is_Some (f_peers f' !! Examples.quis) ∧ f_peers f' !! Examples.gone = None ∧
    h_cache h = [None; None] ∧ h_active h = [None; None].
Proof.
  destruct (NewHandle (Examples.net_partial 5000) Examples.fetcher0 "cafe" 5000
              [Examples.gone; Examples.quis]) as [[f' [h|e]]|p] eqn:E;
    try (vm_compute in E; discriminate).
  destruct (NewHandle_registry (Examples.net_partial 5000) Examples.fetcher0 "cafe" 5000
              [Examples.gone; Examples.quis] f' (inl h) E)
    as (_ & _ & Hnew & _ & _ & _ & _ & _ & _ & _).
  exists f', h. split; [reflexivity|].
  vm_compute in E. injection E as <- <-.
  split_and!; [by eexists | | reflexivity | reflexivity].
  destruct (f_peers _ !! Examples.gone) as [r|] eqn:Er; [|reflexivity].
  destruct (Hnew Examples.gone r Er) as [H | (_ & _ & H)]; vm_compute in H; discriminate.
Defined.

(** ** Further properties: reads keep the state reachable *)

Lemma fetches_end_reachable N w w' : fetches_end N w w' → reachable w → reachable w'.
Proof.
  induction 1 as [w | net i w w1 w' _ Hi H _ IH]; intros Hr; [done|].
  apply IH. apply (reachable_step w w1 Hr). by apply (step_fetch_done net i).
Qed.

Lemma Read_reachable net sch offset sz w data err w' :
  reachable w → MinInt64 ≤ offset ≤ MaxInt64 → MinInt64 ≤ sz ≤ MaxInt64 →
  Read net sch offset sz w = Ret (data, err, w') → reachable w'.
Proof.
  intros Hreach Ho Hsz H. unfold Read in H.
  destruct (Z.geb_spec offset (size w)) as [Hge|Hlt]; [by injection H as _ _ <-|].
  destruct (Read_locked offset sz w) as [[[w1 blocks] unfetched]|p] eqn:E; [|done].
  simpl in H.
  assert (reachable w1) as Hr1.
  { apply (reachable_step w w1 Hreach). by apply (step_Read offset sz w w1 blocks unfetched). }
  destruct (Read_locked_after _ _ _ _ _ _ (reachable_ok _ Hreach) Ho E)
    as (lo & hi & _ & _ & _ & Hms & _ & _ & Hok1 & _).
  destruct (Read_wait_spec net sch unfetched _ w1 Hok1 Hms) as (w2 & intr & Ew & Hend & _).
  rewrite Ew in H. simpl in H.
  pose proof (fetches_end_reachable _ _ _ Hend Hr1) as Hr2.
  destruct intr; [by injection H as _ _ <-|].
  inv_bind H as g Eg. destruct g as [bufs|e]; [|by injection H as _ _ <-].
  inv_bind H as ret Er. by injection H as _ _ <-.
Qed.

(** ** Further properties: eviction behind the first needed block *)

Lemma after_block_1_reachable : reachable Examples.after_block_1.
Proof.
  destruct (Examples.open (Examples.net_serving 20000) 20000 0) as [w0|] eqn:E0;
    [|vm_compute in E0; discriminate].
  assert (0 ≤ 20000 ≤ MaxInt64) as Hsz by (unfold MaxInt64; lia).
  destruct (opened_reachable _ _ _ _ Hsz E0) as [Eo Hr].
  unfold Examples.after_block_1. rewrite Eo.
  destruct (Read (Examples.net_serving 20000) Examples.sequential 4096 4096 w0)
    as [[[data err] w1]|] eqn:E; [|done].
  apply (Read_reachable _ _ _ _ _ _ _ _ Hr) in E; [done | |]; unfold MinInt64, MaxInt64; lia.
Qed.

(** X12: the purge, for the blocks it reaches.  When the first needed block
    of a [Read] is [b+1] with [b >= 1] and block [b] is cached, the
    critical section empties the slot of [b] and clears its marker, and
    changes no other slot of the cache; the next [Read] that needs [b]
    launches a new fetch for it. *)
Theorem Read_evicts_previous offset sz w w' blocks unfetched b buf :
  reachable w → MinInt64 ≤ offset ≤ MaxInt64 → prefetchBlocks w ≤ MaxInt64 →
  Read_locked offset sz w = Ret (w', blocks, unfetched) →
  index blocks 0 = Ret ((b + 1) * blockSize w) → 0 < b →
  cache w !! Z.to_nat b = Some (Some buf) →
  cache w' = <[Z.to_nat b := None]> (cache w) ∧
  slot_free w' b ∧
  ∀ offset2 sz2 w2 blocks2 unfetched2,
    MinInt64 ≤ offset2 ≤ MaxInt64 →
    Read_locked offset2 sz2 w' = Ret (w2, blocks2, unfetched2) →
    b * blockSize w ∈ blocks2 →
    in_flight w2 b ≠ [] ∧ in_flight w' b = [].
Proof.
  intros Hreach Ho Hk H Hfirst Hb Hc. pose proof (reachable_ok _ Hreach) as Hok.
  destruct (Read_evicts_behind _ _ _ _ _ _ _ _ Hok Ho H Hfirst Hb Hc) as [Ec Hfree].
  specialize (Hfree Hk).
  pose proof (Read_locked_ok _ _ _ _ _ _ Hok Ho H) as Hok'.
  destruct (Read_locked_frame _ _ _ _ _ _ Hok Ho H) as (Ebs & _).
  split_and!; [done..|].
  intros offset2 sz2 w2 blocks2 unfetched2 Ho2 H2 Hin. rewrite <- Ebs in Hin.
  destruct (Read_locked_free _ _ _ _ _ _ b Hok' Ho2 H2 Hin Hfree) as (gs & g & c & Er & Hgs & _).
  split.
  - unfold in_flight. rewrite Er, for_block_app, Hgs. by destruct (for_block b (w_running w')).
  - apply for_block_nil. intros g' Hg' E.
    destruct (ok_running _ Hok' g' Hg') as (_ & _ & _ & c' & Hm & _).
    destruct Hfree as (_ & _ & Hm'). rewrite E in Hm. congruence.
Qed.

Lemma Read_evicts_previous_witness :
  ∃ w' unfetched,
    Read_locked 8192 10 Examples.after_block_1 = Ret (w', [8192], unfetched) ∧
    cached Examples.after_block_1 1 = true ∧
    cache w' = <[1%nat := None]> (cache Examples.after_block_1) ∧ slot_free w' 1.
Proof.
  destruct (Read_locked 8192 10 Examples.after_block_1) as [[[w' bl] u]|] eqn:E;
    [|vm_compute in E; discriminate].
  assert (bl = [8192]) as -> by (vm_compute in E; by injection E as _ <- _).
  assert (MinInt64 ≤ 8192 ≤ MaxInt64) as H1 by (unfold MinInt64, MaxInt64; lia).
  assert (prefetchBlocks Examples.after_block_1 ≤ MaxInt64) as Hk by (vm_compute; discriminate).
  destruct (Read_evicts_previous 8192 10 Examples.after_block_1 w' [8192] u 1
              (replicate 4096 Byte.x2a) after_block_1_reachable H1 Hk E)
    as (Hc & Hfree & _); [vm_compute; reflexivity | lia | vm_compute; reflexivity |].
  exists w', u. split_and!; [done | vm_compute; reflexivity | exact Hc | exact Hfree].
Defined.

(** ** Further properties: where the critical section is safe *)

(** X13: where [Read] stays inside the arrays.  For a positive length, when
    the requested range ends within the slots of the handle
    ([offset+size <= len(cache)*blockSize]) and the arithmetic does not
    overflow, the critical section of [Read] completes without a panic:
    every block it lists has a slot, and the purge and the prefetch index
    nothing out of range. *)
Theorem Read_in_slots_completes offset sz w :
  reachable w → 0 ≤ offset < size w → 0 < sz →
  offset + sz ≤ len (cache w) * blockSize w →
  offset + sz + blockSize w ≤ MaxInt64 →
  0 ≤ prefetchBlocks w →
  (ceil_div (offset + sz) (blockSize w) + prefetchBlocks w) * blockSize w ≤ MaxInt64 →
  ∃ w' blocks unfetched,
    Read_locked offset sz w = Ret (w', blocks, unfetched) ∧
    blocks ≠ [] ∧
    (∀ o, o ∈ blocks → ∃ b, o = b * blockSize w ∧ 0 ≤ b < len (cache w)) ∧
    len (cache w') = len (cache w) ∧ len (active w') = len (active w) ∧
    reachable w'.
Proof.
  intros Hreach Ho Hsz Hfit Hov Hk Hpf. pose proof (reachable_ok _ Hreach) as Hok.
  pose proof (ok_blockSize _ Hok) as Hbs.
  unfold ceil_div in Hpf.
  assert ((offset + sz + blockSize w - 1) / blockSize w ≤ len (cache w)) as Hslots.
  { pose proof (Z.div_mod (offset + sz + blockSize w - 1) (blockSize w) ltac:(lia)).
    pose proof (Z.mod_pos_bound (offset + sz + blockSize w - 1) (blockSize w) ltac:(lia)).
    nia. }
  destruct (Read_locked_total offset sz w Hok ltac:(lia) Hsz Hov Hk Hpf Hslots)
    as (Hne & w' & u & E).
  assert (MinInt64 ≤ offset ≤ MaxInt64) as Ho' by i64.
  assert (MinInt64 ≤ sz ≤ MaxInt64) as Hsz' by i64.
  pose proof (Read_locked_ok _ _ _ _ _ _ Hok Ho' E) as Hok'.
  destruct (Read_locked_frame _ _ _ _ _ _ Hok Ho' E) as (Ebs & Esz & _).
  eexists w', _, u. split_and!; [exact E | | | | |].
  - rewrite seqZ_cons by lia. done.
  - intros o Hin. apply list_elem_of_fmap in Hin as (b & -> & Hb).
    apply seqZ_elem in Hb. exists b. split; [done|].
    pose proof (Z.div_pos offset (blockSize w) ltac:(lia) ltac:(lia)). lia.
  - by rewrite (ok_cache _ Hok'), (ok_cache _ Hok), Ebs, Esz.
  - by rewrite (ok_active _ Hok'), (ok_active _ Hok), Ebs, Esz.
  - apply (reachable_step w w' Hreach).
    eapply (step_Read offset sz); [done | done | lia | exact E].
Qed.

Lemma Read_in_slots_completes_witness :
  ∃ w' blocks unfetched,
    Read_locked 4090 4102 (Examples.opened (Examples.net_serving 5000) 5000 0)
    = Ret (w', blocks, unfetched) ∧ blocks ≠ [] ∧ reachable w'.
Proof.
  destruct (Read_in_slots_completes 4090 4102
              (Examples.opened (Examples.net_serving 5000) 5000 0) serving_5000_reachable)
    as (w' & blocks & unfetched & E & Hne & _ & _ & _ & Hr).
  - vm_compute. split; [discriminate | reflexivity].
  - lia.
  - vm_compute. discriminate.
  - vm_compute. discriminate.
  - vm_compute. discriminate.
  - vm_compute. discriminate.
  - exists w', blocks, unfetched. split_and!; [exact E | exact Hne | exact Hr].
Defined.

(** ** Further properties: a reply without data *)

(** X14: a reply without data is neither cached nor reported.  When the
    peer answers a block read with no data and no error, the goroutine
    stores [nil] in the slot and closes the marker: the block is not
    cached, its marker stays, no error is recorded.  A later [Read] that
    needs the block launches no fetch for it and, if not cancelled,
    returns no data together with whatever error was recorded last, which
    is no error at all if no fetch has failed. *)
Theorem empty_reply_reads_nothing net i w g :
  reachable w → w_running w !! i = Some g →
  realFetch net w (g_offset g) = (None, None) →
  ∃ w1 c,
    run_goroutine net i w = Ret w1 ∧
    lastErr w1 = lastErr w ∧ cache w1 = cache w ∧
    cache w1 !! Z.to_nat (g_block g) = Some None ∧
    active w1 !! Z.to_nat (g_block g) = Some (Some c) ∧ w_chans w1 !! c = Some true ∧
    in_flight w1 (g_block g) = [] ∧
    ∀ net' sch offset sz w2 blocks unfetched,
      MinInt64 ≤ offset ≤ MaxInt64 → offset < size w1 →
      Read_locked offset sz w1 = Ret (w2, blocks, unfetched) →
      g_offset g ∈ blocks →
      in_flight w2 (g_block g) = [] ∧
      (ctx_done sch = false →
       ∃ w3, Read net' sch offset sz w1 = Ret ([], lastErr w3, w3) ∧
             cache w3 !! Z.to_nat (g_block g) = Some None ∧
             in_flight w3 (g_block g) = []).
Proof.
  intros Hreach Hg He. pose proof (reachable_ok _ Hreach) as Hok.
  destruct (run_goroutine_spec net i w g Hok Hg) as (c & Hm & Hch & E).
  destruct (ok_running _ Hok g) as (Hb0 & Hoff & Hcg & _); [by eapply list_elem_of_lookup_2|].
  pose proof (finish_ok i w g (realFetch net w (g_offset g)) c Hok Hg Hm) as Hok1.
  set (w1 := finish _ _ _ _) in *.
  assert (lastErr w1 = lastErr w) as Hle by (unfold w1, finish; by rewrite He).
  assert (cache w1 = cache w) as Ec1.
  { unfold w1, finish. rewrite He. unfold cache. simpl. by apply list_insert_id. }
  assert (blockSize w1 = blockSize w) as Ebs by (unfold w1, finish; by rewrite He).
  assert (in_flight w1 (g_block g) = []) as Hidle.
  { unfold in_flight, w1. rewrite finish_running. simpl. apply for_block_nil.
    intros g' Hg'. by destruct (elem_of_delete_NoDup g_block _ _ _ _ (ok_nodup _ Hok) Hg Hg'). }
  exists w1, c. split_and!; try done.
  - by rewrite Ec1.
  - unfold w1. by rewrite finish_active.
  - unfold w1. rewrite finish_chans. simpl. apply list_lookup_insert_eq.
    by apply lookup_lt_Some in Hch.
  - intros net' sch offset sz w2 blocks unfetched Ho Hlt H Hin.
    assert (active w1 !! Z.to_nat (g_block g) = Some (Some c)) as Hm1
      by (unfold w1; by rewrite finish_active).
    rewrite Hoff, <- Ebs in Hin.
    destruct (Read_locked_marked _ _ _ _ _ _ _ c Hok1 Ho H Hin Hm1) as (gs & Er & Hgs).
    assert (in_flight w2 (g_block g) = []) as Hidle2.
    { unfold in_flight in *. by rewrite Er, for_block_app, Hidle, Hgs. }
    split; [done|]. intros Hctx.
    destruct (Read_locked_after _ _ _ _ _ _ Hok1 Ho H)
      as (_ & _ & _ & _ & _ & _ & Hkeep & _ & Hok2 & _).
    destruct (Read_missing net' sch offset sz w1 w2 blocks unfetched (g_block g)
                Hok1 Ho Hlt H Hctx Hin) as (w3 & ER & Hend & Hc3 & Hidle3); [|done|].
    { apply Hkeep. by rewrite Ec1. }
    by exists w3.
Qed.

Lemma starving_reachable : reachable Examples.starving.
Proof.
  destruct (Examples.open Examples.net_empty 5000 0) as [w0|] eqn:E0;
    [|vm_compute in E0; discriminate].
  assert (0 ≤ 5000 ≤ MaxInt64) as Hsz by (unfold MaxInt64; lia).
  destruct (opened_reachable _ _ _ _ Hsz E0) as [Eo Hr].
  unfold Examples.starving. rewrite Eo.
  destruct (Read_locked 0 10 w0) as [[[w bl] u]|] eqn:E; [|done].
  apply (reachable_step w0 w Hr).
  apply (step_Read 0 10 w0 w bl u); [unfold MinInt64, MaxInt64; lia.. | | done].
  vm_compute in E0. injection E0 as <-. reflexivity.
Qed.

Lemma empty_reply_reads_nothing_witness :
  ∃ w1 w3,
    run_goroutine Examples.net_empty 0 Examples.starving = Ret w1 ∧
    cache w1 !! 0%nat = Some None ∧ in_flight w1 0 = [] ∧
    Read Examples.net_empty Examples.sequential 0 10 w1 = Ret ([], None, w3).
Proof.
  destruct (empty_reply_reads_nothing Examples.net_empty 0 Examples.starving
              {| g_offset := 0; g_block := 0 |} starving_reachable eq_refl eq_refl)
    as (w1 & c & E & _ & _ & Hc & _ & _ & Hidle & HR).
  destruct (Read_locked 0 10 w1) as [[[w2 blocks] unfetched]|] eqn:E2.
  2:{ vm_compute in E. injection E as <-. vm_compute in E2. discriminate. }
  assert (MinInt64 ≤ 0 ≤ MaxInt64) as Ho by (unfold MinInt64, MaxInt64; lia).
  destruct (HR Examples.net_empty Examples.sequential 0 10 w2 blocks unfetched Ho) as [_ HR'].
  - vm_compute in E. injection E as <-. vm_compute. reflexivity.
  - exact E2.
  - vm_compute in E. injection E as <-. vm_compute in E2. injection E2 as _ <- _. by left.
  - destruct (HR' eq_refl) as (w3 & ER & _).
    assert (lastErr w3 = None) as El.
    { vm_compute in E. injection E as <-. vm_compute in ER. by injection ER as _ <-. }
    exists w1, w3. split_and!; [exact E | exact Hc | exact Hidle |].
    rewrite ER, El. reflexivity.
Defined.

(** ** Further properties: blocks shorter than expected *)

Lemma Read_cut_value offset sz bs o0 :
  0 < bs ≤ MaxInt64 → 0 ≤ o0 ≤ offset → 0 ≤ sz → offset + sz ≤ MaxInt64 →
  sub64 offset o0 = offset - o0 ∧
  Read_cut offset sz (int64 bs) o0 = Ret ((offset - o0 + sz) mod bs).
Proof.
  intros Hbs Ho0 Hsz Hov.
  assert (sub64 offset o0 = offset - o0) as Ebo by (unfold sub64; apply int64_id; i64).
  split; [done|].
  unfold Read_cut, rem64. rewrite Ebo. rewrite (int64_id bs) by i64.
  destruct (Z.eqb_spec bs 0); [lia|]. simpl.
  rewrite (int64_id sz) by i64. unfold add64. rewrite (int64_id (_ + _)) by i64.
  rewrite Z.rem_mod_nonneg by lia.
  pose proof (Z.mod_pos_bound (offset - o0 + sz) bs ltac:(lia)).
  by rewrite int64_id by i64.
Qed.

(** The needed blocks that are cached before the critical section, as the
    second critical section finds them when nothing was awaited. *)
Lemma Read_locked_all_cached offset sz w w1 blocks unfetched :
  handle_ok w → 0 ≤ offset → 0 ≤ sz → offset + sz + blockSize w ≤ MaxInt64 →
  (∀ b, b * blockSize w < offset + sz → offset < (b + 1) * blockSize w → cached w b = true) →
  Read_locked offset sz w = Ret (w1, blocks, unfetched) →
  unfetched = [] ∧
  blocks = (λ b, b * blockSize w) <$>
             seqZ (offset / blockSize w)
               ((offset + sz + blockSize w - 1) / blockSize w - offset / blockSize w) ∧
  offset / blockSize w < (offset + sz + blockSize w - 1) / blockSize w ∧
  ∃ got,
    Forall2 (λ b buf, cache w !! Z.to_nat b = Some (Some buf))
      (seqZ (offset / blockSize w)
         ((offset + sz + blockSize w - 1) / blockSize w - offset / blockSize w)) got ∧
    Read_gather (int64 (blockSize w)) blocks w1 [] = Ret (inl got).
Proof.
  intros Hok Ho Hsz Hov Hall E.
  pose proof (ok_blockSize _ Hok) as Hbs.
  assert (MinInt64 ≤ offset ≤ MaxInt64) as Ho' by i64.
  destruct (Read_locked_after _ _ _ _ _ _ Hok Ho' E)
    as (lo & hi & Ebl & Hne & Hr & Hms & _ & _ & Hok1 & -> & -> & Hkeep).
  rewrite quot_nonneg, hi_exact in * by (first [done | lia]).
  set (lo := offset / blockSize w) in *.
  set (hi := (offset + sz + blockSize w - 1) / blockSize w) in *.
  assert (∀ b, b ∈ seqZ lo (hi - lo) → ∃ buf, cache w !! Z.to_nat b = Some (Some buf)) as Hc.
  { intros b Hb. apply seqZ_elem in Hb. unfold lo, hi in Hb.
    pose proof (Z.div_mod offset (blockSize w) ltac:(lia)).
    pose proof (Z.mod_pos_bound offset (blockSize w) ltac:(lia)).
    pose proof (Z.div_mod (offset + sz + blockSize w - 1) (blockSize w) ltac:(lia)).
    pose proof (Z.mod_pos_bound (offset + sz + blockSize w - 1) (blockSize w) ltac:(lia)).
    assert (0 ≤ offset / blockSize w) by (apply Z.div_pos; lia).
    apply cached_lookup; [lia | apply Hall; nia]. }
  assert (filter (uncached w) (seqZ lo (hi - lo)) = []) as Ef.
  { apply filter_none. intros b Hb. destruct (Hc b Hb) as [buf Hbuf].
    by apply uncached_false in Hbuf. }
  rewrite Ef in Hms. apply Forall2_nil_inv_l in Hms as ->.
  split_and!; [done..|].
  destruct (Forall2_choice (λ b buf, cache w !! Z.to_nat b = Some (Some buf)) _ Hc)
    as [got Hgot].
  exists got. split; [done|]. rewrite Ebl.
  apply (Read_gather_cached (blockSize w) _ w1 [] got); [done| |].
  - intros b Hb. apply seqZ_elem in Hb. apply Hr. lia.
  - assert (Forall (λ b, lo ≤ b < hi) (seqZ lo (hi - lo))) as Hin.
    { apply Forall_forall. intros b Hb. apply seqZ_elem in Hb. lia. }
    eapply Forall2_impl; [exact (Forall2_and_l _ _ _ _ Hin Hgot)|].
    intros b buf [Hb Hbuf]. by apply Hkeep.
Qed.

Lemma nonempty_snoc {A} (l : list A) : l ≠ [] → ∃ init last, l = init ++ [last].
Proof.
  intros Hne. destruct (decide (l = [])) as [|_]; [done|].
  induction l as [|x l IH] using rev_ind; [done|]. by exists l, x.
Qed.

(** [Read_assemble] on buffers whose first one is shorter than the offset
    inside the first block. *)
Lemma Read_assemble_short offset sz bs o0 blocks (first : bytes) (rest : list bytes) :
  0 < bs ≤ MaxInt64 → 0 ≤ o0 ≤ offset → 0 ≤ sz → offset + sz ≤ MaxInt64 →
  len rest < MaxInt64 →
  index blocks 0 = Ret o0 →
  len first < offset - o0 →
  Read_assemble offset sz (int64 bs) blocks (first :: rest) = Panic SliceBoundsOutOfRange.
Proof.
  intros Hbs Ho0 Hsz Hov Hlen Hidx Hshort.
  destruct (Read_cut_value offset sz bs o0 Hbs Ho0 Hsz Hov) as [Ebo Ecut].
  unfold Read_assemble. rewrite Hidx. simpl. rewrite Ecut. simpl. rewrite Ebo.
  set (cut := (offset - o0 + sz) mod bs).
  destruct (nonempty_snoc (first :: rest)) as (init & last & Eb); [done|].
  rewrite Eb.
  destruct (Read_trim_tail_last cut init last) as (last' & -> & Hl').
  { assert (len (first :: rest) = len init + 1) as El by (rewrite Eb, len_app; done).
    unfold len in *. simpl in El. lia. }
  simpl.
  assert (∃ first' rest', init ++ [last'] = first' :: rest' ∧ len first' ≤ len first)
    as (first' & rest' & -> & Hf').
  { destruct init as [|x init]; simpl in *.
    - injection Eb as -> ->. exists last', []. split; [done|].
      rewrite Hl'. destruct (_ && _) eqn:Ec; [|lia].
      apply andb_true_iff in Ec as [_ Ec]. apply Z.ltb_lt in Ec. lia.
    - injection Eb as -> ->. exists x, (init ++ [last']). split; [done | lia]. }
  unfold Read_trim_head. pose proof (len_nonneg first').
  destruct (Z.gtb_spec (offset - o0) 0); [|lia].
  rewrite (bind_Ret _ _ first') by (by apply index_Ret).
  unfold slice_from.
  destruct (Z.leb_spec 0 (offset - o0)); [|lia].
  destruct (Z.leb_spec (offset - o0) (len first')); [lia|]. done.
Qed.

(** X15: a cached first block that is shorter than the offset inside it
    makes [Read] panic.  When all the needed blocks are cached and the
    buffer of the first one holds fewer bytes than [offset] lies behind
    the start of that block (the peer served less than a block), slicing
    [bufs[0][bo:]] panics with slice bounds out of range: [Read] does not
    return an error. *)
Theorem Read_short_block_panics net sch offset sz w buf :
  reachable w → 0 ≤ offset < size w → 0 < sz →
  offset + sz + blockSize w ≤ MaxInt64 →
  0 ≤ prefetchBlocks w →
  (ceil_div (offset + sz) (blockSize w) + prefetchBlocks w) * blockSize w ≤ MaxInt64 →
  (∀ b, b * blockSize w < offset + sz → offset < (b + 1) * blockSize w → cached w b = true) →
  cache w !! Z.to_nat (offset / blockSize w) = Some (Some buf) →
  len buf < offset mod blockSize w →
  Read net sch offset sz w = Panic SliceBoundsOutOfRange.
Proof.
  intros Hreach Ho Hsz Hov Hk Hpf Hall Hbuf Hshort.
  pose proof (reachable_ok _ Hreach) as Hok.
  pose proof (ok_blockSize _ Hok) as Hbs.
  unfold ceil_div in Hpf.
  set (lo := offset / blockSize w) in *.
  set (hi := (offset + sz + blockSize w - 1) / blockSize w) in *.
  pose proof (Z.div_mod offset (blockSize w) ltac:(lia)) as Hdm. fold lo in Hdm.
  pose proof (Z.mod_pos_bound offset (blockSize w) ltac:(lia)) as Hmb.
  pose proof (Z.div_mod (offset + sz + blockSize w - 1) (blockSize w) ltac:(lia)) as Hdh.
  pose proof (Z.mod_pos_bound (offset + sz + blockSize w - 1) (blockSize w) ltac:(lia)) as Hmh.
  fold hi in Hdh.
  assert (0 ≤ lo) as Hlo by (apply Z.div_pos; lia).
  assert (hi ≤ len (cache w)) as Hslots.
  { destruct (cached_lookup w (hi - 1)) as [last Hlast]; [nia | apply Hall; nia |].
    apply lookup_lt_Some in Hlast. unfold len. lia. }
  destruct (Read_locked_total offset sz w Hok ltac:(lia) Hsz Hov Hk Hpf Hslots)
    as (Hne & w1 & unfetched & E).
  destruct (Read_locked_all_cached offset sz w w1 _ unfetched Hok ltac:(lia) ltac:(lia)
              Hov Hall E) as (-> & _ & _ & got & Hgot & Eg).
  fold lo hi in Hgot, Eg, E, Hne.
  rewrite (seqZ_cons lo) in Hgot by lia.
  apply Forall2_cons_inv_l in Hgot as (first & rest & Hfirst & Hrest & ->).
  rewrite Hbuf in Hfirst. injection Hfirst as <-.
  unfold Read. destruct (Z.geb_spec offset (size w)); [lia|].
  rewrite E. simpl. rewrite Eg. simpl.
  rewrite (Read_assemble_short offset sz (blockSize w) (lo * blockSize w)); try done.
  - nia.
  - lia.
  - lia.
  - apply Forall2_length in Hrest. rewrite length_seqZ in Hrest. unfold len.
    unfold MaxInt64 in *. nia.
  - apply index_first_block. lia.
  - lia.
Qed.

Lemma truncated_reachable : reachable Examples.truncated.
Proof.
  destruct (Examples.open (Examples.net_serving 100) 5000 0) as [w0|] eqn:E0;
    [|vm_compute in E0; discriminate].
  assert (0 ≤ 5000 ≤ MaxInt64) as Hsz by (unfold MaxInt64; lia).
  destruct (opened_reachable _ _ _ _ Hsz E0) as [Eo Hr].
  unfold Examples.truncated. rewrite Eo.
  destruct (Read (Examples.net_serving 100) Examples.sequential 0 10 w0)
    as [[[data err] w1]|] eqn:E; [|done].
  apply (Read_reachable _ _ _ _ _ _ _ _ Hr) in E; [done | |]; unfold MinInt64, MaxInt64; lia.
Qed.

Lemma Read_short_block_panics_witness :
  cache Examples.truncated !! 0%nat = Some (Some (replicate 100 x2a)) ∧
  Read (Examples.net_serving 100) Examples.sequential 200 10 Examples.truncated
  = Panic SliceBoundsOutOfRange.
Proof.
  split; [vm_compute; reflexivity|].
  assert (blockSize Examples.truncated = 4096) as Ebs by (vm_compute; reflexivity).
  apply (Read_short_block_panics (Examples.net_serving 100) Examples.sequential 200 10
           Examples.truncated (replicate 100 x2a) truncated_reachable).
  - vm_compute. split; [discriminate | reflexivity].
  - lia.
  - rewrite Ebs. unfold MaxInt64. lia.
  - vm_compute. discriminate.
  - vm_compute. discriminate.
  - rewrite Ebs. intros b H1 H2. assert (b = 0) as -> by lia. vm_compute. reflexivity.
  - vm_compute. reflexivity.
  - vm_compute. reflexivity.
Defined.

(** ** Further properties: the bytes a read returns *)

Lemma Read_trim_tail_value cut (init : list bytes) (last : bytes) :
  len init < MaxInt64 →
  Read_trim_tail cut (init ++ [last])
  = Ret (init ++ [if (0 <? cut) && (cut <? len last) then take (Z.to_nat cut) last else last]).
Proof.
  intros Hlen. unfold Read_trim_tail.
  destruct (Z.gtb_spec cut 0) as [Hc|Hc].
  2:{ destruct (Z.ltb_spec 0 cut); [lia | done]. }
  assert (sub64 (len (init ++ [last])) 1 = len init) as El.
  { rewrite len_app. unfold sub64. change (len [last]) with 1.
    replace (len init + 1 - 1) with (len init) by lia. apply int64_id.
    pose proof (len_nonneg init). i64. }
  rewrite El.
  assert (Z.to_nat (len init) = length init) as En by (unfold len; lia).
  rewrite (bind_Ret _ _ last).
  2:{ apply index_Ret. split; [apply len_nonneg|].
      by rewrite En, lookup_app_r, Nat.sub_diag. }
  destruct (Z.ltb_spec 0 cut); [|lia]. simpl.
  destruct (Z.gtb_spec (len last) cut) as [Hl|Hl].
  - destruct (Z.ltb_spec cut (len last)); [|lia].
    unfold slice_to. destruct (Z.leb_spec 0 cut); [|lia].
    destruct (Z.leb_spec cut (len last)); [|lia]. simpl.
    unfold store. destruct (Z.leb_spec 0 (len init)); [|pose proof (len_nonneg init); lia].
    destruct (Z.ltb_spec (len init) (Z.of_nat (length (init ++ [last])))) as [|Hge];
      [|rewrite length_app in Hge; unfold len in *; simpl in Hge; lia].
    simpl. f_equal. rewrite En.
    rewrite insert_app_r_alt, Nat.sub_diag by lia. done.
  - destruct (Z.ltb_spec cut (len last)); [lia|]. done.
Qed.

Lemma Read_trim_head_value bo (first : bytes) (rest : list bytes) :
  0 ≤ bo ≤ len first →
  Read_trim_head bo (first :: rest) = Ret (drop (Z.to_nat bo) first :: rest).
Proof.
  intros Hbo. unfold Read_trim_head.
  destruct (Z.gtb_spec bo 0) as [Hc|Hc].
  - rewrite (bind_Ret _ _ first) by (by apply index_Ret).
    unfold slice_from. destruct (Z.leb_spec 0 bo); [|lia].
    destruct (Z.leb_spec bo (len first)); [|lia]. done.
  - by replace bo with 0 by lia.
Qed.

Lemma Read_join_value sz (bufs : list bytes) :
  0 ≤ sz → bufs ≠ [] → Read_join sz bufs = Ret (concat bufs).
Proof.
  intros Hsz Hne. unfold Read_join.
  destruct (Z.eqb_spec (len bufs) 1) as [E|E].
  - destruct bufs as [|b [|b' bufs]]; [done| |unfold len in E; simpl in E; lia].
    simpl. by rewrite app_nil_r.
  - unfold make_cap. destruct (Z.ltb_spec sz 0); [lia|]. simpl.
    by rewrite foldl_app_concat.
Qed.

(** What [Read] assembles from the buffers it gathered: the bytes of the
    buffers in a row, the last one cut at the cut point, without the
    first [offset - blocks[0]] bytes. *)
Lemma Read_assemble_value offset sz bs o0 blocks (init : list bytes) (last : bytes) :
  0 < bs ≤ MaxInt64 → 0 ≤ o0 ≤ offset → 0 ≤ sz → offset + sz ≤ MaxInt64 →
  len init < MaxInt64 →
  index blocks 0 = Ret o0 →
  (∀ first, head (init ++ [if (0 <? (offset - o0 + sz) mod bs)
                                 && ((offset - o0 + sz) mod bs <? len last)
                              then take (Z.to_nat ((offset - o0 + sz) mod bs)) last
                              else last]) = Some first →
            offset - o0 ≤ len first) →
  Read_assemble offset sz (int64 bs) blocks (init ++ [last])
  = Ret (drop (Z.to_nat (offset - o0))
           (concat (init ++ [if (0 <? (offset - o0 + sz) mod bs)
                                && ((offset - o0 + sz) mod bs <? len last)
                             then take (Z.to_nat ((offset - o0 + sz) mod bs)) last
                             else last]))).
Proof.
  intros Hbs Ho0 Hsz Hov Hlen Hidx Hfirst.
  destruct (Read_cut_value offset sz bs o0 Hbs Ho0 Hsz Hov) as [Ebo Ecut].
  unfold Read_assemble. rewrite Hidx. simpl. rewrite Ecut. simpl. rewrite Ebo.
  set (cut := (offset - o0 + sz) mod bs) in *.
  rewrite (Read_trim_tail_value cut init last Hlen). simpl.
  set (last' := if (0 <? cut) && (cut <? len last) then take (Z.to_nat cut) last else last) in *.
  destruct (init ++ [last']) as [|first rest] eqn:Eb.
  { by destruct init. }
  rewrite (Read_trim_head_value (offset - o0) first rest).
  2:{ split; [lia|]. by apply Hfirst. }
  simpl. rewrite Read_join_value by done. simpl.
  f_equal. rewrite drop_app_le; [done|].
  specialize (Hfirst first eq_refl). unfold len in Hfirst. lia.
Qed.

Lemma block_of_len c bs b :
  0 < bs → 0 ≤ b → b * bs < len c →
  len (block_of c bs b) = Z.min bs (len c - b * bs).
Proof.
  intros Hbs Hb Hlt. unfold block_of, len in *.
  rewrite length_take, length_drop. nia.
Qed.

Lemma serves_content_serves net w c : handle_ok w → serves_content net w c → serves net w.
Proof.
  intros Hok [Hlen Hs] b Hb Hlt. pose proof (ok_blockSize _ Hok).
  eexists. split; [by apply Hs|]. rewrite block_of_len, Hlen; [done | lia | done | lia].
Qed.

Lemma cache_holds_ok w c : handle_ok w → len c = size w → cache_holds w c → cache_ok w.
Proof.
  intros Hok Hlen Hc b buf Hlt Hb. pose proof (ok_blockSize _ Hok).
  rewrite (Hc b buf Hlt Hb), block_of_len, Hlen; [done | lia | lia | lia].
Qed.

Lemma serves_content_config net w w' c :
  config w' = config w → serves_content net w c → serves_content net w' c.
Proof.
  intros Ec [Hlen Hs].
  assert (blockSize w' = blockSize w ∧ size w' = size w) as [Eb Es].
  { unfold config, blockSize in *. injection Ec as Ef _ _ Es. by rewrite Ef. }
  split; [by rewrite Es|]. intros b Hb Hlt. rewrite Eb, Es in *.
  rewrite (realFetch_config net w w') by done. by apply Hs.
Qed.

Lemma Read_locked_holds offset sz w w' blocks unfetched c :
  handle_ok w → MinInt64 ≤ offset ≤ MaxInt64 →
  Read_locked offset sz w = Ret (w', blocks, unfetched) →
  cache_holds w c → cache_holds w' c.
Proof.
  intros Hok Ho E Hc b buf Hlt Hb.
  destruct (Read_locked_after _ _ _ _ _ _ Hok Ho E) as (_ & _ & _ & _ & _ & _ & _ & Hback & _).
  destruct (Read_locked_frame _ _ _ _ _ _ Hok Ho E) as (Ebs & Esz & _).
  rewrite Ebs, Esz in *. apply Hc; [done|]. by apply Hback.
Qed.

Lemma fetches_end_holds net w w' c :
  fetches_end (λ n, n = net) w w' → handle_ok w → serves_content net w c →
  cache_holds w c → cache_holds w' c.
Proof.
  induction 1 as [w | net' i w w1 w' -> Hi H _ IH]; intros Hok Hs Hc; [done|].
  destruct (lookup_lt_is_Some_2 _ _ Hi) as [g Hg].
  destruct (run_goroutine_spec net i w g Hok Hg) as (m & Hm & Hch & E).
  rewrite E in H. injection H as <-.
  apply IH; [by apply finish_ok | |].
  { eapply serves_content_config; [|done]. by rewrite finish_config. }
  destruct (ok_running _ Hok g) as (Hb0 & Hoff & Hcg & _); [by eapply list_elem_of_lookup_2|].
  set (r := realFetch net w (g_offset g)).
  assert (blockSize (finish (g_block g) r m (set_running (delete i (w_running w)) w))
          = blockSize w ∧
          size (finish (g_block g) r m (set_running (delete i (w_running w)) w)) = size w)
    as [Ebs Esz] by (unfold finish; by destruct (r.2)).
  intros b buf. rewrite Ebs, Esz. intros Hlt Hb.
  destruct (decide (b = Z.to_nat (g_block g))) as [->|Hne].
  - rewrite Z2Nat.id in Hlt by lia.
    assert (r = (Some (block_of c (blockSize w) (g_block g)), None)) as Er.
    { unfold r. rewrite Hoff. by apply Hs. }
    unfold finish in Hb. rewrite Er in Hb. simpl in Hb. unfold cache in Hb; simpl in Hb.
    rewrite list_lookup_insert_eq in Hb by (by apply lookup_lt_Some in Hcg).
    injection Hb as <-. by rewrite Z2Nat.id by lia.
  - apply Hc; [done|]. unfold finish in Hb. destruct (r.2); [done|].
    unfold cache in Hb; simpl in Hb. by rewrite list_lookup_insert_ne in Hb.
Qed.

Lemma blocks_concat c bs n : ∀ lo,
  0 < bs → 0 ≤ lo →
  concat ((λ b, block_of c bs b) <$> seqZ lo (Z.of_nat n))
  = take (Z.to_nat (Z.of_nat n * bs)) (drop (Z.to_nat (lo * bs)) c).
Proof.
  induction n as [|n IH]; intros lo Hbs Hlo; [done|].
  rewrite seqZ_cons by lia. rewrite fmap_cons. simpl concat.
  replace (Z.pred (Z.of_nat (S n))) with (Z.of_nat n) by lia.
  rewrite IH by lia. unfold block_of.
  replace (Z.to_nat (Z.succ lo * bs)) with (Z.to_nat (lo * bs) + Z.to_nat bs)%nat by nia.
  rewrite <- drop_drop, take_take_drop. f_equal. nia.
Qed.

Lemma Read_gather_inv bs bl w : ∀ bufs got,
  0 < bs ≤ MaxInt64 →
  (∀ b, b ∈ bl → 0 ≤ b ∧ MinInt64 ≤ b * bs ≤ MaxInt64) →
  Read_gather (int64 bs) ((λ b, b * bs) <$> bl) w bufs = Ret (inl got) →
  ∃ new, got = bufs ++ new ∧
         Forall2 (λ b buf, cache w !! Z.to_nat b = Some (Some buf)) bl new.
Proof.
  induction bl as [|b bl IH]; intros bufs got Hbs Hr H; simpl in H.
  - injection H as <-. exists []. by rewrite app_nil_r.
  - destruct (Hr b) as [Hb0 Hb]; [by left|].
    rewrite div64_block in H by done. simpl in H.
    inv_bind H as cb Ecb. apply index_Ret in Ecb as [_ Ecb].
    destruct cb as [buf|]; [|done].
    destruct (IH (bufs ++ [buf]) got Hbs) as (new & -> & Hnew); [|done|].
    { intros b' Hb'. apply Hr. by right. }
    exists (buf :: new). split; [by rewrite <- app_assoc|]. by constructor.
Qed.

(** [Read]'s trimming and joining, applied to the blocks of a file, give
    the requested bytes of the file. *)
Lemma Read_assemble_content c offset sz bs blocks :
  0 < bs ≤ MaxInt64 → 0 ≤ offset < len c → 0 < sz → offset + sz + bs ≤ MaxInt64 →
  ((offset + sz + bs - 1) / bs - 1) * bs < len c →
  index blocks 0 = Ret (offset / bs * bs) →
  Read_assemble offset sz (int64 bs) blocks
    ((λ b, block_of c bs b) <$> seqZ (offset / bs) ((offset + sz + bs - 1) / bs - offset / bs))
  = Ret (range_of c offset sz).
Proof.
  intros Hbs Ho Hsz Hov Hlast Hidx.
  set (lo := offset / bs) in *. set (hi := (offset + sz + bs - 1) / bs) in *.
  pose proof (Z.div_mod offset bs ltac:(lia)) as Hdm. fold lo in Hdm.
  pose proof (Z.mod_pos_bound offset bs ltac:(lia)) as Hmb.
  pose proof (last_block_bounds (offset + sz) bs ltac:(lia) ltac:(lia)) as Hrb.
  unfold ceil_div in Hrb. fold hi in Hrb.
  assert (0 ≤ lo) as Hlo by (apply Z.div_pos; lia).
  assert (lo < hi) as Hne by nia.
  set (bo := offset - lo * bs). set (e := offset + sz - (hi - 1) * bs) in *.
  set (n1 := hi - 1 - lo).
  assert (0 ≤ bo < bs) as Hbo by (unfold bo; lia).
  assert (0 ≤ n1) as Hn1 by (unfold n1; lia).
  pose proof (cut_value offset sz bs lo hi ltac:(lia) Hrb) as Ecut. fold bo e in Ecut.
  replace (hi - lo) with (n1 + 1) by (unfold n1; lia).
  rewrite seqZ_app by lia. rewrite (seqZ_cons _ 1) by lia. simpl seqZ.
  replace (lo + n1) with (hi - 1) by (unfold n1; lia).
  rewrite fmap_app. simpl fmap at 2.
  set (init := (λ b, block_of c bs b) <$> seqZ lo n1).
  set (X := drop (Z.to_nat ((hi - 1) * bs)) c).
  set (C' := drop (Z.to_nat (lo * bs)) c).
  assert (block_of c bs (hi - 1) = take (Z.to_nat bs) X) as Elast by done.
  assert (len X = len c - (hi - 1) * bs) as HlenX.
  { unfold X, len. rewrite length_drop. unfold len in Hlast. nia. }
  assert (len C' = len c - lo * bs) as HlenC.
  { unfold C', len. rewrite length_drop. unfold len in Ho. nia. }
  assert (X = drop (Z.to_nat (n1 * bs)) C') as EX.
  { unfold X, C'. rewrite drop_drop. f_equal. unfold n1. nia. }
  assert (concat init = take (Z.to_nat (n1 * bs)) C') as Einit.
  { unfold init. rewrite <- (Z2Nat.id n1) at 1 by lia.
    rewrite blocks_concat by lia. by rewrite Z2Nat.id by lia. }
  assert (len init = n1) as Hleninit.
  { unfold init, len. rewrite length_fmap, length_seqZ. lia. }
  assert ((if (0 <? (bo + sz) mod bs) && ((bo + sz) mod bs <? len (block_of c bs (hi - 1)))
           then take (Z.to_nat ((bo + sz) mod bs)) (block_of c bs (hi - 1))
           else block_of c bs (hi - 1)) = take (Z.to_nat e) X) as Elast'.
  { rewrite Ecut, Elast.
    assert (len (take (Z.to_nat bs) X) = Z.min bs (len X)) as Hl
      by (unfold len; rewrite length_take; lia).
    rewrite Hl.
    destruct (Z.ltb_spec e bs) as [He|He].
    - destruct (Z.ltb_spec 0 e); [|lia]. simpl.
      destruct (Z.ltb_spec e (Z.min bs (len X))) as [Hc|Hc].
      + rewrite take_take. f_equal. lia.
      + rewrite !take_ge; [done | unfold len in *; lia | unfold len in *; lia].
    - simpl. f_equal. lia. }
  rewrite (Read_assemble_value offset sz bs (lo * bs) blocks init (block_of c bs (hi - 1)));
    try done; fold bo.
  - rewrite Elast'. f_equal.
    rewrite concat_app. simpl. rewrite app_nil_r, Einit, EX, take_take_drop.
    unfold range_of.
    replace (Z.to_nat (n1 * bs) + Z.to_nat e)%nat with (Z.to_nat bo + Z.to_nat sz)%nat
      by (unfold n1, e, bo; nia).
    rewrite <- take_drop_commute. unfold C'. rewrite drop_drop. do 2 f_equal.
    unfold bo. nia.
  - nia.
  - lia.
  - lia.
  - rewrite Hleninit. unfold n1, MaxInt64 in *. nia.
  - rewrite Elast'. intros first Hfirst.
    destruct (decide (n1 = 0)) as [E0|E0].
    + unfold init in Hfirst. rewrite E0 in Hfirst. simpl in Hfirst. injection Hfirst as <-.
      assert ((hi - 1) * bs = lo * bs) as Ehl by (unfold n1 in E0; f_equal; lia).
      unfold len in *. rewrite length_take. unfold e, bo. lia.
    + unfold init in Hfirst. rewrite seqZ_cons in Hfirst by lia. simpl in Hfirst.
      injection Hfirst as <-. unfold block_of. fold C'. unfold len in *.
      rewrite length_take. unfold bo. lia.
Qed.

Lemma gathered_blocks w c (bl : list Z) (got : list bytes) :
  cache_holds w c →
  (∀ b, b ∈ bl → 0 ≤ b ∧ b * blockSize w < size w) →
  Forall2 (λ b buf, cache w !! Z.to_nat b = Some (Some buf)) bl got →
  got = (λ b, block_of c (blockSize w) b) <$> bl.
Proof.
  intros Hc Hr H. induction H as [|b buf bl got Hb _ IH]; [done|].
  destruct (Hr b) as [Hb0 Hlt]; [by left|].
  rewrite fmap_cons. f_equal.
  - rewrite (Hc (Z.to_nat b) buf); rewrite ?Z2Nat.id by lia; done.
  - apply IH. intros b' Hb'. apply Hr. by right.
Qed.

(** The run of a [Read] over fetchable content, and the state it leaves. *)
Lemma Read_fetchable_content net sch offset sz w content :
  reachable w → serves_content net w content → cache_holds w content → none_failed w →
  ctx_done sch = false →
  0 ≤ offset < size w → 0 < sz →
  offset + sz + blockSize w ≤ MaxInt64 →
  (ceil_div (offset + sz) (blockSize w) - 1) * blockSize w < size w →
  0 ≤ prefetchBlocks w →
  (ceil_div (offset + sz) (blockSize w) + prefetchBlocks w) * blockSize w ≤ MaxInt64 →
  ∃ w',
    Read net sch offset sz w = Ret (range_of content offset sz, None, w') ∧
    len (range_of content offset sz) = Z.min sz (size w - offset) ∧
    reachable w' ∧ serves_content net w' content ∧ cache_holds w' content ∧
    none_failed w'.
Proof.
  intros Hreach Hs Hc Hnf Hctx Ho Hsz Hov Hlast Hk Hpf.
  pose proof (reachable_ok _ Hreach) as Hok.
  pose proof (ok_blockSize _ Hok) as Hbs.
  pose proof (serves_content_serves _ _ _ Hok Hs) as Hs'.
  pose proof (cache_holds_ok _ _ Hok (proj1 Hs) Hc) as Hco.
  destruct (Read_returns_requested net sch offset sz w Hreach Hs' Hco Hnf Hctx Ho Hsz Hov
              Hlast Hk Hpf) as (data & w' & ER & Hlen & _).
  assert (MinInt64 ≤ offset ≤ MaxInt64) as Ho' by i64.
  assert (MinInt64 ≤ sz ≤ MaxInt64) as Hsz' by i64.
  pose proof (Read_reachable _ _ _ _ _ _ _ _ Hreach Ho' Hsz' ER) as Hreach'.
  (* the run of [Read] *)
  pose proof ER as ER'. unfold Read in ER'.
  destruct (Z.geb_spec offset (size w)); [lia|].
  destruct (Read_locked offset sz w) as [[[w1 blocks] unfetched]|p] eqn:E; [|done].
  simpl in ER'.
  destruct (Read_locked_after _ _ _ _ _ _ Hok Ho' E)
    as (lo & hi & Ebl & Hne & Hr & Hms & _ & _ & Hok1 & -> & -> & _).
  rewrite quot_nonneg, hi_exact in * by (first [done | lia]).
  destruct (Read_wait_spec net sch unfetched _ w1 Hok1 Hms) as (w2 & intr & Ew & Hend & Hi & _).
  rewrite Ew in ER'. simpl in ER'.
  destruct intr; [done|].
  inv_bind ER' as g Eg. destruct g as [bufs|e].
  2:{ injection ER' as <- _ _. change (len []) with 0 in Hlen. lia. }
  inv_bind ER' as ret Era. injection ER' as -> ->.
  (* the states on the way *)
  destruct (Read_locked_frame _ _ _ _ _ _ Hok Ho' E) as (Ebs1 & Esz1 & _).
  destruct (fetches_end_frame _ _ _ Hend Hok1) as [Ebs2 Esz2].
  destruct (fetches_end_active _ _ _ Hend Hok1) as [_ Hok2].
  pose proof (Read_locked_config _ _ _ _ _ _ Hok Ho' E) as Ecfg1.
  pose proof (fetches_end_config _ _ _ Hend Hok1) as Ecfg2.
  pose proof (serves_content_config net w w1 content Ecfg1 Hs) as Hs1.
  pose proof (serves_content_config net w1 w' content Ecfg2 Hs1) as Hs2.
  pose proof (Read_locked_holds _ _ _ _ _ _ content Hok Ho' E Hc) as Hc1.
  pose proof (fetches_end_holds _ _ _ _ Hend Hok1 Hs1 Hc1) as Hc2.
  destruct (Read_locked_healthy _ _ _ _ _ _ Hok Ho' E (conj Hco Hnf)) as [Hco1 Hnf1].
  destruct (fetches_end_healthy net _ _ Hend Hok1
              (serves_config net w w1 Ecfg1 Hs') (conj Hco1 Hnf1)) as [_ Hnf2].
  rewrite Ebs1 in Ebs2. rewrite Esz1 in Esz2.
  (* the buffers gathered are the blocks of the file *)
  unfold ceil_div in Hlast.
  set (lo := offset / blockSize w) in *.
  set (hi := (offset + sz + blockSize w - 1) / blockSize w) in *.
  assert (0 ≤ lo) as Hlo by (apply Z.div_pos; lia).
  rewrite Ebl in Eg, Era.
  apply Read_gather_inv in Eg as (new & -> & Hnew); [|done|].
  2:{ intros b Hb. apply seqZ_elem in Hb. split; [lia | apply Hr; lia]. }
  simpl in Era.
  assert (new = (λ b, block_of content (blockSize w') b) <$> seqZ lo (hi - lo)) as ->.
  { apply (gathered_blocks w' content _ new Hc2); [|done].
    intros b Hb. apply seqZ_elem in Hb. rewrite Ebs2, Esz2. split; [lia | nia]. }
  rewrite Ebs2 in Era.
  rewrite Read_assemble_content in Era; try done.
  - injection Era as <-. exists w'. split_and!; try done.
  - rewrite (proj1 Hs). lia.
  - rewrite (proj1 Hs). done.
  - fold lo. apply index_first_block. lia.
Qed.

(** X16: a read of fetchable content returns the requested bytes.  From a
    reachable state whose peers serve the file and whose cached blocks
    hold its bytes, with no block left failed, a [Read] of positive length
    that is not cancelled, whose last needed block starts inside the
    content and whose arithmetic does not overflow, returns without error
    exactly the bytes [[offset, offset+size)] of the file, cut at the end
    of the content, whichever of its blocks were cached, in flight or
    absent before; and it leaves a state of the same kind. *)
Theorem Read_returns_content net sch offset sz w content :
  reachable w → serves_content net w content → cache_holds w content → none_failed w →
  ctx_done sch = false →
  0 ≤ offset < size w → 0 < sz →
  offset + sz + blockSize w ≤ MaxInt64 →
  (ceil_div (offset + sz) (blockSize w) - 1) * blockSize w < size w →
  0 ≤ prefetchBlocks w →
  (ceil_div (offset + sz) (blockSize w) + prefetchBlocks w) * blockSize w ≤ MaxInt64 →
  ∃ w',
    Read net sch offset sz w = Ret (range_of content offset sz, None, w') ∧
    len (range_of content offset sz) = Z.min sz (size w - offset) ∧
    reachable w' ∧ serves_content net w' content ∧ cache_holds w' content ∧
    none_failed w'.
Proof. apply Read_fetchable_content. Qed.


Lemma sample_fetchable :
  reachable (Examples.opened (Examples.net_file Examples.sample) 5000 0) ∧
  serves_content (Examples.net_file Examples.sample)
    (Examples.opened (Examples.net_file Examples.sample) 5000 0) Examples.sample ∧
  cache_holds (Examples.opened (Examples.net_file Examples.sample) 5000 0) Examples.sample ∧
  none_failed (Examples.opened (Examples.net_file Examples.sample) 5000 0).
Proof.
  set (net := Examples.net_file Examples.sample).
  assert (reachable (Examples.opened net 5000 0)) as Hreach.
  { destruct (Examples.open net 5000 0) as [w0|] eqn:E0; [|vm_compute in E0; discriminate].
    assert (0 ≤ 5000 ≤ MaxInt64) as Hsz by (unfold MaxInt64; lia).
    by destruct (opened_reachable _ _ _ _ Hsz E0) as [-> ?]. }
  set (w := Examples.opened net 5000 0) in *.
  assert (blockSize w = 4096) as Ebs by (vm_compute; reflexivity).
  assert (size w = 5000) as Esz by (vm_compute; reflexivity).
  assert (cache w = [None; None]) as Ec by (vm_compute; reflexivity).
  assert (active w = [None; None]) as Ea by (vm_compute; reflexivity).
  split_and!; [done| | |].
  - split; [vm_compute; reflexivity|]. intros b Hb Hlt. rewrite Ebs, Esz in *.
    assert (b = 0 ∨ b = 1) as [-> | ->] by lia; vm_compute; reflexivity.
  - intros b buf _. rewrite Ec. by destruct b as [|[|b]].
  - intros b c _ _. rewrite Ea. by destruct b as [|[|b]].
Qed.

Lemma Read_returns_content_witness :
  ∃ w',
    Read (Examples.net_file Examples.sample) Examples.sequential 4090 20
      (Examples.opened (Examples.net_file Examples.sample) 5000 0)
    = Ret (range_of Examples.sample 4090 20, None, w') ∧
    len (range_of Examples.sample 4090 20) = 20.
Proof.
  destruct sample_fetchable as (Hreach & Hs & Hc & Hnf).
  destruct (Read_returns_content (Examples.net_file Examples.sample) Examples.sequential
              4090 20 (Examples.opened (Examples.net_file Examples.sample) 5000 0)
              Examples.sample Hreach Hs Hc Hnf eq_refl)
    as (w' & E & Hlen & _).
  - vm_compute. split; [discriminate | reflexivity].
  - lia.
  - vm_compute. discriminate.
  - vm_compute. reflexivity.
  - vm_compute. discriminate.
  - vm_compute. discriminate.
  - exists w'. split; [exact E | exact Hlen].
Defined.

(** ** Further properties: reading a stream *)

(** X17: a read of a stream over fetchable content.  Under the conditions
    of the read of the handle, for a buffer of positive length, the
    stream's [Read] copies the next [n = min(len(p), contentSize -
    offset)] bytes of the file to the front of the buffer and leaves the
    rest of the buffer alone, returns [n], advances the cursor by [n], and
    returns [io.EOF] in the same call exactly when fewer bytes than the
    buffer holds were left; the state it leaves allows the next read. *)
Theorem Stream_Read_next net s p w content :
  reachable w → serves_content net w content → cache_holds w content → none_failed w →
  ctx_done (s_ctx s) = false →
  0 ≤ s_offset s < size w → 0 < len p →
  s_offset s + len p + blockSize w ≤ MaxInt64 →
  (ceil_div (s_offset s + len p) (blockSize w) - 1) * blockSize w < size w →
  0 ≤ prefetchBlocks w →
  (ceil_div (s_offset s + len p) (blockSize w) + prefetchBlocks w) * blockSize w ≤ MaxInt64 →
  ∃ w',
    Stream_Read net s p w
    = Ret (range_of content (s_offset s) (len p)
             ++ drop (Z.to_nat (Z.min (len p) (size w - s_offset s))) p,
           Z.min (len p) (size w - s_offset s),
           (if size w - s_offset s <? len p then Some EOF else None),
           {| s_offset := s_offset s + Z.min (len p) (size w - s_offset s);
              s_ctx := s_ctx s |},
           w') ∧
    reachable w' ∧ serves_content net w' content ∧ cache_holds w' content ∧
    none_failed w'.
Proof.
  intros Hreach Hs Hc Hnf Hctx Ho Hsz Hov Hlast Hk Hpf.
  destruct (Read_fetchable_content net (s_ctx s) (s_offset s) (len p) w content
              Hreach Hs Hc Hnf Hctx Ho Hsz Hov Hlast Hk Hpf)
    as (w' & E & Hlen & Hrest).
  exists w'. split; [|done].
  unfold Stream_Read. rewrite E. simpl. rewrite Hlen.
  set (n := Z.min (len p) (size w - s_offset s)) in *.
  pose proof (ok_blockSize _ (reachable_ok _ Hreach)) as Hbs.
  assert (add64 (s_offset s) (int64 n) = s_offset s + n) as ->.
  { unfold add64. rewrite (int64_id n) by (unfold n; i64). apply int64_id. unfold n. i64. }
  assert (copy p (range_of content (s_offset s) (len p))
          = range_of content (s_offset s) (len p) ++ drop (Z.to_nat n) p) as ->.
  { unfold copy. rewrite take_ge by (unfold n, len in *; lia). do 2 f_equal.
    unfold n, len in *. lia. }
  do 4 f_equal.
  destruct (Z.ltb_spec n (len p)), (Z.ltb_spec (size w - s_offset s) (len p)); try done;
    unfold n in *; lia.
Qed.

Lemma Stream_Read_next_witness :
  ∃ w',
    Stream_Read (Examples.net_file Examples.sample) (Stream 4090) (Examples.buffer 2000)
      (Examples.opened (Examples.net_file Examples.sample) 5000 0)
    = Ret (range_of Examples.sample 4090 2000 ++ drop 910 (Examples.buffer 2000), 910,
           Some EOF, Stream 5000, w').
Proof.
  destruct sample_fetchable as (Hreach & Hs & Hc & Hnf).
  destruct (Stream_Read_next (Examples.net_file Examples.sample) (Stream 4090)
              (Examples.buffer 2000)
              (Examples.opened (Examples.net_file Examples.sample) 5000 0)
              Examples.sample Hreach Hs Hc Hnf eq_refl)
    as (w' & E & _).
  - vm_compute. split; [discriminate | reflexivity].
  - vm_compute. reflexivity.
  - vm_compute. discriminate.
  - vm_compute. reflexivity.
  - vm_compute. discriminate.
  - vm_compute. discriminate.
  - exists w'. exact E.
Defined.

(** ** Further properties: what holds in every reachable state *)

(** X18: the invariant of a handle.  In every state a handle made by
    [NewHandle] can reach through reads, ends of fetches and further
    handles on its fetcher: the two arrays keep the length [NewHandle]
    gave them; every fetch goroutine in flight is for a block whose slot
    is empty and whose marker is open; every open marker belongs to a
    goroutine in flight; a cached block has no fetch in flight; and two
    blocks never share a marker. *)
Theorem reachable_invariant w :
  reachable w →
  0 < blockSize w ∧
  len (cache w) = size w / blockSize w + 1 ∧ len (active w) = len (cache w) ∧
  (∀ g, g ∈ w_running w →
     cache w !! Z.to_nat (g_block g) = Some None ∧
     ∃ c, active w !! Z.to_nat (g_block g) = Some (Some c) ∧ w_chans w !! c = Some false) ∧
  (∀ b c, active w !! b = Some (Some c) → w_chans w !! c = Some false →
     in_flight w (Z.of_nat b) ≠ []) ∧
  (∀ b buf, cache w !! b = Some (Some buf) → in_flight w (Z.of_nat b) = []) ∧
  (∀ b1 b2 c, active w !! b1 = Some (Some c) → active w !! b2 = Some (Some c) → b1 = b2).
Proof.
  intros Hreach. pose proof (reachable_ok _ Hreach) as Hok.
  split_and!.
  - apply (ok_blockSize _ Hok).
  - apply (ok_cache _ Hok).
  - by rewrite (ok_active _ Hok), (ok_cache _ Hok).
  - intros g Hg. by destruct (ok_running _ Hok g Hg) as (_ & _ & Hc & Hm).
  - intros b c Hm Hch. destruct (ok_open _ Hok b c Hm Hch) as (g & Hg & Eg).
    intros Hnil. apply (for_block_nil_inv _ _ g Hnil Hg Eg).
  - intros b buf Hb. apply for_block_nil. intros g Hg Eg.
    destruct (ok_running _ Hok g Hg) as (_ & _ & Hc & _).
    rewrite Eg, Nat2Z.id in Hc. congruence.
  - apply (ok_inj _ Hok).
Qed.

Lemma reachable_invariant_witness :
  len (cache Examples.reading) = 5 ∧ len (active Examples.reading) = 5 ∧
  length (w_running Examples.reading) = 3%nat ∧
  ∀ g, g ∈ w_running Examples.reading →
    cache Examples.reading !! Z.to_nat (g_block g) = Some None.
Proof.
  destruct (reachable_invariant Examples.reading reading_reachable)
    as (_ & Hc & Ha & Hrun & _).
  split_and!; [exact Hc | rewrite Ha; exact Hc | reflexivity |].
  intros g Hg. exact (proj1 (Hrun g Hg)).
Defined.

Lemma step_lastErr w w' :
  step w w' → handle_ok w → is_Some (lastErr w) → is_Some (lastErr w').
Proof.
  intros [offset sz w0 w1 blocks unfetched Ho Hsz Hlt E | net i w0 w1 Hi E
          | net hash sz peers w0 f' out E] Hok Hl.
  - destruct (Read_locked_frame _ _ _ _ _ _ Hok Ho E) as (_ & _ & ->). done.
  - eapply (fetches_end_lastErr any_network w0 w1); [|done..].
    eapply fetches_end_step; [done | done | exact E | constructor].
  - done.
Qed.

(** X19: the recorded error is never cleared.  Once a fetch has failed and
    [lastErr] is set, it stays set in every state the handle reaches
    afterwards: no read and no successful fetch resets it, so a later
    [Read] that finds a block missing reports an error, possibly that of
    an older fetch of another block. *)
Theorem lastErr_never_cleared w w' :
  reachable w → rtc step w w' → is_Some (lastErr w) →
  reachable w' ∧ is_Some (lastErr w').
Proof.
  intros Hreach Hsteps. induction Hsteps as [w | w w1 w' Hstep _ IH]; [done|].
  intros Hl. apply IH.
  - by apply (reachable_step w w1).
  - by apply (step_lastErr w w1 Hstep (reachable_ok _ Hreach)).
Qed.

Lemma failed_reachable : reachable Examples.failed.
Proof.
  unfold Examples.failed.
  destruct (run_goroutine Examples.net_deaf 0 Examples.failing) as [w|] eqn:E;
    [|exact failing_reachable].
  apply (reachable_step _ _ failing_reachable).
  apply (step_fetch_done Examples.net_deaf 0); [|done]. vm_compute. lia.
Qed.

Lemma lastErr_never_cleared_witness :
  rtc step Examples.failed Examples.recovered ∧
  cached Examples.recovered 1 = true ∧
  reachable Examples.recovered ∧ is_Some (lastErr Examples.recovered).
Proof.
  assert (rtc step Examples.failed Examples.recovered) as Hsteps.
  { unfold Examples.recovered.
    destruct (Read_locked 4096 10 Examples.failed) as [[[w1 bl] u]|] eqn:E1;
      [|vm_compute in E1; discriminate].
    destruct (run_goroutine (Examples.net_serving 5000) 0 w1) as [w2|] eqn:E2.
    2:{ vm_compute in E1. injection E1 as <- _ _. vm_compute in E2. discriminate. }
    eapply rtc_l; [|eapply rtc_l; [|apply rtc_refl]].
    - apply (step_Read 4096 10 _ w1 bl u); [unfold MinInt64, MaxInt64; lia.. | | done].
      vm_compute. reflexivity.
    - apply (step_fetch_done (Examples.net_serving 5000) 0); [|done].
      vm_compute in E1. injection E1 as <- _ _. vm_compute. lia. }
  split; [exact Hsteps|]. split; [vm_compute; reflexivity|].
  apply (lastErr_never_cleared Examples.failed Examples.recovered failed_reachable Hsteps).
  vm_compute. by eexists.
Defined.
